(** * kyokan: the ingredient ontology builder and its patch scripts

    A shallow embedding of
      - scripts/build-ingredient-ontology.py   (canonicalizer, normalizer,
        merge engine, enricher), and
      - scripts/patch-ontology-top200.py, scripts/patch-ontology-next100.py
        (the patch applier),
    followed by the properties of the specification that were checked
    against them.

    Character model.  A Python [str] is modelled as a list of 8-bit code
    points ([ascii], read as U+0000..U+00FF).  On that range [str.lower],
    [str.isspace] (which also drives [str.strip], [str.split] and the regex
    class [\s]) are modelled exactly. *)

From Stdlib Require Import String Ascii List NArith ZArith Bool Arith Lia.
From Stdlib Require Import Sorting.Sorted Sorting.Permutation.
Import ListNotations.

Open Scope string_scope.
Open Scope list_scope.

(* ================================================================== *)
(** * Part I: definitions                                               *)
(* ================================================================== *)

(** ** Python strings *)

Definition str := list ascii.

Coercion list_ascii_of_string : string >-> list.

Definition strs (l : list string) : list str := map list_ascii_of_string l.

Definition code (c : ascii) : N := N_of_ascii c.

Definition in_range (lo hi : N) (c : ascii) : bool :=
  ((lo <=? code c) && (code c <=? hi))%N.

(** [str.isspace] on one code point below 256: TAB..CR, FS..US, SPACE,
    NEL (0x85) and NBSP (0xA0). *)
Definition is_space (c : ascii) : bool :=
  in_range 9 13 c || in_range 28 32 c
  || (code c =? 133)%N || (code c =? 160)%N.

(** Code points below 256 that [str.lower] changes: A-Z, and the Latin-1
    capitals 0xC0..0xDE except the multiplication sign 0xD7. *)
Definition is_upper (c : ascii) : bool :=
  in_range 65 90 c || (in_range 192 222 c && negb (code c =? 215)%N).

Definition lower_char (c : ascii) : ascii :=
  if is_upper c then ascii_of_N (code c + 32) else c.

(** [s.lower()] *)
Definition lower (s : str) : str := map lower_char s.

(** [a == b] on strings. *)
Fixpoint str_eqb (a b : str) : bool :=
  match a, b with
  | [], [] => true
  | x :: a', y :: b' => Ascii.eqb x y && str_eqb a' b'
  | _, _ => false
  end.

(** Python's [<=] on strings: lexicographic on code points. *)
Fixpoint str_leb (a b : str) : bool :=
  match a, b with
  | [], _ => true
  | _ :: _, [] => false
  | x :: a', y :: b' =>
      if (code x <? code y)%N then true
      else if (code x =? code y)%N then str_leb a' b'
      else false
  end.

Fixpoint lstrip_by (p : ascii -> bool) (s : str) : str :=
  match s with
  | [] => []
  | c :: r => if p c then lstrip_by p r else s
  end.

Fixpoint rstrip_by (p : ascii -> bool) (s : str) : str :=
  match s with
  | [] => []
  | c :: r =>
      match rstrip_by p r with
      | [] => if p c then [] else [c]
      | r' => c :: r'
      end
  end.

Definition strip_by (p : ascii -> bool) (s : str) : str :=
  rstrip_by p (lstrip_by p s).

(** [s.strip()] *)
Definition strip (s : str) : str := strip_by is_space s.

Definition is_hyphen (c : ascii) : bool := (code c =? 45)%N.

(** [s.strip("-")] *)
Definition strip_hyphens (s : str) : str := strip_by is_hyphen s.

(** [s.split()]: the maximal runs of non-whitespace; [cur] is the word
    being read, reversed. *)
Fixpoint split_from (cur : str) (s : str) : list str :=
  match s with
  | [] => match cur with [] => [] | _ => [rev cur] end
  | c :: r =>
      if is_space c
      then match cur with
           | [] => split_from [] r
           | _ => rev cur :: split_from [] r
           end
      else split_from (c :: cur) r
  end.

Definition split (s : str) : list str := split_from [] s.

(** [re.sub("[^...]", "", s)] for a character class given by [keep]. *)
Definition re_delete_except (keep : ascii -> bool) (s : str) : str :=
  filter keep s.

(** [re.sub("[p]+", rep, s)]: each maximal run of characters of the class
    [p] becomes the single character [rep]. *)
Fixpoint re_sub_runs (p : ascii -> bool) (rep : ascii) (s : str) : str :=
  match s with
  | [] => []
  | c :: r =>
      if p c
      then match r with
           | c' :: _ => if p c' then re_sub_runs p rep r
                        else rep :: re_sub_runs p rep r
           | [] => [rep]
           end
      else c :: re_sub_runs p rep r
  end.

Definition is_lower_alnum (c : ascii) : bool :=
  in_range 97 122 c || in_range 48 57 c.

(** The class [[a-z0-9\s-]]. *)
Definition is_slug_source_char (c : ascii) : bool :=
  is_lower_alnum c || is_space c || is_hyphen c.

(** The characters a slug is made of: [[a-z0-9-]]. *)
Definition is_slug_char (c : ascii) : bool := is_lower_alnum c || is_hyphen c.

(** No two neighbours of the class [p]. *)
Fixpoint no_run (p : ascii -> bool) (s : str) : Prop :=
  match s with
  | [] => True
  | c :: r =>
      match r with
      | [] => True
      | c' :: _ => ~ (p c = true /\ p c' = true)
      end /\ no_run p r
  end.

(** [s.endswith(suf)] *)
Definition endswith (s suf : str) : bool :=
  str_eqb (skipn (length s - length suf) s) suf.

(** ** build-ingredient-ontology.py *)

Definition COLOR_WORDS : list str :=
  strs ["red"; "green"; "yellow"; "orange"; "purple"; "white"; "black";
        "brown"; "golden"].

Definition FORM_WORDS : list str :=
  strs ["raw"; "cooked"; "dried"; "ground"; "fresh"; "frozen"; "canned";
        "whole"; "powdered"].

Definition PREP_WORDS : list str :=
  strs ["chopped"; "diced"; "minced"; "sliced"; "shredded"; "peeled";
        "seeded"; "grated"; "crushed"; "roasted"; "toasted"; "smoked";
        "blanched"; "sauteed"; "melted"; "softened"; "julienned"; "cubed";
        "mashed"; "pureed"].

Definition SIZE_WORDS : list str :=
  strs ["small"; "medium"; "large"; "thin"; "thick"; "baby"; "mini"].

Definition slugify (text : str) : str :=
  let s := strip (lower text) in
  let s := re_delete_except is_slug_source_char s in
  let s := re_sub_runs is_space "-" s in
  let s := re_sub_runs is_hyphen "-" s in
  strip_hyphens s.

(** Python's [set] of strings, kept as a duplicate-free list. *)
Definition set_mem (x : str) (s : list str) : bool := existsb (str_eqb x) s.

Definition set_add (x : str) (s : list str) : list str :=
  if set_mem x s then s else s ++ [x].

(** [set(l)] *)
Definition set_of_list (l : list str) : list str :=
  fold_left (fun s x => set_add x s) l [].

(** Python's stable sort by a string key ([sorted], [list.sort(key=...)]):
    [x] goes before the first element whose key is not smaller. *)
Fixpoint insert_by {A : Type} (key : A -> str) (x : A) (l : list A) : list A :=
  match l with
  | [] => [x]
  | y :: r => if str_leb (key x) (key y) then x :: l
              else y :: insert_by key x r
  end.

Definition sort_by {A : Type} (key : A -> str) (l : list A) : list A :=
  fold_right (insert_by key) [] l.

(** Ascending by key: what the sort establishes between neighbours. *)
Definition key_le {A : Type} (key : A -> str) (x y : A) : Prop :=
  str_leb (key x) (key y) = true.

Definition sorted (l : list str) : list str := sort_by (fun x => x) l.

Definition truthy_str (s : str) : bool :=
  match s with [] => false | _ => true end.

Definition derive_tokens (surface_forms : list str) : list str :=
  let token_set :=
    fold_left
      (fun token_set form =>
         fold_left
           (fun token_set t =>
              let cleaned := re_delete_except is_lower_alnum t in
              if truthy_str cleaned && (2 <=? length cleaned)%nat
              then set_add cleaned token_set
              else token_set)
           (split (lower form)) token_set)
      surface_forms [] in
  sorted token_set.

Record modifiers_t : Type := mkModifiers {
  color : list str;
  form : list str;
  prep : list str;
  size : list str;
  origin : list str
}.

Definition derive_modifiers (tokens : list str) : modifiers_t :=
  {| color := filter (fun t => set_mem t COLOR_WORDS) tokens;
     form := filter (fun t => set_mem t FORM_WORDS) tokens;
     prep := filter (fun t => set_mem t PREP_WORDS) tokens;
     size := filter (fun t => set_mem t SIZE_WORDS) tokens;
     origin := [] |}.

Definition suffixes : list str :=
  strs ["-raw"; "-cooked"; "-frozen"; "-canned"; "-peeled"; "-seeded";
        "-boneless"; "-skinless"; "-dried"; "-ground"; "-fresh"; "-smoked";
        "-roasted"; "-toasted"; "-whole"; "-sliced"; "-diced"; "-minced";
        "-chopped"; "-shredded"; "-crushed"].

(** One turn of the loop of [slug_to_equivalence_class]:
    [if base.endswith(suf): base = base[: -len(suf)]]. *)
Definition strip_suffix (base suf : str) : str :=
  if endswith base suf then firstn (length base - length suf) base else base.

(** The loop has no [break]: it runs over the whole list. *)
Definition slug_to_equivalence_class (slug : str) : str :=
  fold_left strip_suffix suffixes slug.

Definition dedup_ordered (items : list str) : list str :=
  snd
    (fold_left
       (fun (st : list str * list str) item =>
          let '(seen, result) := st in
          let key := strip (lower item) in
          if truthy_str key && negb (set_mem key seen)
          then (set_add key seen, result ++ [strip item])
          else st)
       items ([], [])).

(** A JSON value as [json.loads] hands it to [normalize_fdc_id].  A JSON
    boolean is a Python [int] (1 or 0) and is read as [JInt]. *)
Inductive json : Type :=
  | JNull
  | JInt (n : Z)
  | JStr (s : str)
  | JOther.

Definition is_digit (c : ascii) : bool := in_range 48 57 c.

Definition digit_val (c : ascii) : Z := Z.of_N (code c) - 48.

(** Digits of a decimal literal, single underscores allowed between
    digits; [acc] is the value read so far, [prev] tells whether the
    previous character was a digit. *)
Fixpoint parse_digits (acc : Z) (prev : bool) (s : str) : option Z :=
  match s with
  | [] => if prev then Some acc else None
  | c :: r =>
      if is_digit c then parse_digits (10 * acc + digit_val c) true r
      else if (code c =? 95)%N && prev then parse_digits acc false r
      else None
  end.

(** The whitespace [int()] skips around a literal.  It tests the ASCII
    characters with the C classification (TAB..CR and SPACE only, so not
    FS..US, which [str.strip] does trim) and reads the other whitespace
    of the string, here NEL and NBSP, as spaces. *)
Definition is_int_space (c : ascii) : bool :=
  in_range 9 13 c || (code c =? 32)%N || (code c =? 133)%N
  || (code c =? 160)%N.

(** [sys.int_max_str_digits] as the interpreter sets it by default: a
    literal with more digits is refused. *)
Definition int_max_str_digits : nat := 4300.

(** [int(s)] for a string: [None] stands for [ValueError]. *)
Definition py_int (s : str) : option Z :=
  match strip_by is_int_space s with
  | [] => None
  | c :: r =>
      let signed := (code c =? 43)%N || (code c =? 45)%N in
      let literal := if signed then r else c :: r in
      if (length (filter is_digit literal) <=? int_max_str_digits)%nat
      then if (code c =? 45)%N
           then option_map Z.opp (parse_digits 0 false literal)
           else parse_digits 0 false literal
      else None
  end.

Definition normalize_fdc_id (val : json) : option Z :=
  match val with
  | JNull => None
  | JInt n => if (0 <? n)%Z then Some n else None
  | JStr s =>
      match py_int s with
      | Some n => if (0 <? n)%Z then Some n else None
      | None => None
      end
  | JOther => None
  end.

(** Python dictionaries keyed by strings, in insertion order. *)
Definition dict (V : Type) : Type := list (str * V).

Fixpoint dict_get {V : Type} (k : str) (d : dict V) : option V :=
  match d with
  | [] => None
  | (k', v) :: r => if str_eqb k k' then Some v else dict_get k r
  end.

Fixpoint dict_set {V : Type} (k : str) (v : V) (d : dict V) : dict V :=
  match d with
  | [] => [(k, v)]
  | (k', v') :: r =>
      if str_eqb k k' then (k, v) :: r else (k', v') :: dict_set k v r
  end.

Definition dict_keys {V : Type} (d : dict V) : list str := map fst d.

(** The common shape both loaders produce and [merge_entries] returns. *)
Record raw_entry : Type := mkRaw {
  raw_slug : str;
  raw_displayName : str;
  raw_surfaceForms : list str;
  raw_fdcId : option Z
}.

(** One record of synonyms-1.json; an absent key is [None]
    ([item.get(...)]), an absent fdc_id is [JNull]. *)
Record s1_item : Type := mkS1 {
  normalized_name : str;
  canonical_name : option str;
  synonyms : option (list str);
  s1_fdc_id : json
}.

(** One record of synonyms-2.json. *)
Record s2_item : Type := mkS2 {
  s2_slug : str;
  display_name : str;
  synonym_array : option (list str);
  s2_fdc_id : json
}.

Definition get_or {A : Type} (o : option A) (default : A) : A :=
  match o with Some a => a | None => default end.

Definition load_s1 (raw : list s1_item) : dict raw_entry :=
  fold_left
    (fun entries item =>
       let name := normalized_name item in
       let slug := slugify name in
       let display := get_or (canonical_name item) name in
       let synonyms := get_or (synonyms item) [] in
       let fdc_id := normalize_fdc_id (s1_fdc_id item) in
       let surface_forms := dedup_ordered ([display; name] ++ synonyms) in
       dict_set slug (mkRaw slug display surface_forms fdc_id) entries)
    raw [].

Definition load_s2 (raw : list s2_item) : dict raw_entry :=
  fold_left
    (fun entries item =>
       let slug := s2_slug item in
       let display := display_name item in
       let synonyms := get_or (synonym_array item) [] in
       let fdc_id := normalize_fdc_id (s2_fdc_id item) in
       let surface_forms := dedup_ordered ([display] ++ synonyms) in
       dict_set slug (mkRaw slug display surface_forms fdc_id) entries)
    raw [].

(** [a or b] on optional integers: [None] and [0] are falsy. *)
Definition py_or (a b : option Z) : option Z :=
  match a with
  | Some n => if (n =? 0)%Z then b else a
  | None => b
  end.

(** The body of the loop of [merge_entries] for one slug.  [None] is the
    [TypeError] Python raises when neither map has the slug. *)
Definition merge_slug (s1 s2 : dict raw_entry) (slug : str) : option raw_entry :=
  match dict_get slug s1, dict_get slug s2 with
  | Some e1, Some e2 =>
      Some (mkRaw slug (raw_displayName e2)
                  (dedup_ordered (raw_surfaceForms e2 ++ raw_surfaceForms e1))
                  (py_or (raw_fdcId e2) (raw_fdcId e1)))
  | None, Some e2 =>
      Some (mkRaw slug (raw_displayName e2) (raw_surfaceForms e2) (raw_fdcId e2))
  | Some e1, None =>
      Some (mkRaw slug (raw_displayName e1) (raw_surfaceForms e1) (raw_fdcId e1))
  | None, None => None
  end.

Fixpoint merge_loop (s1 s2 : dict raw_entry) (slugs : list str)
  : option (list raw_entry) :=
  match slugs with
  | [] => Some []
  | slug :: rest =>
      match merge_slug s1 s2 slug with
      | None => None
      | Some m =>
          match merge_loop s1 s2 rest with
          | None => None
          | Some ms => Some (m :: ms)
          end
      end
  end.

Definition all_slugs (s1 s2 : dict raw_entry) : list str :=
  sorted (set_of_list (dict_keys s1 ++ dict_keys s2)).

Definition merge_entries (s1 s2 : dict raw_entry) : option (list raw_entry) :=
  merge_loop s1 s2 (all_slugs s1 s2).

Record fdc_t : Type := mkFdc {
  fdcId : option Z;
  dataType : option str;
  description : option str
}.

Record taxonomy_t : Type := mkTaxonomy {
  group : option str;
  family : option str;
  genus : option str;
  species : option str
}.

(** An entry of ingredient-ontology.json. *)
Record entry : Type := mkEntry {
  slug : str;
  displayName : str;
  surfaceForms : list str;
  tokens : list str;
  modifiers : modifiers_t;
  aliases : list (str * str);
  fdc : fdc_t;
  equivalenceClass : str;
  taxonomy : taxonomy_t;
  substitutions : list str
}.

Definition empty_taxonomy : taxonomy_t := mkTaxonomy None None None None.

Definition enrich_entry (raw : raw_entry) : entry :=
  let tokens := derive_tokens (raw_surfaceForms raw) in
  let modifiers := derive_modifiers tokens in
  let equivalence_class := slug_to_equivalence_class (raw_slug raw) in
  {| slug := raw_slug raw;
     displayName := raw_displayName raw;
     surfaceForms := raw_surfaceForms raw;
     tokens := tokens;
     modifiers := modifiers;
     aliases := [];
     fdc := mkFdc (raw_fdcId raw) None None;
     equivalenceClass := equivalence_class;
     taxonomy := empty_taxonomy;
     substitutions := [] |}.

(** [main] of the build script without its progress lines: the ontology
    written to ingredient-ontology.json. *)
Definition build_main (raw1 : list s1_item) (raw2 : list s2_item)
  : option (list entry) :=
  option_map (map enrich_entry) (merge_entries (load_s1 raw1) (load_s2 raw2)).

(** The first suffix of [sufs], in list order, that [slug] ends with,
    and the suffixes listed after it. *)
Fixpoint first_match (slug : str) (sufs : list str) : option (str * list str) :=
  match sufs with
  | [] => None
  | suf :: later =>
      if endswith slug suf then Some (suf, later) else first_match slug later
  end.

(** The derivation as the specification words it: the first listed suffix
    the slug ends with is removed, and nothing else. *)
Definition strip_first_match (slug : str) : str :=
  match first_match slug suffixes with
  | None => slug
  | Some (suf, _) => firstn (length slug - length suf) slug
  end.

(** The loop of [dedup_ordered] read as a recursion: what the loop
    appends to [result] from [items] once the keys of [seen] have been
    met. *)
Fixpoint dedup_from (seen : list str) (items : list str) : list str :=
  match items with
  | [] => []
  | item :: rest =>
      let key := strip (lower item) in
      if truthy_str key && negb (set_mem key seen)
      then strip item :: dedup_from (set_add key seen) rest
      else dedup_from seen rest
  end.

(** Surface forms as the normalizer leaves them: trimmed, not empty, and
    no two equal after lower-casing. *)
Definition normalized_forms (l : list str) : Prop :=
  Forall (fun d => strip d = d /\ d <> []) l /\ NoDup (map lower l).

(** A record as the normalizer leaves it. *)
Definition normalized_entry (e : raw_entry) : Prop :=
  normalized_forms (raw_surfaceForms e) /\
  forall n, raw_fdcId e = Some n -> (0 < n)%Z.

Definition normalized_map (s : dict raw_entry) : Prop :=
  forall k e, dict_get k s = Some e -> normalized_entry e.

(** The shape every listed suffix has: a hyphen, then no further hyphen. *)
Definition suffix_shape (suf : str) : Prop :=
  exists a, suf = "-"%char :: a /\ Forall (fun c => is_hyphen c = false) a.

(** Strictly ascending in Python's order on strings. *)
Definition str_lt (a b : str) : Prop := str_leb a b = true /\ a <> b.

(** What the specification calls the tokens drawn from a list of surface
    forms: a whitespace-separated word of a lower-cased surface form,
    with every character outside [[a-z0-9]] removed, of length 2 or more. *)
Definition token_of (surface_forms : list str) (t : str) : Prop :=
  exists sf w,
    In sf surface_forms /\ In w (split (lower sf)) /\
    t = re_delete_except is_lower_alnum w /\ 2 <= length t.

(** The Source A record of Scenario 1 of the specification; the scenario
    leaves its fdc_id open. *)
Definition roma_tomato (fdc_id : json) : s1_item :=
  mkS1 "Roma Tomato" (Some ("Tomato" : str)) (Some (strs ["tomatoes"])) fdc_id.

(** Two small sources that share the slug "tomato". *)
Definition sample_source_a : list s1_item :=
  [mkS1 "Tomato" (Some ("Tomato" : str))
        (Some (strs ["tomatoes"; "Love Apple"])) (JInt 7)].

Definition sample_source_b : list s2_item :=
  [mkS2 "tomato" "Tomatoes" (Some (strs ["tomato"; "pomodoro"])) JNull].

(** ** patch-ontology-top200.py and patch-ontology-next100.py

    The two scripts share [enrich_new_entry] and [main] word for word,
    apart from the line printed when a candidate's slug already exists;
    [script] selects that line.  The module constants
    SURFACE_FORM_PATCHES (a dictionary, read through [.items()]) and
    NEW_ENTRIES are parameters of [main] here. *)

(** A descriptor of NEW_ENTRIES; [new_equivalenceClass] is read with
    [raw.get("equivalenceClass", raw["slug"])].

    [enrich_new_entry] hands the descriptor's own list of surface forms to
    the entry it builds, so a later descriptor with the same slug appends
    to the list of the earlier descriptor as well.  The loop over
    NEW_ENTRIES never reads an earlier descriptor again and the
    descriptors are written as separate literals, so reading the lists as
    values loses nothing. *)
Record new_entry : Type := mkNew {
  new_slug : str;
  new_displayName : str;
  new_surfaceForms : list str;
  new_fdc : fdc_t;
  new_equivalenceClass : option str
}.

Definition enrich_new_entry (raw : new_entry) : entry :=
  let tokens :=
    fold_left
      (fun tokens sf =>
         fold_left
           (fun tokens t =>
              let cleaned := re_delete_except is_lower_alnum t in
              if truthy_str cleaned && (2 <=? length cleaned)%nat
              then set_add cleaned tokens
              else tokens)
           (split (lower sf)) tokens)
      (new_surfaceForms raw) [] in
  let COLOR_WORDS :=
    strs ["red"; "green"; "yellow"; "orange"; "purple"; "white"; "black";
          "brown"; "golden"] in
  let FORM_WORDS :=
    strs ["raw"; "cooked"; "dried"; "ground"; "fresh"; "frozen"; "canned";
          "whole"; "powdered"] in
  let PREP_WORDS :=
    strs ["chopped"; "diced"; "minced"; "sliced"; "shredded"; "peeled";
          "seeded"; "grated"; "crushed"; "roasted"; "toasted"; "smoked";
          "melted"; "softened"] in
  let SIZE_WORDS :=
    strs ["small"; "medium"; "large"; "thin"; "thick"; "baby"; "mini"] in
  let sorted_tokens := sorted tokens in
  {| slug := new_slug raw;
     displayName := new_displayName raw;
     surfaceForms := new_surfaceForms raw;
     tokens := sorted_tokens;
     modifiers :=
       {| color := filter (fun t => set_mem t COLOR_WORDS) sorted_tokens;
          form := filter (fun t => set_mem t FORM_WORDS) sorted_tokens;
          prep := filter (fun t => set_mem t PREP_WORDS) sorted_tokens;
          size := filter (fun t => set_mem t SIZE_WORDS) sorted_tokens;
          origin := [] |};
     aliases := [];
     fdc := new_fdc raw;
     equivalenceClass := get_or (new_equivalenceClass raw) (new_slug raw);
     taxonomy := empty_taxonomy;
     substitutions := [] |}.

Inductive script : Type := Top200 | Next100.

(** The lines [main] prints. *)
Inductive event : Type :=
  | Warning_slug_not_found (slug : str)
  | Added_surface_forms (patched_count : nat)
  | Merged_surface_forms (merged : option nat) (slug : str)
  | Added_new_entries (added : nat)
  | Totals (entries with_fdc total_sf : nat)
  | Written.

(** [slug_index = {e["slug"]: e for e in ontology}] maps a slug to the
    last entry of the list that carries it, and shares that entry with
    the list.  [main] keeps this so: surface forms are appended to entries
    in place, and a new entry is appended to the list and entered in the
    index only when its slug is not in the index.  The index is therefore
    read off the list. *)
Definition has_slug (s : str) (e : entry) : bool := str_eqb (slug e) s.

Fixpoint index_get (s : str) (ontology : list entry) : option entry :=
  match ontology with
  | [] => None
  | e :: rest =>
      match index_get s rest with
      | Some e' => Some e'
      | None => if has_slug s e then Some e else None
      end
  end.

(** Writing through [slug_index[s]]: the last entry with slug [s]
    becomes [e']. *)
Fixpoint index_update (s : str) (e' : entry) (ontology : list entry)
  : list entry :=
  match ontology with
  | [] => []
  | e :: rest =>
      match index_get s rest with
      | Some _ => e :: index_update s e' rest
      | None => if has_slug s e then e' :: rest else e :: rest
      end
  end.

Definition set_surfaceForms (e : entry) (sfs : list str) : entry :=
  {| slug := slug e;
     displayName := displayName e;
     surfaceForms := sfs;
     tokens := tokens e;
     modifiers := modifiers e;
     aliases := aliases e;
     fdc := fdc e;
     equivalenceClass := equivalenceClass e;
     taxonomy := taxonomy e;
     substitutions := substitutions e |}.

(** The inner loop shared by both steps of [main]:
    [existing = {sf.lower() for sf in entry["surfaceForms"]}], then each
    form whose lower-cased text is not in [existing] is appended and
    counted. *)
Definition append_new_forms (surface_forms new_forms : list str)
  : list str * nat :=
  let existing := set_of_list (map lower surface_forms) in
  let '(sfs, _, n) :=
    fold_left
      (fun (st : list str * list str * nat) form =>
         let '(sfs, existing, n) := st in
         if negb (set_mem (lower form) existing)
         then (sfs ++ [form], set_add (lower form) existing, S n)
         else st)
      new_forms (surface_forms, existing, 0) in
  (sfs, n).

(** Appending [new_forms] to the entry the index holds for [s];
    [None] when [s] is not in the index. *)
Definition add_surface_forms (s : str) (new_forms : list str)
    (ontology : list entry) : option (list entry * nat) :=
  match index_get s ontology with
  | Some entry =>
      let '(sfs, n) := append_new_forms (surfaceForms entry) new_forms in
      Some (index_update s (set_surfaceForms entry sfs) ontology, n)
  | None => None
  end.

(** Step 1 of [main], one pair of SURFACE_FORM_PATCHES. *)
Definition patch_pair (st : list entry * nat * list event)
    (pair : str * list str) : list entry * nat * list event :=
  let '(ontology, patched_count, out) := st in
  let '(s, new_forms) := pair in
  match add_surface_forms s new_forms ontology with
  | Some (ontology', n) => (ontology', patched_count + n, out)
  | None => (ontology, patched_count, out ++ [Warning_slug_not_found s])
  end.

Definition merged_line (sc : script) (merged : nat) (s : str) : list event :=
  match sc with
  | Top200 => [Merged_surface_forms None s]
  | Next100 =>
      match merged with
      | 0 => []
      | _ => [Merged_surface_forms (Some merged) s]
      end
  end.

(** Step 2 of [main], one descriptor of NEW_ENTRIES. *)
Definition add_candidate (sc : script) (st : list entry * nat * list event)
    (raw : new_entry) : list entry * nat * list event :=
  let '(ontology, added, out) := st in
  match add_surface_forms (new_slug raw) (new_surfaceForms raw) ontology with
  | None => (ontology ++ [enrich_new_entry raw], S added, out)
  | Some (ontology', merged) =>
      (ontology', added, out ++ merged_line sc merged (new_slug raw))
  end.

Definition truthy_id (o : option Z) : bool :=
  match o with
  | Some n => negb (n =? 0)%Z
  | None => false
  end.

Definition total_surface_forms (ontology : list entry) : nat :=
  fold_left (fun n e => n + length (surfaceForms e)) ontology 0.

Definition count_with_fdc (ontology : list entry) : nat :=
  length (filter (fun e => truthy_id (fdcId (fdc e))) ontology).

(** [main]: from the ontology read from ingredient-ontology.json to the
    ontology written back and the lines printed. *)
Definition main (sc : script) (SURFACE_FORM_PATCHES : dict (list str))
    (NEW_ENTRIES : list new_entry) (ontology : list entry)
  : list entry * list event :=
  let '(ontology, patched_count, out) :=
    fold_left patch_pair SURFACE_FORM_PATCHES (ontology, 0, []) in
  let out := out ++ [Added_surface_forms patched_count] in
  let '(ontology, added, out) :=
    fold_left (add_candidate sc) NEW_ENTRIES (ontology, 0, out) in
  let out := out ++ [Added_new_entries added] in
  let ontology := sort_by slug ontology in
  let out :=
    out ++ [Totals (length ontology) (count_with_fdc ontology)
                   (total_surface_forms ontology); Written] in
  (ontology, out).

(** The ontology [main] writes: [apply(O, P)] of the specification. *)
Definition apply_patch (sc : script) (P : dict (list str) * list new_entry)
    (O : list entry) : list entry :=
  fst (main sc (fst P) (snd P) O).

(** ** The constants of the two patch scripts *)

(** SURFACE_FORM_PATCHES of patch-ontology-top200.py, as [.items()]
    lists it.  The literal writes the key "chicken-breasts" twice; the
    dictionary keeps the first place and the second list. *)
Definition top200_SURFACE_FORM_PATCHES : dict (list str) :=
  [("garlic-cloves" : str,
    strs ["garlic clove"]);
   ("green-bell-pepper" : str,
    strs ["green pepper"; "green peppers"]);
   ("chicken-breasts" : str,
    strs ["boneless skinless chicken breasts";
          "boneless skinless chicken breast halves"; "cooked chicken";
          "chicken breast halves"]);
   ("thyme-dried" : str,
    strs ["dried thyme"]);
   ("black-pepper" : str,
    strs ["pepper"; "fresh ground pepper"; "fresh ground black pepper";
          "freshly ground black pepper"]);
   ("salt" : str,
    strs ["salt & pepper"; "salt & freshly ground black pepper";
          "salt and pepper"]);
   ("heavy-cream" : str,
    strs ["whipping cream"; "heavy whipping cream"]);
   ("unsalted-butter" : str,
    strs ["butter"; "melted butter"; "softened butter"]);
   ("red-chili-flakes" : str,
    strs ["crushed red pepper flakes"; "red pepper flakes"]);
   ("mushrooms" : str,
    strs ["fresh mushrooms"; "sliced mushrooms"]);
   ("lemon" : str,
    strs ["lemon, juice of"]);
   ("water" : str,
    strs ["water"; "boiling water"; "hot water"; "cold water"; "warm water";
          "ice water"; "ice"]);
   ("ground-beef" : str,
    strs ["lean ground beef"]);
   ("eggs" : str,
    strs ["egg yolks"]);
   ("cayenne-pepper" : str,
    strs ["cayenne"]);
   ("green-chilies" : str,
    strs ["green chilies"; "green chiles"]);
   ("pecans" : str,
    strs ["pecans"]);
   ("milk" : str,
    strs ["skim milk"; "whole milk"; "2% milk"; "low-fat milk"])].

(** NEW_ENTRIES of patch-ontology-top200.py. *)
Definition top200_NEW_ENTRIES : list new_entry :=
  [mkNew "flour" "Flour"
         (strs ["flour"; "all-purpose flour"; "plain flour"; "ap flour";
                "wheat flour"])
         (mkFdc (Some 789890%Z) (Some ("foundation" : str))
                (Some ("Flour, wheat, all-purpose, enriched, bleached" : str)))
         (Some ("flour" : str));
   mkNew "milk" "Milk"
         (strs ["milk"; "whole milk"; "skim milk"; "2% milk"; "low-fat milk";
                "reduced fat milk"])
         (mkFdc (Some 171265%Z) (Some ("sr_legacy" : str))
                (Some ("Milk, whole, 3.25% milkfat, with added vitamin D" : str)))
         (Some ("milk" : str));
   mkNew "butter" "Butter"
         (strs ["butter"; "salted butter"; "melted butter"; "softened butter";
                "stick butter"])
         (mkFdc (Some 173410%Z) (Some ("sr_legacy" : str))
                (Some ("Butter, salted" : str)))
         (Some ("butter" : str));
   mkNew "pepper" "Black Pepper"
         (strs ["pepper"; "black pepper"; "ground pepper"; "fresh ground pepper";
                "freshly ground black pepper"; "fresh ground black pepper";
                "ground black pepper"; "cracked black pepper"])
         (mkFdc (Some 170931%Z) (Some ("sr_legacy" : str))
                (Some ("Spices, pepper, black" : str)))
         (Some ("black-pepper" : str));
   mkNew "oil" "Vegetable Oil"
         (strs ["oil"; "vegetable oil"; "cooking oil"; "canola oil";
                "neutral oil"])
         (mkFdc (Some 171025%Z) (Some ("sr_legacy" : str))
                (Some ("Oil, vegetable, soybean, refined" : str)))
         (Some ("oil" : str));
   mkNew "margarine" "Margarine"
         (strs ["margarine"; "margarine or butter"])
         (mkFdc (Some 173430%Z) (Some ("sr_legacy" : str))
                (Some ("Margarine, regular, 80% fat, composite, stick, with salt" : str)))
         (Some ("margarine" : str));
   mkNew "vinegar" "Vinegar"
         (strs ["vinegar"; "white vinegar"; "distilled vinegar";
                "distilled white vinegar"])
         (mkFdc (Some 173468%Z) (Some ("sr_legacy" : str))
                (Some ("Vinegar, distilled" : str)))
         (Some ("vinegar" : str));
   mkNew "shortening" "Shortening"
         (strs ["shortening"; "vegetable shortening"])
         (mkFdc (Some 171011%Z) (Some ("sr_legacy" : str))
                (Some ("Shortening, household, soybean (partially hydrogenated)-cottonseed (partially hydrogenated)" : str)))
         (Some ("shortening" : str));
   mkNew "cheese" "Cheese"
         (strs ["cheese"; "shredded cheese"; "grated cheese"])
         (mkFdc (Some 170851%Z) (Some ("sr_legacy" : str))
                (Some ("Cheese, cheddar" : str)))
         (Some ("cheese" : str));
   mkNew "garlic-salt" "Garlic Salt"
         (strs ["garlic salt"])
         (mkFdc (Some 171325%Z) (Some ("sr_legacy" : str))
                (Some ("Spices, garlic powder" : str)))
         (Some ("garlic-salt" : str));
   mkNew "cider-vinegar" "Cider Vinegar"
         (strs ["cider vinegar"; "apple cider vinegar"])
         (mkFdc (Some 173469%Z) (Some ("sr_legacy" : str))
                (Some ("Vinegar, cider" : str)))
         (Some ("vinegar" : str));
   mkNew "semi-sweet-chocolate-chips" "Semi-Sweet Chocolate Chips"
         (strs ["semi-sweet chocolate chips"; "semisweet chocolate chips";
                "chocolate chips"])
         (mkFdc (Some 170272%Z) (Some ("sr_legacy" : str))
                (Some ("Chocolate, dark, 45-59% cacao solids" : str)))
         (Some ("chocolate-chips" : str));
   mkNew "ground-cloves" "Ground Cloves"
         (strs ["ground cloves"; "cloves"; "whole cloves"])
         (mkFdc (Some 170922%Z) (Some ("sr_legacy" : str))
                (Some ("Spices, cloves, ground" : str)))
         (Some ("cloves" : str));
   mkNew "half-and-half" "Half-and-Half"
         (strs ["half-and-half"; "half and half"; "half & half"])
         (mkFdc (Some 170855%Z) (Some ("sr_legacy" : str))
                (Some ("Cream, fluid, half and half" : str)))
         (Some ("half-and-half" : str));
   mkNew "seasoning-salt" "Seasoning Salt"
         (strs ["seasoning salt"; "season salt"; "lawry's seasoned salt"])
         (mkFdc (Some 173468%Z) (Some ("sr_legacy" : str))
                (Some ("Salt, table" : str)))
         (Some ("seasoning-salt" : str));
   mkNew "tabasco-sauce" "Tabasco Sauce"
         (strs ["tabasco sauce"; "tabasco"; "hot pepper sauce"])
         (mkFdc (Some 171150%Z) (Some ("sr_legacy" : str))
                (Some ("Sauce, hot chile, sriracha" : str)))
         (Some ("hot-sauce" : str));
   mkNew "chicken" "Chicken"
         (strs ["chicken"; "cooked chicken"; "rotisserie chicken"])
         (mkFdc (Some 171077%Z) (Some ("sr_legacy" : str))
                (Some ("Chicken, broilers or fryers, meat only, cooked, roasted" : str)))
         (Some ("chicken" : str));
   mkNew "cooking-spray" "Cooking Spray"
         (strs ["cooking spray"; "nonstick cooking spray";
                "non-stick cooking spray"; "pam"])
         (mkFdc (Some 171025%Z) (Some ("sr_legacy" : str))
                (Some ("Oil, vegetable, soybean, refined" : str)))
         (Some ("cooking-spray" : str));
   mkNew "almond-extract" "Almond Extract"
         (strs ["almond extract"; "pure almond extract"])
         (mkFdc (Some 170684%Z) (Some ("sr_legacy" : str))
                (Some ("Vanilla extract" : str)))
         (Some ("almond-extract" : str));
   mkNew "celery-ribs" "Celery"
         (strs ["celery ribs"; "celery stalks"; "celery stalk"; "celery rib"])
         (mkFdc (Some 169988%Z) (Some ("sr_legacy" : str))
                (Some ("Celery, raw" : str)))
         (Some ("celery" : str));
   mkNew "green-chilies" "Green Chilies"
         (strs ["green chilies"; "green chiles"; "diced green chiles";
                "canned green chilies"])
         (mkFdc (Some 168569%Z) (Some ("sr_legacy" : str))
                (Some ("Peppers, hot chili, green, canned" : str)))
         (Some ("green-chilies" : str));
   mkNew "pecans" "Pecans"
         (strs ["pecans"; "pecan halves"; "chopped pecans"; "toasted pecans"])
         (mkFdc (Some 170182%Z) (Some ("sr_legacy" : str))
                (Some ("Nuts, pecans" : str)))
         (Some ("pecans" : str))].

(** SURFACE_FORM_PATCHES of patch-ontology-next100.py, as [.items()]
    lists it. *)
Definition next100_SURFACE_FORM_PATCHES : dict (list str) :=
  [("brown-sugar" : str,
    strs ["dark brown sugar"; "light brown sugar"; "packed brown sugar"]);
   ("apples" : str,
    strs ["apple"]);
   ("rice" : str,
    strs ["cooked rice"; "rice"]);
   ("allspice" : str,
    strs ["allspice"; "ground allspice"]);
   ("pineapple" : str,
    strs ["crushed pineapple"; "pineapple juice"; "pineapple chunks"]);
   ("russet-potatoes" : str,
    strs ["potato"; "potatoes"; "red potatoes"; "yukon gold potatoes"]);
   ("ginger" : str,
    strs ["gingerroot"; "ginger root"; "fresh ginger root"]);
   ("spinach" : str,
    strs ["fresh spinach"; "baby spinach"; "frozen chopped spinach"]);
   ("strawberries" : str,
    strs ["strawberries"; "fresh strawberries"]);
   ("dried-oregano" : str,
    strs ["dried parsley"; "dried rosemary"]);
   ("lemon" : str,
    strs ["lemons"; "lemon, zest of"; "lemon zest"]);
   ("almonds" : str,
    strs ["slivered almonds"; "sliced almonds"]);
   ("chicken-breasts" : str,
    strs ["boneless skinless chicken breast"]);
   ("chicken-broth" : str,
    strs ["low sodium chicken broth"; "low-sodium chicken broth"]);
   ("fresh-basil" : str,
    strs ["basil leaves"]);
   ("fresh-rosemary" : str,
    strs ["fresh oregano"]);
   ("eggs" : str,
    strs ["hard-boiled eggs"; "hard boiled eggs"]);
   ("parmesan-cheese" : str,
    strs ["parmesan"]);
   ("sour-cream" : str,
    strs ["sour cream"]);
   ("tomatoes" : str,
    strs ["plum tomatoes"; "roma tomatoes"]);
   ("celery-ribs" : str,
    strs ["celery stalks"; "celery stalk"]);
   ("carrots" : str,
    strs ["baby carrots"]);
   ("peach" : str,
    strs ["peaches"; "fresh peaches"]);
   ("leeks" : str,
    strs ["leeks"; "leek"]);
   ("breadcrumbs" : str,
    strs ["dry breadcrumbs"]);
   ("oats" : str,
    strs ["oatmeal"; "quick oats"; "old fashioned oats"]);
   ("mint" : str,
    strs ["of fresh mint"; "fresh mint"; "mint leaves"]);
   ("ground-cinnamon" : str,
    strs ["cinnamon"]);
   ("sweet-onion" : str,
    strs ["sweet onion"; "vidalia onion"]);
   ("almonds-whole-raw" : str,
    strs ["slivered almonds"; "sliced almonds"; "almonds"]);
   ("cucumber" : str,
    strs ["cucumbers"]);
   ("lime" : str,
    strs ["lime, juice of"]);
   ("jalapenos" : str,
    strs ["jalapeno peppers"; "jalapeno"]);
   ("peanut-butter" : str,
    strs ["creamy peanut butter"; "crunchy peanut butter";
          "smooth peanut butter"]);
   ("water" : str,
    strs ["ice cubes"]);
   ("soy-sauce" : str,
    strs ["low sodium soy sauce"; "low-sodium soy sauce"]);
   ("tomatoes-raw" : str,
    strs ["plum tomatoes"; "stewed tomatoes"])].

(** NEW_ENTRIES of patch-ontology-next100.py. *)
Definition next100_NEW_ENTRIES : list new_entry :=
  [mkNew "rice" "Rice"
         (strs ["rice"; "cooked rice"; "white rice"; "long grain rice"])
         (mkFdc (Some 169756%Z) (Some ("sr_legacy" : str))
                (Some ("Rice, white, medium-grain, cooked" : str)))
         (Some ("rice" : str));
   mkNew "allspice" "Allspice"
         (strs ["allspice"; "ground allspice"; "whole allspice"])
         (mkFdc (Some 170921%Z) (Some ("sr_legacy" : str))
                (Some ("Spices, allspice, ground" : str)))
         (Some ("allspice" : str));
   mkNew "cream-of-chicken-soup" "Cream of Chicken Soup"
         (strs ["cream of chicken soup"; "condensed cream of chicken soup";
                "cream of mushroom soup"; "condensed cream of mushroom soup"])
         (mkFdc (Some 170486%Z) (Some ("sr_legacy" : str))
                (Some ("Soup, cream of chicken, canned, condensed" : str)))
         (Some ("cream-soup" : str));
   mkNew "potato" "Potato"
         (strs ["potato"; "potatoes"; "red potatoes"; "yukon gold potatoes";
                "baking potatoes"; "russet potato"])
         (mkFdc (Some 170026%Z) (Some ("sr_legacy" : str))
                (Some ("Potatoes, flesh and skin, raw" : str)))
         (Some ("potato" : str));
   mkNew "beer" "Beer"
         (strs ["beer"; "lager"; "ale"; "stout"])
         (mkFdc (Some 174816%Z) (Some ("sr_legacy" : str))
                (Some ("Alcoholic beverage, beer, regular, all" : str)))
         (Some ("beer" : str));
   mkNew "dried-cranberries" "Dried Cranberries"
         (strs ["dried cranberries"; "craisins"])
         (mkFdc (Some 168826%Z) (Some ("sr_legacy" : str))
                (Some ("Cranberries, dried, sweetened" : str)))
         (Some ("cranberries" : str));
   mkNew "cool-whip" "Whipped Topping"
         (strs ["cool whip"; "whipped topping"; "frozen whipped topping"])
         (mkFdc (Some 170862%Z) (Some ("sr_legacy" : str))
                (Some ("Toppings, whipped, frozen, low fat" : str)))
         (Some ("whipped-topping" : str));
   mkNew "sweet-onion" "Sweet Onion"
         (strs ["sweet onion"; "vidalia onion"; "walla walla onion";
                "maui onion"])
         (mkFdc (Some 170000%Z) (Some ("sr_legacy" : str))
                (Some ("Onions, raw" : str)))
         (Some ("onion" : str));
   mkNew "caster-sugar" "Caster Sugar"
         (strs ["caster sugar"; "castor sugar"; "superfine sugar"])
         (mkFdc (Some 169655%Z) (Some ("sr_legacy" : str))
                (Some ("Sugars, granulated" : str)))
         (Some ("sugar" : str));
   mkNew "dry-sherry" "Dry Sherry"
         (strs ["dry sherry"; "sherry"; "cooking sherry"])
         (mkFdc (Some 174838%Z) (Some ("sr_legacy" : str))
                (Some ("Alcoholic beverage, wine, table, white" : str)))
         (Some ("sherry" : str));
   mkNew "vanilla-ice-cream" "Vanilla Ice Cream"
         (strs ["vanilla ice cream"; "ice cream"])
         (mkFdc (Some 167575%Z) (Some ("sr_legacy" : str))
                (Some ("Ice cream, vanilla" : str)))
         (Some ("ice-cream" : str));
   mkNew "clove" "Clove"
         (strs ["clove"; "cloves"; "whole cloves"])
         (mkFdc (Some 170922%Z) (Some ("sr_legacy" : str))
                (Some ("Spices, cloves, ground" : str)))
         (Some ("cloves" : str));
   mkNew "french-bread" "French Bread"
         (strs ["french bread"; "baguette"; "crusty bread"])
         (mkFdc (Some 174924%Z) (Some ("sr_legacy" : str))
                (Some ("Bread, french or vienna (includes sourdough)" : str)))
         (Some ("bread" : str));
   mkNew "pork-chops" "Pork Chops"
         (strs ["pork chops"; "pork loin chops"; "boneless pork chops";
                "bone-in pork chops"])
         (mkFdc (Some 167820%Z) (Some ("sr_legacy" : str))
                (Some ("Pork, fresh, loin, center loin (chops), bone-in, separable lean only, raw" : str)))
         (Some ("pork-chops" : str));
   mkNew "spaghetti-sauce" "Spaghetti Sauce"
         (strs ["spaghetti sauce"; "pasta sauce"; "jarred pasta sauce";
                "marinara"])
         (mkFdc (Some 170509%Z) (Some ("sr_legacy" : str))
                (Some ("Sauce, pasta, spaghetti/marinara, ready-to-serve" : str)))
         (Some ("pasta-sauce" : str));
   mkNew "splenda" "Splenda"
         (strs ["splenda sugar substitute"; "splenda"; "sucralose"])
         (mkFdc (Some 170257%Z) (Some ("sr_legacy" : str))
                (Some ("Sweeteners, tabletop, sucralose, SPLENDA packets" : str)))
         (Some ("sweetener" : str));
   mkNew "brandy" "Brandy"
         (strs ["brandy"; "cognac"])
         (mkFdc (Some 174815%Z) (Some ("sr_legacy" : str))
                (Some ("Alcoholic beverage, distilled, all (gin, rum, vodka, whiskey) 80 proof" : str)))
         (Some ("spirits" : str));
   mkNew "ground-red-pepper" "Ground Red Pepper"
         (strs ["ground red pepper"; "red pepper"; "crushed red pepper"])
         (mkFdc (Some 170932%Z) (Some ("sr_legacy" : str))
                (Some ("Spices, pepper, red or cayenne" : str)))
         (Some ("cayenne-pepper" : str));
   mkNew "apple" "Apple"
         (strs ["apple"; "apples"; "granny smith apple"; "green apple";
                "tart apple"])
         (mkFdc (Some 1750339%Z) (Some ("foundation" : str))
                (Some ("Apples, red delicious, with skin, raw" : str)))
         (Some ("apple" : str));
   mkNew "peach" "Peach"
         (strs ["peach"; "peaches"; "fresh peaches"])
         (mkFdc (Some 169928%Z) (Some ("sr_legacy" : str))
                (Some ("Peaches, raw" : str)))
         (Some ("peach" : str));
   mkNew "leeks" "Leeks"
         (strs ["leeks"; "leek"])
         (mkFdc (Some 169246%Z) (Some ("sr_legacy" : str))
                (Some ("Leeks, (bulb and lower leaf-portion), raw" : str)))
         (Some ("leeks" : str));
   mkNew "carrots" "Carrots"
         (strs ["carrots"; "carrot"; "baby carrots"; "shredded carrots"])
         (mkFdc (Some 170393%Z) (Some ("sr_legacy" : str))
                (Some ("Carrots, raw" : str)))
         (Some ("carrots" : str));
   mkNew "oats" "Oats"
         (strs ["oats"; "oatmeal"; "quick oats"; "rolled oats";
                "old fashioned oats"])
         (mkFdc (Some 173904%Z) (Some ("sr_legacy" : str))
                (Some ("Cereals, oats, regular and quick, not fortified, dry" : str)))
         (Some ("oats" : str));
   mkNew "mint" "Mint"
         (strs ["mint"; "fresh mint"; "mint leaves"; "of fresh mint";
                "spearmint"])
         (mkFdc (Some 170929%Z) (Some ("sr_legacy" : str))
                (Some ("Spices, spearmint, fresh" : str)))
         (Some ("mint" : str));
   mkNew "pineapple-juice" "Pineapple Juice"
         (strs ["pineapple juice"])
         (mkFdc (Some 168199%Z) (Some ("sr_legacy" : str))
                (Some ("Pineapple juice, canned or bottled, unsweetened, without added ascorbic acid" : str)))
         (Some ("pineapple" : str));
   mkNew "almond-extract" "Almond Extract"
         (strs ["almond extract"; "pure almond extract"])
         (mkFdc (Some 170684%Z) (Some ("sr_legacy" : str))
                (Some ("Vanilla extract" : str)))
         (Some ("almond-extract" : str));
   mkNew "strawberries" "Strawberries"
         (strs ["strawberries"; "fresh strawberries"; "frozen strawberries";
                "strawberry"])
         (mkFdc (Some 167762%Z) (Some ("sr_legacy" : str))
                (Some ("Strawberries, raw" : str)))
         (Some ("strawberries" : str));
   mkNew "graham-cracker-crumbs" "Graham Cracker Crumbs"
         (strs ["graham cracker crumbs"; "graham crackers";
                "graham cracker crust"])
         (mkFdc (Some 174938%Z) (Some ("sr_legacy" : str))
                (Some ("Crackers, graham, plain or honey (includes cinnamon)" : str)))
         (Some ("graham-crackers" : str));
   mkNew "yellow-cake-mix" "Yellow Cake Mix"
         (strs ["yellow cake mix"; "cake mix"; "white cake mix";
                "chocolate cake mix"])
         (mkFdc (Some 174905%Z) (Some ("sr_legacy" : str))
                (Some ("Cake mix, yellow, dry mix, regular" : str)))
         (Some ("cake-mix" : str));
   mkNew "frozen-corn" "Frozen Corn"
         (strs ["frozen corn"; "corn kernels"; "whole kernel corn"])
         (mkFdc (Some 168529%Z) (Some ("sr_legacy" : str))
                (Some ("Corn, sweet, yellow, frozen, kernels, unprepared" : str)))
         (Some ("corn" : str));
   mkNew "velveeta" "Velveeta"
         (strs ["velveeta cheese"; "velveeta"; "processed cheese";
                "american cheese"])
         (mkFdc (Some 170850%Z) (Some ("sr_legacy" : str))
                (Some ("Cheese, pasteurized process, American" : str)))
         (Some ("processed-cheese" : str));
   mkNew "semisweet-chocolate" "Semisweet Chocolate"
         (strs ["semisweet chocolate"; "semi-sweet chocolate";
                "bittersweet chocolate"; "dark chocolate"])
         (mkFdc (Some 170272%Z) (Some ("sr_legacy" : str))
                (Some ("Chocolate, dark, 45-59% cacao solids" : str)))
         (Some ("chocolate" : str))].

(** ** Readings of [main] used in the proofs *)

(** The forms the inner loop appends, as a recursion on the candidate
    forms; [seen] is the set [existing]. *)
Fixpoint forms_to_add (seen : list str) (forms : list str) : list str :=
  match forms with
  | [] => []
  | f :: rest =>
      if set_mem (lower f) seen then forms_to_add seen rest
      else f :: forms_to_add (set_add (lower f) seen) rest
  end.

(** The ontology after one pair of step 1, counter and printed lines
    left out. *)
Definition patch_pair_ontology (ontology : list entry)
    (pair : str * list str) : list entry :=
  match add_surface_forms (fst pair) (snd pair) ontology with
  | Some (ontology', _) => ontology'
  | None => ontology
  end.

(** The ontology after one descriptor of step 2. *)
Definition add_candidate_ontology (ontology : list entry)
    (raw : new_entry) : list entry :=
  match add_surface_forms (new_slug raw) (new_surfaceForms raw) ontology with
  | Some (ontology', _) => ontology'
  | None => ontology ++ [enrich_new_entry raw]
  end.

(** The ontology after both steps, before the sort. *)
Definition patched (P : dict (list str) * list new_entry) (O : list entry)
  : list entry :=
  fold_left add_candidate_ontology (snd P)
            (fold_left patch_pair_ontology (fst P) O).

(** [e'] is [e] with surface forms appended and nothing else changed. *)
Definition frozen (e e' : entry) : Prop :=
  slug e' = slug e /\
  displayName e' = displayName e /\
  fdc e' = fdc e /\
  equivalenceClass e' = equivalenceClass e /\
  tokens e' = tokens e /\
  modifiers e' = modifiers e /\
  aliases e' = aliases e /\
  taxonomy e' = taxonomy e /\
  substitutions e' = substitutions e /\
  exists added, surfaceForms e' = surfaceForms e ++ added.

(** [L'] is [L] with surface forms appended to some of its entries,
    followed by further entries. *)
Definition grows (L L' : list entry) : Prop :=
  exists L1 extra, L' = L1 ++ extra /\ Forall2 frozen L L1.

(** A one-entry ontology whose entry was enriched from the single surface
    form "rice". *)
Definition rice_entry : entry :=
  enrich_entry (mkRaw "rice" "Rice" (strs ["rice"]) (Some 169756%Z)).

(** The descriptor of "milk" in NEW_ENTRIES of patch-ontology-top200.py. *)
Definition milk_candidate : new_entry :=
  mkNew "milk" "Milk"
        (strs ["milk"; "whole milk"; "skim milk"; "2% milk"; "low-fat milk";
               "reduced fat milk"])
        (mkFdc (Some 171265%Z) (Some ("sr_legacy" : str))
               (Some ("Milk, whole, 3.25% milkfat, with added vitamin D" : str)))
        (Some ("milk" : str)).

(** The pair and the descriptor patch-ontology-top200.py has for "milk",
    with a pair for "rice". *)
Definition top200_milk_patch : dict (list str) * list new_entry :=
  ([("milk" : str, strs ["skim milk"; "whole milk"; "2% milk"; "low-fat milk"]);
    ("rice" : str, strs ["cooked rice"])],
   [milk_candidate]).

(** A patch whose pair for "milk" offers a form its descriptor for "milk"
    does not list. *)
Definition oat_milk_patch : dict (list str) * list new_entry :=
  ([("milk" : str, strs ["oat milk"])], [milk_candidate]).

(** A descriptor that lists one form in two casings. *)
Definition butter_candidate : new_entry :=
  mkNew "butter" "Butter" (strs ["Butter"; "butter"])
        (mkFdc (Some 173410%Z) (Some ("sr_legacy" : str))
               (Some ("Butter, salted" : str)))
        (Some ("butter" : str)).

(** The words of PREP_WORDS of the build script that the PREP_WORDS of
    the patch scripts lack. *)
Definition PREP_WORDS_missing : list str :=
  strs ["blanched"; "sauteed"; "julienned"; "cubed"; "mashed"; "pureed"].

(** No two surface forms are equal after lower-casing. *)
Definition forms_unique (sfs : list str) : Prop := NoDup (map lower sfs).

(** The entry the index holds for [s] lists every form of [fs], up to
    case. *)
Definition covered (L : list entry) (s : str) (fs : list str) : Prop :=
  exists e,
    index_get s L = Some e /\
    forall f, In f fs -> In (lower f) (map lower (surfaceForms e)).

(** Every indexed slug stays indexed and keeps its forms, up to case. *)
Definition extends (L L' : list entry) : Prop :=
  forall s e,
    index_get s L = Some e ->
    exists e',
      index_get s L' = Some e' /\
      incl (map lower (surfaceForms e)) (map lower (surfaceForms e')).

(** A pair of SURFACE_FORM_PATCHES whose slug the ontology lacks is
    harmless for a second run when no descriptor of NEW_ENTRIES creates
    that slug, or when each of its forms is, up to case, a form of a
    descriptor with that slug. *)
Definition pair_consistent (NEW_ENTRIES : list new_entry) (O : list entry)
    (pair : str * list str) : bool :=
  match index_get (fst pair) O with
  | Some _ => true
  | None =>
      forallb (fun raw => negb (str_eqb (new_slug raw) (fst pair))) NEW_ENTRIES
      || forallb
           (fun f =>
              existsb
                (fun raw =>
                   str_eqb (new_slug raw) (fst pair)
                   && set_mem (lower f) (map lower (new_surfaceForms raw)))
                NEW_ENTRIES)
           (snd pair)
  end.

Definition patch_consistent (P : dict (list str) * list new_entry)
    (O : list entry) : bool :=
  forallb (pair_consistent (snd P) O) (fst P).

(** ** Notions used in the further properties *)

(** No string is in both lists. *)
Definition disjoint (a b : list str) : Prop := forall t, In t a -> ~ In t b.

(** What [derive_modifiers] makes of a list of tokens: every category is
    a strictly ascending selection of the tokens, no token is in two
    categories, and [origin] is empty. *)
Definition modifiers_of (tokens : list str) (m : modifiers_t) : Prop :=
  StronglySorted str_lt (color m) /\ incl (color m) tokens /\
  StronglySorted str_lt (form m) /\ incl (form m) tokens /\
  StronglySorted str_lt (prep m) /\ incl (prep m) tokens /\
  StronglySorted str_lt (size m) /\ incl (size m) tokens /\
  disjoint (color m) (form m) /\ disjoint (color m) (prep m) /\
  disjoint (color m) (size m) /\ disjoint (form m) (prep m) /\
  disjoint (form m) (size m) /\ disjoint (prep m) (size m) /\
  origin m = [].

(** An entry as the build script writes it: its derived fields agree with
    its own slug and surface forms, and its stub fields are empty. *)
Definition freshly_enriched (e : entry) : Prop :=
  normalized_forms (surfaceForms e) /\
  tokens e = derive_tokens (surfaceForms e) /\
  modifiers e = derive_modifiers (tokens e) /\
  equivalenceClass e = slug_to_equivalence_class (slug e) /\
  (forall n, fdcId (fdc e) = Some n -> (0 < n)%Z) /\
  dataType (fdc e) = None /\ description (fdc e) = None /\
  aliases e = [] /\ taxonomy e = empty_taxonomy /\ substitutions e = [].

(** The record [load_s1] makes of one item of synonyms-1.json. *)
Definition s1_record (item : s1_item) : raw_entry :=
  mkRaw (slugify (normalized_name item))
        (get_or (canonical_name item) (normalized_name item))
        (dedup_ordered
           ([get_or (canonical_name item) (normalized_name item);
             normalized_name item] ++ get_or (synonyms item) []))
        (normalize_fdc_id (s1_fdc_id item)).

(** The record [load_s2] makes of one item of synonyms-2.json. *)
Definition s2_record (item : s2_item) : raw_entry :=
  mkRaw (s2_slug item) (display_name item)
        (dedup_ordered ([display_name item] ++ get_or (synonym_array item) []))
        (normalize_fdc_id (s2_fdc_id item)).

(** The entry indexed under [s] lists every form of [fs], up to case. *)
Definition already_has (O : list entry) (s : str) (fs : list str) : bool :=
  match index_get s O with
  | Some e => forallb (fun f => set_mem (lower f) (map lower (surfaceForms e))) fs
  | None => false
  end.

(** A patch that offers the ontology nothing it does not have: every pair
    names an unknown slug or forms its entry lists, and every candidate's
    slug is known with all the candidate's forms. *)
Definition nothing_new (P : dict (list str) * list new_entry)
    (O : list entry) : bool :=
  forallb
    (fun pair : str * list str =>
       match index_get (fst pair) O with
       | Some _ => already_has O (fst pair) (snd pair)
       | None => true
       end)
    (fst P)
  && forallb (fun raw => already_has O (new_slug raw) (new_surfaceForms raw))
             (snd P).

(** A patch over "rice" that only repeats, in other casings, what
    [rice_entry] has, with a pair for a slug that is not there. *)
Definition rice_repeat_patch : dict (list str) * list new_entry :=
  ([("rice" : str, strs ["RICE"; "Rice"]); ("milk" : str, strs ["oat milk"])],
   [mkNew "rice" "Rice" (strs ["rice"]) (mkFdc None None None) None]).

(** No string of the list occurs in it twice. *)
Fixpoint distinctb (l : list str) : bool :=
  match l with
  | [] => true
  | x :: r => negb (set_mem x r) && distinctb r
  end.

(** ** [main] of build-ingredient-ontology.py with the lines it prints *)

(** [a & b] on sets of strings. *)
Definition set_inter (a b : list str) : list str :=
  filter (fun x => set_mem x b) a.

(** The lines [main] of the build script prints; [Entries] is printed
    once for each source, [Have_fdc_id] carries the two numbers of its
    line. *)
Inductive build_event : Type :=
  | Loading_s1
  | Loading_s2
  | Entries (n : nat)
  | Merging
  | Unique_slugs (n : nat)
  | Overlapping_slugs (overlap : nat)
  | Enriching
  | Have_fdc_id (with_fdc total : nat)
  | Total_surface_forms (total_surface : nat)
  | Writing
  | Done.

(** [main]: from the two lists of records read to the ontology written
    and the lines printed; [None] is the [TypeError] of [merge_entries]. *)
Definition build_main_lines (raw1 : list s1_item) (raw2 : list s2_item)
  : option (list entry * list build_event) :=
  let s1 := load_s1 raw1 in
  let s2 := load_s2 raw2 in
  match merge_entries s1 s2 with
  | None => None
  | Some merged =>
      let overlap :=
        length (set_inter (set_of_list (dict_keys s1))
                          (set_of_list (dict_keys s2))) in
      let ontology := map enrich_entry merged in
      let with_fdc := count_with_fdc ontology in
      let total_surface := total_surface_forms ontology in
      Some (ontology,
            [Loading_s1; Entries (length s1);
             Loading_s2; Entries (length s2);
             Merging; Unique_slugs (length merged);
             Overlapping_slugs overlap;
             Enriching; Have_fdc_id with_fdc (length ontology);
             Total_surface_forms total_surface;
             Writing; Done])
  end.

(** Case analysis over the 256 code points. *)
Ltac all_chars c :=
  destruct c as [[] [] [] [] [] [] [] []]; vm_compute; try reflexivity;
  try discriminate; intuition (try discriminate; try reflexivity).

(* ================================================================== *)
(** * Part II: properties                                               *)
(* ================================================================== *)

(** ** Characters and string equality *)

Lemma is_space_lower_char : forall c, is_space (lower_char c) = is_space c.
Proof. intro c; all_chars c. Qed.

Lemma lower_char_slug_char : forall c, is_slug_char c = true -> lower_char c = c.
Proof. intro c; all_chars c. Qed.

Lemma is_space_slug_char : forall c, is_slug_char c = true -> is_space c = false.
Proof. intro c; all_chars c. Qed.

Lemma slug_source_slug_char :
  forall c, is_slug_char c = true -> is_slug_source_char c = true.
Proof. intro c; all_chars c. Qed.

Lemma slug_source_not_space :
  forall c, is_slug_source_char c = true -> is_space c = false ->
            is_slug_char c = true.
Proof. intro c; all_chars c. Qed.

Lemma is_hyphen_eq : forall c, is_hyphen c = true -> c = "-"%char.
Proof. intro c; all_chars c. Qed.

Lemma str_eqb_eq : forall a b : str, str_eqb a b = true <-> a = b.
Proof.
  induction a as [|x a IH]; intros [|y b]; simpl; split; try discriminate;
    try reflexivity.
  - rewrite andb_true_iff, Ascii.eqb_eq, IH; intros [-> ->]; reflexivity.
  - intro E; inversion E; subst.
    rewrite andb_true_iff, Ascii.eqb_eq, IH; auto.
Qed.

Lemma str_eqb_refl : forall a : str, str_eqb a a = true.
Proof. intro a; apply str_eqb_eq; reflexivity. Qed.

Lemma str_eqb_neq : forall a b : str, str_eqb a b = false <-> a <> b.
Proof.
  intros a b; rewrite <- str_eqb_eq; destruct (str_eqb a b); split;
    congruence.
Qed.

Lemma str_eqb_sym : forall a b : str, str_eqb a b = str_eqb b a.
Proof.
  intros a b; destruct (str_eqb b a) eqn:E.
  - apply str_eqb_eq in E; subst; apply str_eqb_refl.
  - apply str_eqb_neq; apply str_eqb_neq in E; congruence.
Qed.

Lemma set_mem_In : forall x s, set_mem x s = true <-> In x s.
Proof.
  intros x s; unfold set_mem; rewrite existsb_exists; split.
  - intros [y [Hy E]]; apply str_eqb_eq in E; subst; assumption.
  - intro H; exists x; split; [assumption | apply str_eqb_refl].
Qed.

Lemma set_mem_not_In : forall x s, set_mem x s = false <-> ~ In x s.
Proof.
  intros x s; rewrite <- set_mem_In; destruct (set_mem x s); split; congruence.
Qed.

(** ** Stripping and run replacement *)

Section Strip.
Variable p : ascii -> bool.

Lemma lstrip_by_suffix : forall s, exists pre, s = pre ++ lstrip_by p s.
Proof.
  induction s as [|c r [pre IH]]; simpl.
  - exists []; reflexivity.
  - destruct (p c).
    + exists (c :: pre); simpl; f_equal; exact IH.
    + exists []; reflexivity.
Qed.

Lemma lstrip_by_head :
  forall s c r, lstrip_by p s = c :: r -> p c = false.
Proof.
  induction s as [|a s IH]; simpl; intros c r H; [discriminate|].
  destruct (p a) eqn:E; [eauto | congruence].
Qed.

Lemma lstrip_by_id :
  forall s, match s with [] => True | c :: _ => p c = false end ->
            lstrip_by p s = s.
Proof. destruct s as [|c r]; simpl; intro H; [|rewrite H]; reflexivity. Qed.

Lemma rstrip_by_head :
  forall s c r, rstrip_by p s = c :: r -> exists r', s = c :: r'.
Proof.
  destruct s as [|a s]; simpl; intros c r H; [discriminate|].
  destruct (rstrip_by p s); [destruct (p a)|]; inversion H; eauto.
Qed.

Lemma rstrip_by_idem : forall s, rstrip_by p (rstrip_by p s) = rstrip_by p s.
Proof.
  induction s as [|c r IH]; simpl; [reflexivity|].
  destruct (rstrip_by p r) as [|b t] eqn:E.
  - destruct (p c) eqn:Ec; simpl; [|rewrite Ec]; reflexivity.
  - simpl. simpl in IH. rewrite IH. reflexivity.
Qed.

Lemma strip_by_idem : forall s, strip_by p (strip_by p s) = strip_by p s.
Proof.
  intro s; unfold strip_by.
  rewrite (lstrip_by_id (rstrip_by p (lstrip_by p s))).
  - apply rstrip_by_idem.
  - destruct (rstrip_by p (lstrip_by p s)) as [|c t] eqn:E; [exact I|].
    destruct (rstrip_by_head _ _ _ E) as [r' Hr'].
    eapply lstrip_by_head; exact Hr'.
Qed.

Lemma Forall_lstrip_by :
  forall (Q : ascii -> Prop) s, Forall Q s -> Forall Q (lstrip_by p s).
Proof.
  intros Q s H; induction H as [|c r Hc Hr IH]; simpl; [constructor|].
  destruct (p c); [exact IH | constructor; assumption].
Qed.

Lemma Forall_rstrip_by :
  forall (Q : ascii -> Prop) s, Forall Q s -> Forall Q (rstrip_by p s).
Proof.
  intros Q s H; induction H as [|c r Hc Hr IH]; simpl; [constructor|].
  destruct (rstrip_by p r); [destruct (p c)|]; auto.
Qed.

Lemma Forall_strip_by :
  forall (Q : ascii -> Prop) s, Forall Q s -> Forall Q (strip_by p s).
Proof.
  intros; unfold strip_by; apply Forall_rstrip_by, Forall_lstrip_by; assumption.
Qed.

Lemma rstrip_by_none :
  forall s, Forall (fun c => p c = false) s -> rstrip_by p s = s.
Proof.
  intros s H; induction H as [|c r Hc Hr IH]; simpl; [reflexivity|].
  rewrite IH, Hc; destruct r; reflexivity.
Qed.

Lemma strip_by_none :
  forall s, Forall (fun c => p c = false) s -> strip_by p s = s.
Proof.
  intros s H; unfold strip_by.
  rewrite lstrip_by_id; [apply rstrip_by_none; assumption|].
  destruct H; [exact I | assumption].
Qed.

Lemma no_run_lstrip_by : forall s, no_run p s -> no_run p (lstrip_by p s).
Proof.
  induction s as [|c r IH]; [trivial|].
  intros H; cbn [lstrip_by]; destruct (p c); [apply IH, H | exact H].
Qed.

Lemma no_run_rstrip_by : forall s, no_run p s -> no_run p (rstrip_by p s).
Proof.
  induction s as [|c r IH]; [trivial|].
  intros [H1 H2]; specialize (IH H2); simpl.
  destruct (rstrip_by p r) as [|b t] eqn:E.
  - destruct (p c); simpl; auto.
  - destruct (rstrip_by_head _ _ _ E) as [r' ->].
    split; assumption.
Qed.

Variable rep : ascii.

Lemma re_sub_runs_none :
  forall s, Forall (fun c => p c = false) s -> re_sub_runs p rep s = s.
Proof.
  intros s H; induction H as [|c r Hc Hr IH]; simpl; [reflexivity|].
  rewrite Hc, IH; reflexivity.
Qed.

Lemma Forall_re_sub_runs :
  forall (Q R : ascii -> Prop),
    (forall c, Q c -> p c = false -> R c) -> R rep ->
    forall s, Forall Q s -> Forall R (re_sub_runs p rep s).
Proof.
  intros Q R HQR Hrep s H; induction H as [|c r Hc Hr IH]; [constructor|].
  cbn [re_sub_runs].
  destruct (p c) eqn:Ec.
  - destruct r as [|c' r']; [repeat constructor; assumption|].
    destruct (p c'); [exact IH | constructor; assumption].
  - constructor; auto.
Qed.

Lemma re_sub_runs_head :
  forall c r, p c = false ->
              re_sub_runs p rep (c :: r) = c :: re_sub_runs p rep r.
Proof. intros c r H; cbn [re_sub_runs]; rewrite H; reflexivity. Qed.

Lemma no_run_re_sub_runs :
  p rep = true -> forall s, no_run p (re_sub_runs p rep s).
Proof.
  intros Hrep s; induction s as [|c r IH]; [exact I|].
  cbn [re_sub_runs].
  destruct (p c) eqn:Ec.
  - destruct r as [|c' r']; [simpl; auto|].
    destruct (p c') eqn:Ec'; [exact IH|].
    rewrite re_sub_runs_head in * by assumption.
    split; [|exact IH]. intros [_ H]; congruence.
  - split; [|exact IH].
    destruct (re_sub_runs p rep r); [exact I|]. intros [H _]; congruence.
Qed.

Lemma re_sub_runs_no_run :
  (forall c, p c = true -> c = rep) ->
  forall s, no_run p s -> re_sub_runs p rep s = s.
Proof.
  intros Hp s; induction s as [|c r IH]; [reflexivity|].
  intros [H1 H2]; cbn [re_sub_runs]; rewrite (IH H2).
  destruct (p c) eqn:Ec; [|reflexivity].
  rewrite (Hp c Ec) in *.
  destruct r as [|c' r']; [reflexivity|].
  destruct (p c') eqn:Ec'; [exfalso; apply H1; auto | reflexivity].
Qed.
End Strip.

(** ** [slugify] *)

Lemma lower_slug_chars :
  forall t, Forall (fun c => is_slug_char c = true) t -> lower t = t.
Proof.
  intros t H; induction H as [|c r Hc Hr IH]; simpl; [reflexivity|].
  rewrite (lower_char_slug_char c Hc); f_equal; exact IH.
Qed.

Lemma filter_all :
  forall (A : Type) (f : A -> bool) l,
    Forall (fun x => f x = true) l -> filter f l = l.
Proof.
  intros A f l H; induction H as [|x r Hx Hr IH]; simpl; [reflexivity|].
  rewrite Hx, IH; reflexivity.
Qed.

Lemma slugify_chars :
  forall s, Forall (fun c => is_slug_char c = true) (slugify s).
Proof.
  intro s; unfold slugify, strip_hyphens.
  apply Forall_strip_by.
  apply Forall_re_sub_runs with (Q := fun c => is_slug_char c = true);
    [auto | reflexivity |].
  apply Forall_re_sub_runs with (Q := fun c => is_slug_source_char c = true);
    [apply slug_source_not_space | reflexivity |].
  apply Forall_forall; intros c Hc.
  apply filter_In in Hc; tauto.
Qed.

Lemma slugify_no_run : forall s, no_run is_hyphen (slugify s).
Proof.
  intro s; unfold slugify, strip_hyphens, strip_by.
  apply no_run_rstrip_by, no_run_lstrip_by, no_run_re_sub_runs; reflexivity.
Qed.

Lemma slugify_stripped : forall s, strip_hyphens (slugify s) = slugify s.
Proof. intro s; unfold slugify, strip_hyphens; apply strip_by_idem. Qed.

(** A string of slug characters with no doubled hyphen and no hyphen at
    either end is left alone by every stage of [slugify]. *)
Lemma slugify_fixed :
  forall t,
    Forall (fun c => is_slug_char c = true) t ->
    no_run is_hyphen t ->
    strip_hyphens t = t ->
    slugify t = t.
Proof.
  intros t Hc Hn Hs; unfold slugify.
  assert (Hsp : Forall (fun c => is_space c = false) t).
  { eapply Forall_impl; [|exact Hc]; apply is_space_slug_char. }
  rewrite (lower_slug_chars t Hc).
  unfold strip; rewrite (strip_by_none _ t Hsp).
  unfold re_delete_except; rewrite filter_all.
  - rewrite (re_sub_runs_none _ _ t Hsp).
    rewrite (re_sub_runs_no_run _ _ is_hyphen_eq t Hn).
    exact Hs.
  - eapply Forall_impl; [|exact Hc]; apply slug_source_slug_char.
Qed.

(** C10.  [slugify] is idempotent: every output of [slugify] is a fixed
    point of [slugify], so slugifying a second time changes nothing. *)
Theorem slugify_idempotent : forall s : str, slugify (slugify s) = slugify s.
Proof.
  intro s; apply slugify_fixed.
  - apply slugify_chars.
  - apply slugify_no_run.
  - apply slugify_stripped.
Qed.

(** ** The order on strings and the stable sort *)

Lemma code_inj : forall x y, code x = code y -> x = y.
Proof.
  unfold code; intros x y H.
  rewrite <- (ascii_N_embedding x), <- (ascii_N_embedding y), H; reflexivity.
Qed.

Lemma str_leb_refl : forall a, str_leb a a = true.
Proof.
  induction a as [|x a IH]; simpl; [reflexivity|].
  rewrite N.ltb_irrefl, N.eqb_refl; exact IH.
Qed.

Lemma str_leb_total : forall a b, str_leb a b = false -> str_leb b a = true.
Proof.
  induction a as [|x a IH]; intros [|y b]; simpl; try discriminate; auto.
  destruct (N.ltb_spec (code x) (code y)); [discriminate|].
  destruct (N.eqb_spec (code x) (code y)) as [E|E].
  - rewrite E, N.ltb_irrefl, N.eqb_refl; apply IH.
  - intros _. destruct (N.ltb_spec (code y) (code x)); [reflexivity | lia].
Qed.

Lemma str_leb_antisym :
  forall a b, str_leb a b = true -> str_leb b a = true -> a = b.
Proof.
  induction a as [|x a IH]; intros [|y b]; simpl; try discriminate; auto.
  destruct (N.ltb_spec (code x) (code y)), (N.ltb_spec (code y) (code x));
    try lia.
  - destruct (N.eqb_spec (code y) (code x)); [lia | discriminate].
  - destruct (N.eqb_spec (code x) (code y)); [lia | discriminate].
  - destruct (N.eqb_spec (code x) (code y)) as [E|E]; [|discriminate].
    rewrite E, N.eqb_refl; intros H1 H2.
    f_equal; [apply code_inj; exact E | apply IH; assumption].
Qed.

Lemma str_leb_trans :
  forall a b c, str_leb a b = true -> str_leb b c = true -> str_leb a c = true.
Proof.
  induction a as [|x a IH]; intros [|y b] [|z c]; simpl; try discriminate; auto.
  destruct (N.ltb_spec (code x) (code y)), (N.ltb_spec (code y) (code z)),
    (N.ltb_spec (code x) (code z)); try reflexivity; try lia;
    destruct (N.eqb_spec (code x) (code y)), (N.eqb_spec (code y) (code z)),
      (N.eqb_spec (code x) (code z)); try discriminate; try lia.
  apply IH.
Qed.

Section SortBy.
Context {A : Type} (key : A -> str).

Lemma insert_by_perm :
  forall x l, Permutation (x :: l) (insert_by key x l).
Proof.
  intros x l; induction l as [|y r IH]; simpl; [reflexivity|].
  destruct (str_leb (key x) (key y)); [reflexivity|].
  rewrite perm_swap; apply perm_skip; exact IH.
Qed.

Lemma sort_by_perm : forall l, Permutation l (sort_by key l).
Proof.
  induction l as [|x l IH]; simpl; [reflexivity|].
  rewrite <- insert_by_perm; apply perm_skip; exact IH.
Qed.

Lemma sort_by_In : forall l x, In x (sort_by key l) <-> In x l.
Proof.
  intros l x; split; apply Permutation_in;
    [symmetry|]; apply sort_by_perm.
Qed.

Lemma insert_by_sorted :
  forall x l, Sorted (key_le key) l -> Sorted (key_le key) (insert_by key x l).
Proof.
  intros x l H; induction H as [|y r Hr IH Hy]; simpl.
  - repeat constructor.
  - destruct (str_leb (key x) (key y)) eqn:E.
    + repeat constructor; assumption.
    + constructor; [exact IH|].
      apply str_leb_total in E.
      destruct Hy as [|z r' Hz]; simpl.
      * repeat constructor; exact E.
      * destruct (str_leb (key x) (key z)); constructor; assumption.
Qed.

Lemma sort_by_sorted : forall l, Sorted (key_le key) (sort_by key l).
Proof.
  induction l as [|x l IH]; simpl; [constructor|].
  apply insert_by_sorted; exact IH.
Qed.

(** A sorted list is left as it is. *)
Lemma sort_by_id : forall l, Sorted (key_le key) l -> sort_by key l = l.
Proof.
  intros l H; induction H as [|y r Hr IH Hy]; simpl; [reflexivity|].
  rewrite IH; destruct Hy as [|z r' Hz]; simpl; [reflexivity|].
  unfold key_le in Hz; rewrite Hz; reflexivity.
Qed.

(** Stability: the elements of any one key keep their order. *)
Lemma filter_insert_by :
  forall k x l,
    filter (fun e => str_eqb (key e) k) (insert_by key x l)
    = filter (fun e => str_eqb (key e) k) (x :: l).
Proof.
  intros k x l; induction l as [|y r IH]; [reflexivity|].
  cbn [insert_by].
  destruct (str_leb (key x) (key y)) eqn:E; [reflexivity|].
  cbn [filter] in *; rewrite IH.
  destruct (str_eqb (key x) k) eqn:Ex, (str_eqb (key y) k) eqn:Ey;
    try reflexivity.
  apply str_eqb_eq in Ex, Ey; rewrite Ex, Ey, str_leb_refl in E.
  discriminate.
Qed.

Lemma filter_sort_by :
  forall k l,
    filter (fun e => str_eqb (key e) k) (sort_by key l)
    = filter (fun e => str_eqb (key e) k) l.
Proof.
  intros k l; induction l as [|x l IH]; [reflexivity|].
  cbn [sort_by fold_right]; fold (sort_by key l).
  rewrite filter_insert_by; cbn [filter]; rewrite IH; reflexivity.
Qed.
End SortBy.

Lemma sort_by_idem :
  forall (A : Type) (key : A -> str) l,
    sort_by key (sort_by key l) = sort_by key l.
Proof. intros; apply sort_by_id, sort_by_sorted. Qed.

(** ** Sets of strings *)

Lemma set_add_In : forall x y s, In y (set_add x s) <-> y = x \/ In y s.
Proof.
  intros x y s; unfold set_add.
  destruct (set_mem x s) eqn:E.
  - apply set_mem_In in E; split; [auto | intros [->|H]; assumption].
  - rewrite in_app_iff; simpl; split; intros [H|H]; auto.
    destruct H as [H|[]]; auto.
Qed.

Lemma set_add_NoDup : forall x s, NoDup s -> NoDup (set_add x s).
Proof.
  intros x s H; unfold set_add.
  destruct (set_mem x s) eqn:E; [assumption|].
  apply set_mem_not_In in E.
  apply NoDup_rev in H. rewrite <- (rev_involutive (s ++ [x])).
  apply NoDup_rev. rewrite rev_app_distr; simpl.
  constructor; [rewrite <- in_rev; exact E | exact H].
Qed.

Lemma set_of_list_from_In :
  forall l s x,
    In x (fold_left (fun s x => set_add x s) l s) <-> In x s \/ In x l.
Proof.
  induction l as [|y l IH]; intros s x; simpl; [tauto|].
  rewrite IH, set_add_In; intuition (subst; auto).
Qed.

Lemma set_of_list_In : forall l x, In x (set_of_list l) <-> In x l.
Proof.
  intros l x; unfold set_of_list; rewrite set_of_list_from_In; simpl; tauto.
Qed.

Lemma set_of_list_from_NoDup :
  forall l s, NoDup s -> NoDup (fold_left (fun s x => set_add x s) l s).
Proof.
  induction l as [|y l IH]; intros s H; simpl; [assumption|].
  apply IH, set_add_NoDup, H.
Qed.

Lemma set_of_list_NoDup : forall l, NoDup (set_of_list l).
Proof. intro l; apply set_of_list_from_NoDup; constructor. Qed.

Lemma sorted_In : forall l x, In x (sorted l) <-> In x l.
Proof. intros; apply sort_by_In. Qed.

Lemma sorted_NoDup : forall l, NoDup l -> NoDup (sorted l).
Proof.
  intros l H; eapply Permutation_NoDup; [apply sort_by_perm | exact H].
Qed.

(** ** Tokens *)

Lemma Sorted_NoDup_strict :
  forall l, Sorted (fun a b => str_leb a b = true) l -> NoDup l ->
            StronglySorted str_lt l.
Proof.
  intros l Hs Hn.
  apply Sorted_StronglySorted in Hs;
    [|intros a b c; apply str_leb_trans].
  induction Hs as [|x r Hr IH Hx]; [constructor|].
  inversion Hn as [|? ? Hnx Hnr]; subst.
  constructor; [apply IH; assumption|].
  rewrite Forall_forall in *; intros y Hy; split; [auto|].
  intros ->; contradiction.
Qed.

Lemma sorted_strict : forall l, NoDup l -> StronglySorted str_lt (sorted l).
Proof.
  intros l H; apply Sorted_NoDup_strict; [|apply sorted_NoDup, H].
  apply (sort_by_sorted (fun x : str => x)).
Qed.

Section TokenLoop.
Let add_word (token_set : list str) (t : str) : list str :=
  let cleaned := re_delete_except is_lower_alnum t in
  if truthy_str cleaned && (2 <=? length cleaned)%nat
  then set_add cleaned token_set
  else token_set.

Let add_form (token_set : list str) (form : str) : list str :=
  fold_left add_word (split (lower form)) token_set.

Lemma add_word_In :
  forall acc w x,
    In x (add_word acc w) <->
    In x acc \/ (x = re_delete_except is_lower_alnum w /\ 2 <= length x).
Proof.
  intros acc w x; unfold add_word; cbv zeta.
  destruct (Nat.leb_spec 2 (length (re_delete_except is_lower_alnum w)))
    as [L|L].
  - assert (T : truthy_str (re_delete_except is_lower_alnum w) = true).
    { destruct (re_delete_except is_lower_alnum w); [simpl in L; lia | reflexivity]. }
    rewrite T; simpl; rewrite set_add_In.
    split; [intros [->|H]; auto | intros [H|[-> _]]; auto].
  - rewrite andb_false_r.
    split; [auto | intros [H|[-> H]]; [assumption | lia]].
Qed.

Lemma add_word_NoDup : forall acc w, NoDup acc -> NoDup (add_word acc w).
Proof.
  intros acc w H; unfold add_word; cbv zeta.
  destruct (_ && _); [apply set_add_NoDup|]; assumption.
Qed.

Lemma add_words_In :
  forall ws acc x,
    In x (fold_left add_word ws acc) <->
    In x acc \/
    exists w, In w ws /\ x = re_delete_except is_lower_alnum w /\ 2 <= length x.
Proof.
  induction ws as [|w ws IH]; intros acc x; simpl.
  - split; [auto | intros [H|[w [[] _]]]; assumption].
  - rewrite IH, add_word_In; split.
    + intros [[H|H]|[w' [H1 H2]]]; eauto 6.
    + intros [H|[w' [[->|H1] H2]]]; eauto 6.
Qed.

Lemma add_words_NoDup :
  forall ws acc, NoDup acc -> NoDup (fold_left add_word ws acc).
Proof.
  induction ws as [|w ws IH]; intros acc H; simpl; [assumption|].
  apply IH, add_word_NoDup, H.
Qed.

Lemma add_forms_In :
  forall fs acc x,
    In x (fold_left add_form fs acc) <-> In x acc \/ token_of fs x.
Proof.
  induction fs as [|f fs IH]; intros acc x; simpl.
  - split; [auto | intros [H|[sf [w [[] _]]]]; assumption].
  - rewrite IH; unfold add_form; rewrite add_words_In.
    unfold token_of; split.
    + intros [[H|[w [H1 H2]]]|[sf [w [H1 H2]]]]; [auto | |].
      * right; exists f, w; simpl; tauto.
      * right; exists sf, w; simpl; tauto.
    + intros [H|[sf [w [[->|H1] H2]]]]; [auto | |].
      * left; right; exists w; tauto.
      * right; exists sf, w; tauto.
Qed.

Lemma add_forms_NoDup :
  forall fs acc, NoDup acc -> NoDup (fold_left add_form fs acc).
Proof.
  induction fs as [|f fs IH]; intros acc H; simpl; [assumption|].
  apply IH; unfold add_form; apply add_words_NoDup, H.
Qed.

Lemma derive_tokens_eq :
  forall fs, derive_tokens fs = sorted (fold_left add_form fs []).
Proof. reflexivity. Qed.
End TokenLoop.

(** A strictly ascending list is determined by its members. *)
Lemma strictly_sorted_unique :
  forall l1 l2,
    StronglySorted str_lt l1 -> StronglySorted str_lt l2 ->
    (forall x, In x l1 <-> In x l2) -> l1 = l2.
Proof.
  intros l1 l2 H1; revert l2.
  induction H1 as [|a t1 Ht1 IH Ha]; intros l2 H2 M.
  - destruct l2 as [|b t2]; [reflexivity|].
    exfalso; apply (proj2 (M b)); left; reflexivity.
  - destruct H2 as [|b t2 Ht2 Hb].
    + exfalso; apply (proj1 (M a)); left; reflexivity.
    + rewrite Forall_forall in Ha, Hb.
      assert (E : a = b).
      { destruct (proj1 (M a) (or_introl eq_refl)) as [E|Ia]; [auto|].
        destruct (proj2 (M b) (or_introl eq_refl)) as [E|Ib]; [auto|].
        destruct (Hb a Ia) as [L1 _]; destruct (Ha b Ib) as [L2 _].
        symmetry; apply str_leb_antisym; assumption. }
      subst b; f_equal; apply IH; [exact Ht2|].
      intro x; split; intro Hx.
      * destruct (proj1 (M x) (or_intror Hx)) as [E|I]; [|exact I].
        destruct (Ha x Hx) as [_ N]; congruence.
      * destruct (proj2 (M x) (or_intror Hx)) as [E|I]; [|exact I].
        destruct (Hb x Hx) as [_ N]; congruence.
Qed.

(** [sorted(set)] does not depend on the order in which the set hands
    out its elements. *)
Lemma sorted_set_canonical :
  forall l l',
    NoDup l -> NoDup l' -> (forall x, In x l <-> In x l') ->
    sorted l = sorted l'.
Proof.
  intros l l' N N' M; apply strictly_sorted_unique;
    [apply sorted_strict, N | apply sorted_strict, N'|].
  intro x; rewrite !sorted_In; apply M.
Qed.

Lemma derive_tokens_spec :
  forall fs,
    StronglySorted str_lt (derive_tokens fs) /\
    forall t, In t (derive_tokens fs) <-> token_of fs t.
Proof.
  intro fs; rewrite derive_tokens_eq; split.
  - apply sorted_strict, add_forms_NoDup; constructor.
  - intro t; rewrite sorted_In, add_forms_In; simpl; tauto.
Qed.

Lemma derive_tokens_unique :
  forall fs l,
    StronglySorted str_lt l -> (forall t, In t l <-> token_of fs t) ->
    l = derive_tokens fs.
Proof.
  intros fs l Hl Hm; destruct (derive_tokens_spec fs) as [S M].
  apply strictly_sorted_unique; [exact Hl | exact S|].
  intro x; rewrite Hm, M; reflexivity.
Qed.

(** C7.  The tokens of an entry the Enricher produces are strictly
    ascending (sorted, without duplicates), and a string is among them
    exactly when it is a whitespace-separated word of a lower-cased
    surface form of the entry with the characters outside [a-z0-9]
    removed and at least 2 characters left; they are the only list of
    which both hold.  The same holds of the copy of the Enricher in the
    patch scripts. *)
Theorem enricher_tokens :
  (forall raw : raw_entry,
      StronglySorted str_lt (tokens (enrich_entry raw)) /\
      (forall t, In t (tokens (enrich_entry raw))
                 <-> token_of (surfaceForms (enrich_entry raw)) t) /\
      (forall l, StronglySorted str_lt l ->
                 (forall t, In t l <-> token_of (surfaceForms (enrich_entry raw)) t) ->
                 l = tokens (enrich_entry raw)))
  /\
  (forall raw : new_entry,
      StronglySorted str_lt (tokens (enrich_new_entry raw)) /\
      (forall t, In t (tokens (enrich_new_entry raw))
                 <-> token_of (surfaceForms (enrich_new_entry raw)) t) /\
      (forall l, StronglySorted str_lt l ->
                 (forall t, In t l
                            <-> token_of (surfaceForms (enrich_new_entry raw)) t) ->
                 l = tokens (enrich_new_entry raw))).
Proof.
  split; intro raw; (split; [|split]).
  - apply (derive_tokens_spec (raw_surfaceForms raw)).
  - apply (derive_tokens_spec (raw_surfaceForms raw)).
  - apply (derive_tokens_unique (raw_surfaceForms raw)).
  - apply (derive_tokens_spec (new_surfaceForms raw)).
  - apply (derive_tokens_spec (new_surfaceForms raw)).
  - apply (derive_tokens_unique (new_surfaceForms raw)).
Qed.

(** ** Equivalence classes *)

Lemma endswith_app : forall w suf, endswith (w ++ suf) suf = true.
Proof.
  intros w suf; unfold endswith.
  rewrite length_app, Nat.add_sub, skipn_app, Nat.sub_diag, skipn_all; simpl.
  apply str_eqb_refl.
Qed.

Lemma endswith_inv :
  forall s suf, endswith s suf = true ->
                s = firstn (length s - length suf) s ++ suf.
Proof.
  intros s suf H; unfold endswith in H; apply str_eqb_eq in H.
  rewrite <- (firstn_skipn (length s - length suf) s) at 1.
  f_equal; exact H.
Qed.

Lemma strip_suffix_app : forall w suf, strip_suffix (w ++ suf) suf = w.
Proof.
  intros w suf; unfold strip_suffix; rewrite endswith_app.
  rewrite length_app, Nat.add_sub, firstn_app, Nat.sub_diag, firstn_all; simpl.
  apply app_nil_r.
Qed.

Lemma strip_suffix_no_match :
  forall s suf, endswith s suf = false -> strip_suffix s suf = s.
Proof. intros s suf H; unfold strip_suffix; rewrite H; reflexivity. Qed.

Lemma fold_strip_no_match :
  forall l s, Forall (fun p => endswith s p = false) l ->
              fold_left strip_suffix l s = s.
Proof.
  intros l s H; induction H as [|p l Hp Hl IH]; simpl; [reflexivity|].
  rewrite strip_suffix_no_match by assumption; exact IH.
Qed.

(** The pass up to and including the first match. *)
Lemma fold_strip_first_match :
  forall l slug,
    fold_left strip_suffix l slug
    = match first_match slug l with
      | None => slug
      | Some (suf, later) =>
          fold_left strip_suffix later (firstn (length slug - length suf) slug)
      end.
Proof.
  induction l as [|p l IH]; intro slug; simpl; [reflexivity|].
  unfold strip_suffix at 2.
  destruct (endswith slug p); [reflexivity | apply IH].
Qed.

Lemma suffixes_shape : Forall suffix_shape suffixes.
Proof.
  unfold suffixes, strs; simpl.
  repeat (constructor;
          [eexists; split; [reflexivity | repeat constructor]|]).
  constructor.
Qed.

Lemma suffixes_NoDup : NoDup suffixes.
Proof.
  unfold suffixes, strs; simpl.
  repeat (constructor; [simpl; intuition discriminate|]).
  constructor.
Qed.

Lemma last_hyphen_unique :
  forall x w a b : str,
    x ++ "-"%char :: a = w ++ "-"%char :: b ->
    Forall (fun c => is_hyphen c = false) a ->
    Forall (fun c => is_hyphen c = false) b ->
    x = w /\ a = b.
Proof.
  induction x as [|c x IH]; intros [|d w] a b E Ha Hb; simpl in E.
  - inversion E; auto.
  - inversion E; subst.
    apply Forall_elt in Ha; discriminate.
  - inversion E; subst.
    apply Forall_elt in Hb; discriminate.
  - inversion E; subst.
    destruct (IH w a b) as [-> ->]; auto.
Qed.

Lemma endswith_only_own :
  forall x suf p,
    suffix_shape suf -> suffix_shape p ->
    endswith (x ++ suf) p = true -> p = suf.
Proof.
  intros x suf p [a [-> Ha]] [b [-> Hb]] H.
  apply endswith_inv in H.
  destruct (last_hyphen_unique _ _ _ _ H Ha Hb) as [_ ->]; reflexivity.
Qed.

Lemma no_other_match :
  forall l x suf,
    Forall suffix_shape l -> suffix_shape suf -> ~ In suf l ->
    Forall (fun p => endswith (x ++ suf) p = false) l.
Proof.
  intros l x suf Hl Hs Hn.
  rewrite Forall_forall in *; intros p Hp.
  destruct (endswith (x ++ suf) p) eqn:E; [|reflexivity].
  apply endswith_only_own in E; auto; subst; contradiction.
Qed.

Lemma stacked_later_suffix_stripped :
  forall base a b pre mid post,
    suffixes = pre ++ a :: mid ++ b :: post ->
    slug_to_equivalence_class (base ++ b ++ a) = fold_left strip_suffix post base.
Proof.
  intros base a b pre mid post H.
  pose proof suffixes_shape as Hs; pose proof suffixes_NoDup as Hn.
  unfold slug_to_equivalence_class; rewrite H in *.
  apply Forall_app in Hs; destruct Hs as [Hpre Hs].
  inversion Hs as [|? ? Ha Hs']; subst.
  apply Forall_app in Hs'; destruct Hs' as [Hmid Hs'].
  inversion Hs' as [|? ? Hb Hpost]; subst.
  assert (Na : ~ In a pre).
  { apply NoDup_remove_2 in Hn; intro; apply Hn, in_or_app; auto. }
  assert (Nb : ~ In b mid).
  { apply NoDup_app_remove_l in Hn; inversion Hn as [|? ? _ Hn']; subst.
    apply NoDup_remove_2 in Hn'; intro; apply Hn', in_or_app; auto. }
  rewrite fold_left_app, app_assoc.
  rewrite (fold_strip_no_match pre) by (apply no_other_match; assumption).
  cbn [fold_left]; rewrite strip_suffix_app, fold_left_app.
  rewrite (fold_strip_no_match mid) by (apply no_other_match; assumption).
  cbn [fold_left]; rewrite strip_suffix_app; reflexivity.
Qed.

Lemma stacked_earlier_suffix_kept :
  forall base a b pre mid post,
    suffixes = pre ++ b :: mid ++ a :: post ->
    slug_to_equivalence_class (base ++ b ++ a) = base ++ b.
Proof.
  intros base a b pre mid post H.
  pose proof suffixes_shape as Hs; pose proof suffixes_NoDup as Hn.
  unfold slug_to_equivalence_class; rewrite H in *.
  change (pre ++ b :: mid ++ a :: post)
    with (pre ++ (b :: mid) ++ a :: post) in *.
  rewrite app_assoc in *.
  apply Forall_app in Hs; destruct Hs as [Hfront Hs].
  inversion Hs as [|? ? Ha Hpost]; subst.
  assert (Hb : suffix_shape b).
  { rewrite Forall_forall in Hfront; apply Hfront, in_or_app; simpl; auto. }
  assert (Na : ~ In a (pre ++ b :: mid)).
  { apply NoDup_remove_2 in Hn; intro; apply Hn, in_or_app; auto. }
  assert (Nb : ~ In b post).
  { rewrite <- app_assoc in Hn; apply NoDup_remove_2 in Hn.
    intro; apply Hn, in_or_app; right; apply in_or_app; simpl; auto. }
  rewrite fold_left_app, (app_assoc base b a).
  rewrite (fold_strip_no_match (pre ++ b :: mid))
    by (apply no_other_match; assumption).
  cbn [fold_left]; rewrite strip_suffix_app.
  apply fold_strip_no_match, no_other_match; assumption.
Qed.

(** C3, as amended.  The derivation is one pass over the suffix list
    with no early exit: a slug that ends with no listed suffix is returned
    as it is; otherwise the first listed suffix it ends with is removed and
    the pass goes on, over the suffixes listed after it, on what is left.
    So of two stacked suffixes both are removed when the outer one stands
    earlier in the list than the inner one, and only the outer one when it
    stands later. *)
Theorem equivalence_class_one_pass :
  (forall slug,
      slug_to_equivalence_class slug
      = match first_match slug suffixes with
        | None => slug
        | Some (suf, later) =>
            fold_left strip_suffix later
                      (firstn (length slug - length suf) slug)
        end)
  /\
  (forall base a b pre mid post,
      suffixes = pre ++ a :: mid ++ b :: post ->
      slug_to_equivalence_class (base ++ b ++ a)
      = fold_left strip_suffix post base)
  /\
  (forall base a b pre mid post,
      suffixes = pre ++ b :: mid ++ a :: post ->
      slug_to_equivalence_class (base ++ b ++ a) = base ++ b).
Proof.
  split; [|split].
  - intro slug; apply fold_strip_first_match.
  - apply stacked_later_suffix_stripped.
  - apply stacked_earlier_suffix_kept.
Qed.

(** C3 at a concrete slug: "-raw" is listed before "-cooked", so both are
    removed from "tomato-cooked-raw". *)
Lemma equivalence_class_one_pass_witness :
  slug_to_equivalence_class ("tomato" ++ "-cooked" ++ "-raw") = "tomato".
Proof.
  exact (proj1 (proj2 equivalence_class_one_pass)
           "tomato" "-raw" "-cooked" [] [] (skipn 2 suffixes) eq_refl).
Defined.

(** C3 as the specification states it fails: removing only the first
    matching suffix from "tomato-cooked-raw" would leave "tomato-cooked",
    and the derivation returns "tomato". *)
Lemma two_suffixes_stripped :
  slug_to_equivalence_class "tomato-cooked-raw" = "tomato" /\
  strip_first_match "tomato-cooked-raw" = "tomato-cooked" /\
  slug_to_equivalence_class "tomato-cooked-raw"
  <> strip_first_match "tomato-cooked-raw".
Proof.
  split; [vm_compute; reflexivity | split; [vm_compute; reflexivity |]].
  vm_compute; discriminate.
Qed.

(** ** [dedup_ordered] *)

Lemma lstrip_lower : forall s, lstrip_by is_space (lower s) = lower (lstrip_by is_space s).
Proof.
  induction s as [|c r IH]; simpl; [reflexivity|].
  rewrite is_space_lower_char; destruct (is_space c); [exact IH | reflexivity].
Qed.

Lemma rstrip_lower : forall s, rstrip_by is_space (lower s) = lower (rstrip_by is_space s).
Proof.
  induction s as [|c r IH]; simpl; [reflexivity|].
  change (map lower_char r) with (lower r); rewrite IH, is_space_lower_char.
  destruct (rstrip_by is_space r); simpl; [destruct (is_space c)|]; reflexivity.
Qed.

Lemma strip_lower : forall s, strip (lower s) = lower (strip s).
Proof.
  intro s; unfold strip, strip_by; rewrite lstrip_lower, rstrip_lower; reflexivity.
Qed.

Lemma strip_idem : forall s, strip (strip s) = strip s.
Proof. intro s; apply strip_by_idem. Qed.

Lemma truthy_lower : forall s, truthy_str (lower s) = truthy_str s.
Proof. destruct s; reflexivity. Qed.

Lemma truthy_nonempty : forall s, truthy_str s = true <-> s <> [].
Proof. destruct s; simpl; split; congruence. Qed.

Lemma set_mem_ext :
  forall s s' y, (forall x, In x s <-> In x s') -> set_mem y s = set_mem y s'.
Proof.
  intros s s' y H.
  destruct (set_mem y s') eqn:E.
  - apply set_mem_In; apply set_mem_In in E; apply H; exact E.
  - apply set_mem_not_In; apply set_mem_not_In in E; rewrite H; exact E.
Qed.

Lemma set_mem_add_other :
  forall y k s, y <> k -> set_mem y (set_add k s) = set_mem y s.
Proof.
  intros y k s H.
  destruct (set_mem y s) eqn:E.
  - apply set_mem_In; apply set_mem_In in E; apply set_add_In; auto.
  - apply set_mem_not_In; apply set_mem_not_In in E.
    rewrite set_add_In; intros [F|F]; auto.
Qed.

Lemma dedup_fold :
  forall items seen result,
    snd (fold_left
           (fun (st : list str * list str) item =>
              let '(seen, result) := st in
              let key := strip (lower item) in
              if truthy_str key && negb (set_mem key seen)
              then (set_add key seen, result ++ [strip item])
              else st)
           items (seen, result))
    = result ++ dedup_from seen items.
Proof.
  induction items as [|item rest IH]; intros seen result; simpl.
  - symmetry; apply app_nil_r.
  - destruct (truthy_str (strip (lower item)) && negb (set_mem (strip (lower item)) seen)).
    + rewrite IH, <- app_assoc; reflexivity.
    + apply IH.
Qed.

Lemma dedup_ordered_eq : forall items, dedup_ordered items = dedup_from [] items.
Proof. intro items; unfold dedup_ordered; rewrite dedup_fold; reflexivity. Qed.

Lemma dedup_from_spec :
  forall items seen,
    Forall (fun d => strip d = d /\ d <> []) (dedup_from seen items) /\
    NoDup (map lower (dedup_from seen items)) /\
    (forall d, In d (dedup_from seen items) -> ~ In (lower d) seen) /\
    (forall d, In d (dedup_from seen items) ->
               exists item, In item items /\ d = strip item).
Proof.
  induction items as [|item rest IH]; intro seen; simpl.
  - repeat split; [constructor | constructor | intros d [] | intros d []].
  - destruct (truthy_str (strip (lower item))) eqn:T; simpl.
    + destruct (set_mem (strip (lower item)) seen) eqn:M; simpl.
      * destruct (IH seen) as (F & N & S & O).
        repeat split; auto.
        intros d Hd; destruct (O d Hd) as [i [Hi ->]]; eauto.
      * destruct (IH (set_add (strip (lower item)) seen)) as (F & N & S & O).
        apply set_mem_not_In in M.
        rewrite strip_lower in *.
        repeat split.
        -- constructor; [split; [apply strip_idem|] | exact F].
           rewrite truthy_lower in T; apply truthy_nonempty; exact T.
        -- constructor; [|exact N].
           intro Hin; apply in_map_iff in Hin; destruct Hin as [d [E Hd]].
           apply (S d Hd); apply set_add_In; left; exact E.
        -- intros d [<-|Hd]; [exact M|].
           intro Hin; apply (S d Hd); apply set_add_In; right; exact Hin.
        -- intros d [<-|Hd]; [eauto|].
           destruct (O d Hd) as [i [Hi ->]]; eauto.
    + destruct (IH seen) as (F & N & S & O).
      repeat split; auto.
      intros d Hd; destruct (O d Hd) as [i [Hi ->]]; eauto.
Qed.

Lemma dedup_ordered_normalized :
  forall items, normalized_forms (dedup_ordered items).
Proof.
  intro items; rewrite dedup_ordered_eq.
  destruct (dedup_from_spec items []) as (F & N & _); split; assumption.
Qed.

Lemma seen_after_In :
  forall l seen x,
    In x (fold_left (fun s d => set_add (lower d) s) l seen)
    <-> In x seen \/ In x (map lower l).
Proof.
  induction l as [|d l IH]; intros seen x; simpl; [tauto|].
  rewrite IH, set_add_In; intuition (subst; auto).
Qed.

Lemma normalized_key :
  forall d, strip d = d -> d <> [] ->
            strip (lower d) = lower d /\ truthy_str (lower d) = true.
Proof.
  intros d Hs Hd; rewrite strip_lower, Hs, truthy_lower; split; [reflexivity|].
  apply truthy_nonempty; exact Hd.
Qed.

(** Normalized forms none of which has been met pass through unchanged. *)
Lemma dedup_from_app_normalized :
  forall l seen r,
    normalized_forms l ->
    (forall d, In d l -> ~ In (lower d) seen) ->
    dedup_from seen (l ++ r)
    = l ++ dedup_from (fold_left (fun s d => set_add (lower d) s) l seen) r.
Proof.
  induction l as [|d l IH]; intros seen r [F N] S; [reflexivity|].
  inversion F as [|? ? [Hs Hd] F']; inversion N as [|? ? Nd N']; subst.
  destruct (normalized_key d Hs Hd) as [K T].
  cbn [app dedup_from fold_left]; cbv zeta; rewrite K, T, Hs.
  assert (M : set_mem (lower d) seen = false).
  { apply set_mem_not_In, S; left; reflexivity. }
  rewrite M; cbn [negb andb]; f_equal.
  apply IH; [split; assumption|].
  intros d' Hd' Hin; apply set_add_In in Hin; destruct Hin as [E|Hin].
  - apply Nd; rewrite <- E; apply in_map; exact Hd'.
  - apply (S d'); [right; exact Hd' | exact Hin].
Qed.

(** On normalized forms the loop only drops what has been met before. *)
Lemma dedup_from_filter :
  forall l seen,
    normalized_forms l ->
    dedup_from seen l = filter (fun f => negb (set_mem (lower f) seen)) l.
Proof.
  induction l as [|d l IH]; intros seen [F N]; [reflexivity|].
  inversion F as [|? ? [Hs Hd] F']; inversion N as [|? ? Nd N']; subst.
  destruct (normalized_key d Hs Hd) as [K T].
  cbn [dedup_from filter]; cbv zeta; rewrite K, T, Hs; cbn [andb].
  destruct (set_mem (lower d) seen) eqn:M; cbn [negb].
  - apply IH; split; assumption.
  - f_equal; rewrite IH by (split; assumption).
    apply filter_ext_in; intros f Hf; f_equal.
    apply set_mem_add_other.
    intro E; apply Nd; rewrite <- E; apply in_map; exact Hf.
Qed.

(** ** Dictionaries and the loaders *)

Lemma dict_get_set_same :
  forall (V : Type) k (v : V) d, dict_get k (dict_set k v d) = Some v.
Proof.
  intros V k v d; induction d as [|[k' v'] d IH]; simpl.
  - rewrite str_eqb_refl; reflexivity.
  - destruct (str_eqb k k') eqn:E; simpl; [rewrite str_eqb_refl | rewrite E];
      auto.
Qed.

Lemma dict_get_set_other :
  forall (V : Type) k k' (v : V) d,
    k <> k' -> dict_get k (dict_set k' v d) = dict_get k d.
Proof.
  intros V k k' v d H; apply str_eqb_neq in H.
  induction d as [|[k'' v''] d IH]; simpl.
  - rewrite H; reflexivity.
  - destruct (str_eqb k' k'') eqn:E; simpl.
    + apply str_eqb_eq in E; subst; rewrite H; reflexivity.
    + rewrite IH; reflexivity.
Qed.

Lemma dict_get_keys :
  forall (V : Type) k (d : dict V),
    In k (dict_keys d) <-> exists v, dict_get k d = Some v.
Proof.
  intros V k d; induction d as [|[k' v'] d IH]; simpl.
  - split; [intros [] | intros [v H]; discriminate].
  - destruct (str_eqb k k') eqn:E.
    + apply str_eqb_eq in E; subst; split; eauto.
    + apply str_eqb_neq in E; rewrite <- IH; split; [|auto].
      intros [H|H]; [congruence | exact H].
Qed.

Section FoldDictSet.
Context {A V : Type} (k : A -> str) (v : A -> V).

Let step (d : dict V) (it : A) : dict V := dict_set (k it) (v it) d.

Lemma fold_dict_set_untouched :
  forall items init x,
    (forall it, In it items -> k it <> x) ->
    dict_get x (fold_left step items init) = dict_get x init.
Proof.
  induction items as [|it items IH]; intros init x H; simpl; [reflexivity|].
  rewrite IH by (intros; apply H; right; assumption).
  apply dict_get_set_other; intro E; apply (H it); [left; reflexivity | auto].
Qed.

Lemma fold_dict_set_last :
  forall before it after init,
    (forall it', In it' after -> k it' <> k it) ->
    dict_get (k it) (fold_left step (before ++ it :: after) init) = Some (v it).
Proof.
  intros before it after init H.
  rewrite fold_left_app; simpl.
  rewrite fold_dict_set_untouched by assumption.
  apply dict_get_set_same.
Qed.

Lemma fold_dict_set_invariant :
  forall (P : V -> Prop),
    (forall it, P (v it)) ->
    forall items init,
      (forall x e, dict_get x init = Some e -> P e) ->
      forall x e, dict_get x (fold_left step items init) = Some e -> P e.
Proof.
  intros P Hv; induction items as [|it items IH]; intros init Hi x e; simpl.
  - apply Hi.
  - apply IH; intros y e' H.
    destruct (str_eqb y (k it)) eqn:E.
    + apply str_eqb_eq in E; subst.
      unfold step in H; rewrite dict_get_set_same in H.
      inversion H; subst; apply Hv.
    + apply str_eqb_neq in E.
      unfold step in H; rewrite dict_get_set_other in H by assumption.
      eapply Hi; exact H.
Qed.
End FoldDictSet.

Lemma normalize_fdc_id_pos :
  forall val n, normalize_fdc_id val = Some n -> (0 < n)%Z.
Proof.
  intros [|z|s|] n; simpl; try discriminate.
  - destruct (Z.ltb_spec 0 z) as [L|L]; [|discriminate].
    intro E; inversion E; subst; exact L.
  - destruct (py_int s) as [z|]; [|discriminate].
    destruct (Z.ltb_spec 0 z) as [L|L]; [|discriminate].
    intro E; inversion E; subst; exact L.
Qed.

Lemma load_s1_normalized : forall raw, normalized_map (load_s1 raw).
Proof.
  intros raw x e; unfold load_s1.
  apply (fold_dict_set_invariant
           (fun item => slugify (normalized_name item))
           (fun item =>
              mkRaw (slugify (normalized_name item))
                    (get_or (canonical_name item) (normalized_name item))
                    (dedup_ordered
                       ([get_or (canonical_name item) (normalized_name item);
                         normalized_name item] ++ get_or (synonyms item) []))
                    (normalize_fdc_id (s1_fdc_id item)))
           normalized_entry).
  - intro item; split; simpl.
    + apply dedup_ordered_normalized.
    + apply normalize_fdc_id_pos.
  - intros y e' H; discriminate.
Qed.

Lemma load_s2_normalized : forall raw, normalized_map (load_s2 raw).
Proof.
  intros raw x e; unfold load_s2.
  apply (fold_dict_set_invariant
           (fun item => s2_slug item)
           (fun item =>
              mkRaw (s2_slug item) (display_name item)
                    (dedup_ordered
                       ([display_name item] ++ get_or (synonym_array item) []))
                    (normalize_fdc_id (s2_fdc_id item)))
           normalized_entry).
  - intro item; split; simpl.
    + apply dedup_ordered_normalized.
    + apply normalize_fdc_id_pos.
  - intros y e' H; discriminate.
Qed.

(** ** The merge *)

Lemma merge_slug_slug :
  forall s1 s2 x m, merge_slug s1 s2 x = Some m -> raw_slug m = x.
Proof.
  intros s1 s2 x m; unfold merge_slug.
  destruct (dict_get x s1), (dict_get x s2); intro H; inversion H; reflexivity.
Qed.

Lemma merge_loop_spec :
  forall s1 s2 slugs ms,
    merge_loop s1 s2 slugs = Some ms ->
    Forall2 (fun x m => merge_slug s1 s2 x = Some m) slugs ms.
Proof.
  intros s1 s2; induction slugs as [|x slugs IH]; intros ms; simpl.
  - intro H; inversion H; constructor.
  - destruct (merge_slug s1 s2 x) as [m|] eqn:E; [|discriminate].
    destruct (merge_loop s1 s2 slugs) as [ms'|]; [|discriminate].
    intro H; inversion H; subst; constructor; auto.
Qed.

Lemma merge_loop_total :
  forall s1 s2 slugs,
    (forall x, In x slugs -> merge_slug s1 s2 x <> None) ->
    exists ms, merge_loop s1 s2 slugs = Some ms.
Proof.
  intros s1 s2; induction slugs as [|x slugs IH]; intro H; simpl.
  - eauto.
  - destruct (merge_slug s1 s2 x) as [m|] eqn:E.
    + destruct IH as [ms ->]; [intros y Hy; apply H; right; exact Hy | eauto].
    + exfalso; apply (H x); [left; reflexivity | exact E].
Qed.

Lemma all_slugs_In :
  forall s1 s2 x,
    In x (all_slugs s1 s2) <-> In x (dict_keys s1) \/ In x (dict_keys s2).
Proof.
  intros; unfold all_slugs; rewrite sorted_In, set_of_list_In, in_app_iff.
  reflexivity.
Qed.

Lemma all_slugs_NoDup : forall s1 s2, NoDup (all_slugs s1 s2).
Proof. intros; apply sorted_NoDup, set_of_list_NoDup. Qed.

(** The merge never meets a slug that neither map has: it returns. *)
Lemma merge_entries_total :
  forall s1 s2, exists ms, merge_entries s1 s2 = Some ms.
Proof.
  intros s1 s2; apply merge_loop_total; intros x Hx.
  apply all_slugs_In in Hx; unfold merge_slug.
  destruct Hx as [Hx|Hx]; apply dict_get_keys in Hx; destruct Hx as [e ->].
  - destruct (dict_get x s2); discriminate.
  - destruct (dict_get x s1); discriminate.
Qed.

Lemma Forall2_In_l :
  forall (A B : Type) (R : A -> B -> Prop) l l' x,
    Forall2 R l l' -> In x l -> exists y, In y l' /\ R x y.
Proof.
  intros A B R l l' x H; induction H as [|a b l l' Hab H IH]; simpl.
  - intros [].
  - intros [->|Hx]; [eauto | destruct (IH Hx) as [y [Hy Hr]]; eauto].
Qed.

Lemma Forall2_In_r :
  forall (A B : Type) (R : A -> B -> Prop) l l' y,
    Forall2 R l l' -> In y l' -> exists x, In x l /\ R x y.
Proof.
  intros A B R l l' y H; induction H as [|a b l l' Hab H IH]; simpl.
  - intros [].
  - intros [->|Hy]; [eauto | destruct (IH Hy) as [x [Hx Hr]]; eauto].
Qed.

(** What the merge holds for a slug: the record [merge_slug] builds, and
    no other record with that slug. *)
Lemma merge_entries_slug :
  forall s1 s2 x m,
    merge_slug s1 s2 x = Some m ->
    exists ms,
      merge_entries s1 s2 = Some ms /\ In m ms /\
      forall m', In m' ms -> raw_slug m' = x -> m' = m.
Proof.
  intros s1 s2 x m Hm.
  destruct (merge_entries_total s1 s2) as [ms Hms].
  exists ms; split; [exact Hms|].
  pose proof (merge_loop_spec _ _ _ _ Hms) as F.
  assert (Hx : In x (all_slugs s1 s2)).
  { apply all_slugs_In; unfold merge_slug in Hm.
    destruct (dict_get x s1) eqn:E1.
    - left; apply dict_get_keys; eauto.
    - destruct (dict_get x s2) eqn:E2; [|discriminate].
      right; apply dict_get_keys; eauto. }
  split.
  - destruct (Forall2_In_l _ _ _ _ _ x F Hx) as [y [Hy Hr]].
    rewrite Hm in Hr; inversion Hr; subst; exact Hy.
  - intros m' Hin Hs.
    destruct (Forall2_In_r _ _ _ _ _ m' F Hin) as [x' [_ Hr]].
    pose proof (merge_slug_slug _ _ _ _ Hr) as E.
    rewrite Hs in E; subst x'; rewrite Hm in Hr; inversion Hr; reflexivity.
Qed.

Lemma py_or_normalized :
  forall a b, (forall n, a = Some n -> (0 < n)%Z) ->
              py_or a b = match a with Some i => Some i | None => b end.
Proof.
  intros [n|] b H; simpl; [|reflexivity].
  specialize (H n eq_refl).
  destruct (Z.eqb_spec n 0); [lia | reflexivity].
Qed.

Lemma dedup_ordered_two_normalized :
  forall b a,
    normalized_forms b -> normalized_forms a ->
    dedup_ordered (b ++ a)
    = b ++ filter (fun f => negb (set_mem (lower f) (map lower b))) a.
Proof.
  intros b a Hb Ha; rewrite dedup_ordered_eq.
  rewrite dedup_from_app_normalized by (auto; intros d _ []).
  f_equal; rewrite dedup_from_filter by assumption.
  apply filter_ext; intro f; f_equal.
  apply set_mem_ext; intro x; rewrite seen_after_In; simpl; tauto.
Qed.

(** C2.  For a slug that both normalized source maps hold, the merge
    returns exactly one record with that slug; its displayName is source
    B's; its external id is source B's when source B has one and source
    A's otherwise; and its surfaceForms are the order-preserving
    case-insensitive dedup of source B's forms followed by source A's,
    which is source B's forms followed by those of source A's that no form
    of source B equals case-insensitively. *)
Theorem merge_prefers_source_b :
  forall (raw1 : list s1_item) (raw2 : list s2_item) x e1 e2,
    dict_get x (load_s1 raw1) = Some e1 ->
    dict_get x (load_s2 raw2) = Some e2 ->
    exists ms m,
      merge_entries (load_s1 raw1) (load_s2 raw2) = Some ms /\
      In m ms /\
      (forall m', In m' ms -> raw_slug m' = x -> m' = m) /\
      raw_slug m = x /\
      raw_displayName m = raw_displayName e2 /\
      raw_fdcId m
      = match raw_fdcId e2 with Some i => Some i | None => raw_fdcId e1 end /\
      raw_surfaceForms m
      = dedup_ordered (raw_surfaceForms e2 ++ raw_surfaceForms e1) /\
      raw_surfaceForms m
      = raw_surfaceForms e2
        ++ filter
             (fun f => negb (set_mem (lower f) (map lower (raw_surfaceForms e2))))
             (raw_surfaceForms e1).
Proof.
  intros raw1 raw2 x e1 e2 H1 H2.
  destruct (load_s1_normalized raw1 x e1 H1) as [F1 _].
  destruct (load_s2_normalized raw2 x e2 H2) as [F2 I2].
  set (m := mkRaw x (raw_displayName e2)
                  (dedup_ordered (raw_surfaceForms e2 ++ raw_surfaceForms e1))
                  (py_or (raw_fdcId e2) (raw_fdcId e1))).
  destruct (merge_entries_slug (load_s1 raw1) (load_s2 raw2) x m)
    as [ms (Hms & Hin & Huniq)].
  { unfold merge_slug; rewrite H1, H2; reflexivity. }
  exists ms, m; repeat split; auto.
  - apply py_or_normalized; exact I2.
  - apply dedup_ordered_two_normalized; assumption.
Qed.

(** C2 on two one-record sources: the merged record takes source B's
    name, falls back to source A's id, and lists source B's forms first. *)
Lemma merge_prefers_source_b_witness :
  exists ms m,
    merge_entries (load_s1 sample_source_a) (load_s2 sample_source_b) = Some ms /\
    In m ms /\
    raw_displayName m = "Tomatoes" /\
    raw_fdcId m = Some 7%Z /\
    raw_surfaceForms m = strs ["Tomatoes"; "tomato"; "pomodoro"; "Love Apple"].
Proof.
  destruct (merge_prefers_source_b sample_source_a sample_source_b "tomato"
              (mkRaw "tomato" "Tomato"
                     (strs ["Tomato"; "tomatoes"; "Love Apple"]) (Some 7%Z))
              (mkRaw "tomato" "Tomatoes"
                     (strs ["Tomatoes"; "tomato"; "pomodoro"]) None))
    as (ms & m & H1 & H2 & _ & _ & H3 & H4 & H5 & _).
  - vm_compute; reflexivity.
  - vm_compute; reflexivity.
  - exists ms, m; repeat split; assumption.
Defined.

(** ** The build *)

Lemma load_s2_absent :
  forall raw2 x,
    (forall item, In item raw2 -> s2_slug item <> x) ->
    dict_get x (load_s2 raw2) = None.
Proof.
  intros raw2 x H; unfold load_s2.
  apply (fold_dict_set_untouched
           (fun item => s2_slug item)
           (fun item =>
              mkRaw (s2_slug item) (display_name item)
                    (dedup_ordered
                       ([display_name item] ++ get_or (synonym_array item) []))
                    (normalize_fdc_id (s2_fdc_id item)))
           raw2 [] x H).
Qed.

Lemma load_s1_last :
  forall before item after,
    (forall item', In item' after ->
                   slugify (normalized_name item') <> slugify (normalized_name item)) ->
    dict_get (slugify (normalized_name item)) (load_s1 (before ++ item :: after))
    = Some (mkRaw (slugify (normalized_name item))
                  (get_or (canonical_name item) (normalized_name item))
                  (dedup_ordered
                     ([get_or (canonical_name item) (normalized_name item);
                       normalized_name item] ++ get_or (synonyms item) []))
                  (normalize_fdc_id (s1_fdc_id item))).
Proof.
  intros before item after H; unfold load_s1.
  apply (fold_dict_set_last
           (fun item => slugify (normalized_name item))
           (fun item =>
              mkRaw (slugify (normalized_name item))
                    (get_or (canonical_name item) (normalized_name item))
                    (dedup_ordered
                       ([get_or (canonical_name item) (normalized_name item);
                         normalized_name item] ++ get_or (synonyms item) []))
                    (normalize_fdc_id (s1_fdc_id item)))
           before item after [] H).
Qed.

(** C4, as amended.  When Source A holds the record of Scenario 1 and no
    later Source A record and no Source B record has its slug, the built
    knowledge base holds exactly one entry with the slug "roma-tomato"
    (the slug of the normalized name, not of the canonical name); its
    displayName is "Tomato", its surfaceForms are "Tomato", "Roma Tomato",
    "tomatoes" in that order, and its tokens are "roma", "tomato",
    "tomatoes". *)
Theorem scenario_roma_tomato :
  forall (fdc_id : json) (before after : list s1_item) (raw2 : list s2_item),
    (forall item, In item after ->
                  slugify (normalized_name item) <> "roma-tomato") ->
    (forall item, In item raw2 -> s2_slug item <> "roma-tomato") ->
    exists kb e,
      build_main (before ++ roma_tomato fdc_id :: after) raw2 = Some kb /\
      In e kb /\
      (forall e', In e' kb -> slug e' = "roma-tomato" -> e' = e) /\
      slug e = "roma-tomato" /\
      displayName e = "Tomato" /\
      surfaceForms e = strs ["Tomato"; "Roma Tomato"; "tomatoes"] /\
      tokens e = strs ["roma"; "tomato"; "tomatoes"] /\
      In ("tomato" : str) (tokens e) /\
      In ("tomatoes" : str) (tokens e) /\
      In ("roma" : str) (tokens e).
Proof.
  intros fdc_id before after raw2 HA HB.
  pose proof (load_s1_last before (roma_tomato fdc_id) after HA) as G1.
  pose proof (load_s2_absent raw2 _ HB) as G2.
  change (slugify (normalized_name (roma_tomato fdc_id)))
    with ("roma-tomato" : str) in G1.
  set (m := mkRaw "roma-tomato" "Tomato"
                  (strs ["Tomato"; "Roma Tomato"; "tomatoes"])
                  (normalize_fdc_id fdc_id)).
  change (dict_get "roma-tomato"
            (load_s1 (before ++ roma_tomato fdc_id :: after)) = Some m) in G1.
  destruct (merge_entries_slug
              (load_s1 (before ++ roma_tomato fdc_id :: after))
              (load_s2 raw2) "roma-tomato" m)
    as [ms (Hms & Hin & Huniq)].
  { unfold merge_slug; rewrite G1, G2; reflexivity. }
  exists (map enrich_entry ms), (enrich_entry m).
  split; [unfold build_main; rewrite Hms; reflexivity|].
  split; [apply in_map; exact Hin|].
  split.
  - intros e' He' Hs; apply in_map_iff in He'.
    destruct He' as [m' [<- Hm']]; f_equal.
    apply Huniq; [exact Hm' | exact Hs].
  - repeat split; vm_compute; auto 6.
Qed.

(** C4 with Source A holding the one record and Source B empty. *)
Lemma scenario_roma_tomato_witness :
  exists kb e,
    build_main [roma_tomato JNull] [] = Some kb /\ In e kb /\
    slug e = "roma-tomato" /\ displayName e = "Tomato" /\
    surfaceForms e = strs ["Tomato"; "Roma Tomato"; "tomatoes"].
Proof.
  destruct (scenario_roma_tomato JNull [] [] [])
    as (kb & e & H1 & H2 & _ & H3 & H4 & H5 & _).
  - intros item [].
  - intros item [].
  - exists kb, e; repeat split; assumption.
Defined.

(** C4 as the specification states it fails: built from the record of
    Scenario 1 alone, the knowledge base has no entry with the slug
    "tomato"; its one entry has the slug "roma-tomato". *)
Lemma scenario_slug_is_not_tomato :
  exists kb,
    build_main [roma_tomato JNull] [] = Some kb /\
    map slug kb = [("roma-tomato" : str)] /\
    forall e, In e kb -> slug e <> "tomato".
Proof.
  eexists; split; [vm_compute; reflexivity|].
  split; [vm_compute; reflexivity|].
  intros e [<-|[]]; vm_compute; discriminate.
Qed.

(** ** The slug index *)

Lemma has_slug_eq : forall s e, has_slug s e = true <-> slug e = s.
Proof. intros; apply str_eqb_eq. Qed.

Lemma index_get_slug :
  forall s L e, index_get s L = Some e -> slug e = s.
Proof.
  intros s L; induction L as [|a L IH]; intros e; simpl; [discriminate|].
  destruct (index_get s L) as [x|].
  - intro H; inversion H; subst; apply IH; reflexivity.
  - destruct (has_slug s a) eqn:E; [|discriminate].
    intro H; inversion H; subst; apply has_slug_eq; exact E.
Qed.

Lemma index_get_In :
  forall s L e, index_get s L = Some e -> In e L.
Proof.
  intros s L; induction L as [|a L IH]; intros e; simpl; [discriminate|].
  destruct (index_get s L) as [x|].
  - intro H; inversion H; subst; right; apply IH; reflexivity.
  - destruct (has_slug s a); [|discriminate].
    intro H; inversion H; subst; left; reflexivity.
Qed.

Lemma index_get_app_one :
  forall s L e,
    index_get s (L ++ [e]) = if has_slug s e then Some e else index_get s L.
Proof.
  intros s L e; induction L as [|a L IH]; simpl.
  - reflexivity.
  - rewrite IH; destruct (has_slug s e); reflexivity.
Qed.

Lemma index_update_same :
  forall s L e, index_get s L = Some e -> index_update s e L = L.
Proof.
  intros s L; induction L as [|a L IH]; intros e; simpl; [reflexivity|].
  destruct (index_get s L) as [x|].
  - intro H; rewrite IH by exact H; reflexivity.
  - destruct (has_slug s a); [|discriminate].
    intro H; inversion H; reflexivity.
Qed.

Lemma index_get_update :
  forall s e' L s',
    slug e' = s ->
    index_get s' (index_update s e' L)
    = if str_eqb s' s
      then match index_get s L with Some _ => Some e' | None => None end
      else index_get s' L.
Proof.
  intros s e' L s' He'; induction L as [|a L IH]; simpl.
  - destruct (str_eqb s' s); reflexivity.
  - destruct (index_get s L) as [x|] eqn:G; simpl.
    + rewrite IH; destruct (str_eqb s' s); reflexivity.
    + destruct (has_slug s a) eqn:Ha; simpl.
      * destruct (str_eqb s' s) eqn:E.
        -- apply str_eqb_eq in E; subst s'; rewrite G.
           assert (T : has_slug s e' = true) by (apply has_slug_eq; exact He').
           rewrite T; reflexivity.
        -- assert (F1 : has_slug s' e' = false).
           { unfold has_slug; rewrite He', str_eqb_sym; exact E. }
           assert (F2 : has_slug s' a = false).
           { apply has_slug_eq in Ha; unfold has_slug.
             rewrite Ha, str_eqb_sym; exact E. }
           rewrite F1, F2; reflexivity.
      * destruct (str_eqb s' s) eqn:E; [|reflexivity].
        apply str_eqb_eq in E; subst s'; rewrite G, Ha; reflexivity.
Qed.

Lemma index_update_length :
  forall s e' L, length (index_update s e' L) = length L.
Proof.
  intros s e' L; induction L as [|a L IH]; simpl; [reflexivity|].
  destruct (index_get s L); simpl; [rewrite IH; reflexivity|].
  destruct (has_slug s a); reflexivity.
Qed.

(** ** The inner loop *)

Lemma append_fold :
  forall new_forms sfs seen n,
    fold_left
      (fun (st : list str * list str * nat) form =>
         let '(sfs, existing, n) := st in
         if negb (set_mem (lower form) existing)
         then (sfs ++ [form], set_add (lower form) existing, S n)
         else st)
      new_forms (sfs, seen, n)
    = (sfs ++ forms_to_add seen new_forms,
       fold_left (fun s f => set_add (lower f) s) new_forms seen,
       n + length (forms_to_add seen new_forms)).
Proof.
  induction new_forms as [|f rest IH]; intros sfs seen n;
    cbn [fold_left forms_to_add].
  - rewrite app_nil_r, Nat.add_0_r; reflexivity.
  - destruct (set_mem (lower f) seen) eqn:M; cbn [negb].
    + assert (E : set_add (lower f) seen = seen)
        by (unfold set_add; rewrite M; reflexivity).
      rewrite IH, E; reflexivity.
    + rewrite IH, <- app_assoc; cbn [app length].
      f_equal; lia.
Qed.

Lemma append_new_forms_eq :
  forall sfs new_forms,
    append_new_forms sfs new_forms
    = (sfs ++ forms_to_add (set_of_list (map lower sfs)) new_forms,
       length (forms_to_add (set_of_list (map lower sfs)) new_forms)).
Proof.
  intros sfs new_forms; unfold append_new_forms.
  rewrite append_fold; reflexivity.
Qed.

Lemma forms_to_add_none :
  forall forms seen,
    (forall f, In f forms -> In (lower f) seen) ->
    forms_to_add seen forms = [].
Proof.
  induction forms as [|f rest IH]; intros seen H; simpl; [reflexivity|].
  assert (M : set_mem (lower f) seen = true).
  { apply set_mem_In, H; left; reflexivity. }
  rewrite M; apply IH; intros; apply H; right; assumption.
Qed.

Lemma forms_to_add_covers :
  forall forms seen f,
    In f forms ->
    In (lower f) seen \/ In (lower f) (map lower (forms_to_add seen forms)).
Proof.
  induction forms as [|g rest IH]; intros seen f; simpl; [intros []|].
  intros [->|Hf].
  - destruct (set_mem (lower f) seen) eqn:M.
    + left; apply set_mem_In; exact M.
    + right; left; reflexivity.
  - destruct (set_mem (lower g) seen) eqn:M.
    + apply IH; exact Hf.
    + destruct (IH (set_add (lower g) seen) f Hf) as [H|H].
      * apply set_add_In in H; destruct H as [H|H]; [|auto].
        right; left; symmetry; exact H.
      * right; right; exact H.
Qed.

Lemma forms_to_add_fresh :
  forall forms seen,
    NoDup (map lower (forms_to_add seen forms)) /\
    forall a, In a (forms_to_add seen forms) -> ~ In (lower a) seen.
Proof.
  induction forms as [|g rest IH]; intro seen; simpl.
  - split; [constructor | intros a []].
  - destruct (set_mem (lower g) seen) eqn:M; [apply IH|].
    destruct (IH (set_add (lower g) seen)) as [N F].
    apply set_mem_not_In in M; split.
    + simpl; constructor; [|exact N].
      intro Hin; apply in_map_iff in Hin; destruct Hin as [a [E Ha]].
      apply (F a Ha); apply set_add_In; left; exact E.
    + intros a [<-|Ha]; [exact M|].
      intro Hin; apply (F a Ha); apply set_add_In; right; exact Hin.
Qed.

(** ** One pair, one descriptor *)

Lemma add_surface_forms_none :
  forall s fs L, index_get s L = None <-> add_surface_forms s fs L = None.
Proof.
  intros s fs L; unfold add_surface_forms.
  destruct (index_get s L) as [e|]; [|tauto].
  rewrite append_new_forms_eq; split; discriminate.
Qed.

Lemma add_surface_forms_some :
  forall s fs L e,
    index_get s L = Some e ->
    add_surface_forms s fs L
    = Some (index_update s
              (set_surfaceForms e
                 (surfaceForms e
                  ++ forms_to_add (set_of_list (map lower (surfaceForms e))) fs))
              L,
            length (forms_to_add (set_of_list (map lower (surfaceForms e))) fs)).
Proof.
  intros s fs L e H; unfold add_surface_forms.
  rewrite H, append_new_forms_eq; reflexivity.
Qed.

Lemma set_surfaceForms_same : forall e, set_surfaceForms e (surfaceForms e) = e.
Proof. intros []; reflexivity. Qed.

(** Offering forms the entry already lists, up to case, changes nothing. *)
Lemma add_surface_forms_covered :
  forall s fs L, covered L s fs -> add_surface_forms s fs L = Some (L, 0).
Proof.
  intros s fs L [e [G C]].
  rewrite (add_surface_forms_some s fs L e G).
  rewrite forms_to_add_none.
  - rewrite app_nil_r, set_surfaceForms_same, index_update_same by exact G.
    reflexivity.
  - intros f Hf; apply set_of_list_In, C, Hf.
Qed.

Lemma patch_pair_ontology_index :
  forall L p s',
    index_get s' (patch_pair_ontology L p) = None <-> index_get s' L = None.
Proof.
  intros L [s fs] s'; unfold patch_pair_ontology; simpl.
  destruct (index_get s L) as [e|] eqn:G.
  - rewrite (add_surface_forms_some s fs L e G).
    rewrite index_get_update by (apply (index_get_slug s L e G)).
    rewrite G; destruct (str_eqb s' s) eqn:E; [|tauto].
    apply str_eqb_eq in E; subst; rewrite G; split; discriminate.
  - apply (add_surface_forms_none s fs) in G; rewrite G; tauto.
Qed.

Lemma fold_patch_pair_ontology_index :
  forall ps L s',
    index_get s' (fold_left patch_pair_ontology ps L) = None
    <-> index_get s' L = None.
Proof.
  induction ps as [|p ps IH]; intros L s'; simpl; [tauto|].
  rewrite IH; apply patch_pair_ontology_index.
Qed.

(** ** [main] in closed form *)

Lemma fold_patch_pair_frame :
  forall ps O n out,
    fold_left patch_pair ps (O, n, out)
    = let '(O', n', out') := fold_left patch_pair ps (O, 0, []) in
      (O', n + n', out ++ out').
Proof.
  induction ps as [|[s fs] ps IH]; intros O n out; cbn [fold_left].
  - rewrite Nat.add_0_r, app_nil_r; reflexivity.
  - unfold patch_pair at 2 4.
    destruct (add_surface_forms s fs O) as [[O1 k]|].
    + rewrite (IH O1 (n + k) out), (IH O1 (0 + k) []).
      destruct (fold_left patch_pair ps (O1, 0, [])) as [[O' n'] out'].
      simpl; f_equal; f_equal; lia.
    + rewrite (IH O n (out ++ _)), (IH O 0 ([] ++ _)).
      destruct (fold_left patch_pair ps (O, 0, [])) as [[O' n'] out'].
      simpl; rewrite <- app_assoc; reflexivity.
Qed.

Lemma fold_patch_pair_fst :
  forall ps O n out,
    fst (fst (fold_left patch_pair ps (O, n, out)))
    = fold_left patch_pair_ontology ps O.
Proof.
  induction ps as [|[s fs] ps IH]; intros O n out; cbn [fold_left];
    [reflexivity|].
  unfold patch_pair at 2, patch_pair_ontology at 2; simpl.
  destruct (add_surface_forms s fs O) as [[O1 k]|]; apply IH.
Qed.

Lemma fold_add_candidate_frame :
  forall sc cs O n out,
    fold_left (add_candidate sc) cs (O, n, out)
    = let '(O', n', out') := fold_left (add_candidate sc) cs (O, 0, []) in
      (O', n + n', out ++ out').
Proof.
  intro sc; induction cs as [|c cs IH]; intros O n out; cbn [fold_left].
  - rewrite Nat.add_0_r, app_nil_r; reflexivity.
  - unfold add_candidate at 2 4.
    destruct (add_surface_forms (new_slug c) (new_surfaceForms c) O)
      as [[O1 k]|].
    + rewrite (IH O1 n (out ++ _)), (IH O1 0 ([] ++ _)).
      destruct (fold_left (add_candidate sc) cs (O1, 0, [])) as [[O' n'] out'].
      simpl; rewrite <- app_assoc; reflexivity.
    + rewrite (IH _ (S n) out), (IH _ 1 []).
      destruct (fold_left (add_candidate sc) cs (_, 0, [])) as [[O' n'] out'].
      simpl; f_equal; f_equal; lia.
Qed.

Lemma fold_add_candidate_fst :
  forall sc cs O n out,
    fst (fst (fold_left (add_candidate sc) cs (O, n, out)))
    = fold_left add_candidate_ontology cs O.
Proof.
  intro sc; induction cs as [|c cs IH]; intros O n out; cbn [fold_left];
    [reflexivity|].
  unfold add_candidate at 2, add_candidate_ontology at 2.
  destruct (add_surface_forms (new_slug c) (new_surfaceForms c) O)
    as [[O1 k]|]; apply IH.
Qed.

(** The lines of step 2 and the closing lines, from the state step 1
    leaves. *)
Lemma main_eq :
  forall sc ps cs O,
    main sc ps cs O
    = let '(O2, n2, o2) := fold_left patch_pair ps (O, 0, []) in
      let '(O3, a3, o3) := fold_left (add_candidate sc) cs (O2, 0, []) in
      (sort_by slug O3,
       o2 ++ [Added_surface_forms n2] ++ o3
          ++ [Added_new_entries a3;
              Totals (length (sort_by slug O3))
                     (count_with_fdc (sort_by slug O3))
                     (total_surface_forms (sort_by slug O3));
              Written]).
Proof.
  intros sc ps cs O; unfold main.
  destruct (fold_left patch_pair ps (O, 0, [])) as [[O2 n2] o2].
  rewrite fold_add_candidate_frame.
  destruct (fold_left (add_candidate sc) cs (O2, 0, [])) as [[O3 a3] o3].
  simpl; rewrite <- !app_assoc; reflexivity.
Qed.

Lemma apply_patch_eq :
  forall sc P O, apply_patch sc P O = sort_by slug (patched P O).
Proof.
  intros sc [ps cs] O; unfold apply_patch, patched; simpl.
  rewrite main_eq.
  rewrite <- (fold_patch_pair_fst ps O 0 []).
  destruct (fold_left patch_pair ps (O, 0, [])) as [[O2 n2] o2]; simpl.
  rewrite <- (fold_add_candidate_fst sc cs O2 0 []).
  destruct (fold_left (add_candidate sc) cs (O2, 0, [])) as [[O3 a3] o3].
  reflexivity.
Qed.

(** ** An unknown slug in SURFACE_FORM_PATCHES *)

Lemma step1_unknown_slug :
  forall pre s fs post O,
    index_get s O = None ->
    exists O2 n2 o1 o2,
      fold_left patch_pair (pre ++ post) (O, 0, []) = (O2, n2, o1 ++ o2) /\
      fold_left patch_pair (pre ++ (s, fs) :: post) (O, 0, [])
      = (O2, n2, o1 ++ Warning_slug_not_found s :: o2).
Proof.
  intros pre s fs post O H.
  rewrite !fold_left_app; cbn [fold_left].
  pose proof (fold_patch_pair_fst pre O 0 []) as E.
  destruct (fold_left patch_pair pre (O, 0, [])) as [[O1 n1] o1].
  simpl in E; subst O1.
  assert (G : index_get s (fold_left patch_pair_ontology pre O) = None)
    by (apply fold_patch_pair_ontology_index; exact H).
  unfold patch_pair at 3.
  apply (add_surface_forms_none s fs) in G; rewrite G.
  rewrite (fold_patch_pair_frame post _ n1 o1).
  rewrite (fold_patch_pair_frame post _ n1 (o1 ++ _)).
  destruct (fold_left patch_pair post (_, 0, [])) as [[O2 n2] o2].
  exists O2, (n1 + n2), o1, o2; split; [reflexivity|].
  rewrite <- app_assoc; reflexivity.
Qed.

(** With and without a pair whose slug the ontology lacks, [main] writes
    the same ontology, and prints the same lines but for the warning. *)
Lemma unknown_slug_same_run :
  forall sc pre s fs post NEW_ENTRIES O,
    index_get s O = None ->
    fst (main sc (pre ++ (s, fs) :: post) NEW_ENTRIES O)
    = fst (main sc (pre ++ post) NEW_ENTRIES O) /\
    exists out1 out2,
      snd (main sc (pre ++ post) NEW_ENTRIES O) = out1 ++ out2 /\
      snd (main sc (pre ++ (s, fs) :: post) NEW_ENTRIES O)
      = out1 ++ Warning_slug_not_found s :: out2.
Proof.
  intros sc pre s fs post cs O H.
  destruct (step1_unknown_slug pre s fs post O H)
    as (O2 & n2 & o1 & o2 & E1 & E2).
  rewrite !main_eq, E1, E2.
  destruct (fold_left (add_candidate sc) cs (O2, 0, [])) as [[O3 a3] o3].
  split; [reflexivity|].
  eexists o1, _; split; simpl; rewrite <- app_assoc; reflexivity.
Qed.

(** ** Field freeze *)

Lemma frozen_refl : forall e, frozen e e.
Proof.
  intro e; unfold frozen; repeat split; try reflexivity.
  exists []; symmetry; apply app_nil_r.
Qed.

Lemma frozen_trans : forall a b c, frozen a b -> frozen b c -> frozen a c.
Proof.
  unfold frozen; intros a b c H1 H2.
  destruct H1 as (A1 & A2 & A3 & A4 & A5 & A6 & A7 & A8 & A9 & [x Ax]).
  destruct H2 as (B1 & B2 & B3 & B4 & B5 & B6 & B7 & B8 & B9 & [y By]).
  repeat split; try congruence.
  exists (x ++ y); rewrite By, Ax, app_assoc; reflexivity.
Qed.

Lemma frozen_set_surfaceForms :
  forall e added, frozen e (set_surfaceForms e (surfaceForms e ++ added)).
Proof.
  intros e added; unfold frozen; simpl; repeat split; try reflexivity.
  exists added; reflexivity.
Qed.

Lemma Forall2_frozen_refl : forall L, Forall2 frozen L L.
Proof. induction L; constructor; [apply frozen_refl | assumption]. Qed.

Lemma Forall2_frozen_trans :
  forall L1 L2 L3,
    Forall2 frozen L1 L2 -> Forall2 frozen L2 L3 -> Forall2 frozen L1 L3.
Proof.
  intros L1 L2 L3 H; revert L3.
  induction H as [|a b L1 L2 Hab H IH]; intros L3 H3; inversion H3; subst;
    constructor; [eapply frozen_trans; eassumption | auto].
Qed.

Lemma Forall2_frozen_update :
  forall s e' L,
    (forall e, index_get s L = Some e -> frozen e e') ->
    Forall2 frozen L (index_update s e' L).
Proof.
  intros s e' L; induction L as [|a L IH]; intro H; simpl; [constructor|].
  simpl in H; destruct (index_get s L) as [x|].
  - constructor; [apply frozen_refl | apply IH; exact H].
  - destruct (has_slug s a).
    + constructor; [apply H; reflexivity | apply Forall2_frozen_refl].
    + apply Forall2_frozen_refl.
Qed.

Lemma add_surface_forms_frozen :
  forall s fs L L' n,
    add_surface_forms s fs L = Some (L', n) -> Forall2 frozen L L'.
Proof.
  intros s fs L L' n H.
  destruct (index_get s L) as [e|] eqn:G.
  - rewrite (add_surface_forms_some s fs L e G) in H; inversion H; subst.
    apply Forall2_frozen_update; intros e0 E0.
    rewrite G in E0; inversion E0; subst.
    apply frozen_set_surfaceForms.
  - apply (add_surface_forms_none s fs) in G; congruence.
Qed.

Lemma grows_refl : forall L, grows L L.
Proof.
  intro L; exists L, []; split;
    [symmetry; apply app_nil_r | apply Forall2_frozen_refl].
Qed.

Lemma grows_trans : forall L1 L2 L3, grows L1 L2 -> grows L2 L3 -> grows L1 L3.
Proof.
  intros L1 L2 L3 (A & x & -> & HA) (B & y & -> & HB).
  apply Forall2_app_inv_l in HB; destruct HB as (B1 & B2 & HB1 & HB2 & ->).
  exists B1, (B2 ++ y); split; [rewrite app_assoc; reflexivity|].
  eapply Forall2_frozen_trans; eassumption.
Qed.

Lemma patch_pair_ontology_grows :
  forall L p, grows L (patch_pair_ontology L p).
Proof.
  intros L [s fs]; unfold patch_pair_ontology; simpl.
  destruct (add_surface_forms s fs L) as [[L' n]|] eqn:E; [|apply grows_refl].
  exists L', []; split; [symmetry; apply app_nil_r|].
  eapply add_surface_forms_frozen; exact E.
Qed.

Lemma add_candidate_ontology_grows :
  forall L c, grows L (add_candidate_ontology L c).
Proof.
  intros L c; unfold add_candidate_ontology.
  destruct (add_surface_forms (new_slug c) (new_surfaceForms c) L)
    as [[L' n]|] eqn:E.
  - exists L', []; split; [symmetry; apply app_nil_r|].
    eapply add_surface_forms_frozen; exact E.
  - exists L, [enrich_new_entry c]; split;
      [reflexivity | apply Forall2_frozen_refl].
Qed.

Lemma fold_grows :
  forall (A : Type) (f : list entry -> A -> list entry),
    (forall L a, grows L (f L a)) ->
    forall l L, grows L (fold_left f l L).
Proof.
  intros A f Hf; induction l as [|a l IH]; intro L; simpl;
    [apply grows_refl|].
  eapply grows_trans; [apply Hf | apply IH].
Qed.

Lemma patched_grows : forall P O, grows O (patched P O).
Proof.
  intros P O; unfold patched.
  eapply grows_trans;
    [apply (fold_grows _ _ patch_pair_ontology_grows)
    |apply (fold_grows _ _ add_candidate_ontology_grows)].
Qed.

(** C6.  Whatever the patch, the ontology [main] writes is the sorted
    list of the entries it read, each with its slug, displayName, fdc,
    equivalenceClass, tokens, modifiers and stub fields as they were and
    with surface forms only appended, followed by the entries added in
    step 2.  Tokens are not derived again: after "Basmati Rice" is patched
    onto an entry enriched from "rice" alone, its tokens are still "rice",
    where the Enricher would give "basmati" and "rice". *)
Theorem patch_freezes_fields :
  (forall sc P O,
      exists O' added,
        apply_patch sc P O = sort_by slug (O' ++ added) /\
        Forall2 frozen O O')
  /\
  (apply_patch Top200 ([("rice" : str, strs ["Basmati Rice"])], []) [rice_entry]
   = [set_surfaceForms rice_entry (strs ["rice"; "Basmati Rice"])] /\
   tokens (set_surfaceForms rice_entry (strs ["rice"; "Basmati Rice"]))
   = strs ["rice"] /\
   derive_tokens (strs ["rice"; "Basmati Rice"]) = strs ["basmati"; "rice"]).
Proof.
  split.
  - intros sc P O; destruct (patched_grows P O) as (O' & added & E & F).
    exists O', added; rewrite apply_patch_eq, E; split; [reflexivity | exact F].
  - repeat split; vm_compute; reflexivity.
Qed.

(** ** The index under the sort *)

Lemma index_get_insert_by :
  forall s x L, index_get s (insert_by slug x L) = index_get s (x :: L).
Proof.
  intros s x L; induction L as [|y L IH]; [reflexivity|].
  cbn [insert_by].
  destruct (str_leb (slug x) (slug y)) eqn:E; [reflexivity|].
  cbn [index_get] in *; rewrite IH.
  destruct (index_get s L) as [e|]; [reflexivity|].
  destruct (has_slug s x) eqn:Hx, (has_slug s y) eqn:Hy; try reflexivity.
  apply has_slug_eq in Hx, Hy; rewrite Hx, Hy, str_leb_refl in E.
  discriminate.
Qed.

(** The stable sort leaves the index as it is. *)
Lemma index_get_sort_by :
  forall s L, index_get s (sort_by slug L) = index_get s L.
Proof.
  intros s L; induction L as [|x L IH]; [reflexivity|].
  cbn [sort_by fold_right]; fold (sort_by slug L).
  rewrite index_get_insert_by; cbn [index_get]; rewrite IH; reflexivity.
Qed.

(** ** Applying a patch twice *)

Lemma extends_refl : forall L, extends L L.
Proof. intros L s e H; exists e; split; [exact H | apply incl_refl]. Qed.

Lemma extends_trans :
  forall L1 L2 L3, extends L1 L2 -> extends L2 L3 -> extends L1 L3.
Proof.
  intros L1 L2 L3 H12 H23 s e H.
  destruct (H12 s e H) as [e2 [G2 I2]].
  destruct (H23 s e2 G2) as [e3 [G3 I3]].
  exists e3; split; [exact G3 | eapply incl_tran; eassumption].
Qed.

Lemma covered_extends :
  forall L L' s fs, covered L s fs -> extends L L' -> covered L' s fs.
Proof.
  intros L L' s fs [e [G C]] H.
  destruct (H s e G) as [e' [G' I']].
  exists e'; split; [exact G' | intros f Hf; apply I', C, Hf].
Qed.

Lemma covered_same_index :
  forall L L' s fs,
    index_get s L' = index_get s L -> covered L s fs -> covered L' s fs.
Proof.
  intros L L' s fs E [e [G C]]; exists e; split; [congruence | exact C].
Qed.

Lemma add_surface_forms_step :
  forall s fs L L' n,
    add_surface_forms s fs L = Some (L', n) ->
    extends L L' /\ covered L' s fs.
Proof.
  intros s fs L L' n H.
  destruct (index_get s L) as [e|] eqn:G;
    [|apply (add_surface_forms_none s fs) in G; congruence].
  rewrite (add_surface_forms_some s fs L e G) in H; inversion H; subst; clear H.
  set (added := forms_to_add (set_of_list (map lower (surfaceForms e))) fs).
  set (e' := set_surfaceForms e (surfaceForms e ++ added)).
  assert (He' : slug e' = s) by (apply (index_get_slug s L e G)).
  split.
  - intros s0 e0 G0.
    rewrite (index_get_update s e' L s0 He'), G.
    destruct (str_eqb s0 s) eqn:E.
    + apply str_eqb_eq in E; subst s0.
      rewrite G in G0; inversion G0; subst e0.
      exists e'; split; [reflexivity|].
      simpl; rewrite map_app; apply incl_appl, incl_refl.
    + exists e0; split; [exact G0 | apply incl_refl].
  - exists e'; split.
    + rewrite (index_get_update s e' L s He'), G, str_eqb_refl; reflexivity.
    + intros f Hf; simpl; rewrite map_app; apply in_or_app.
      destruct (forms_to_add_covers
                  fs (set_of_list (map lower (surfaceForms e))) f Hf)
        as [C|C]; [left | right; exact C].
      apply set_of_list_In; exact C.
Qed.

Lemma enrich_new_entry_slug :
  forall raw, slug (enrich_new_entry raw) = new_slug raw.
Proof. reflexivity. Qed.

Lemma enrich_new_entry_surfaceForms :
  forall raw, surfaceForms (enrich_new_entry raw) = new_surfaceForms raw.
Proof. reflexivity. Qed.

Lemma patch_pair_ontology_extends :
  forall L p, extends L (patch_pair_ontology L p).
Proof.
  intros L [s fs]; unfold patch_pair_ontology; simpl.
  destruct (add_surface_forms s fs L) as [[L' n]|] eqn:E;
    [|apply extends_refl].
  apply (add_surface_forms_step s fs L L' n E).
Qed.

Lemma add_candidate_ontology_step :
  forall L c,
    extends L (add_candidate_ontology L c) /\
    covered (add_candidate_ontology L c) (new_slug c) (new_surfaceForms c).
Proof.
  intros L c; unfold add_candidate_ontology.
  destruct (add_surface_forms (new_slug c) (new_surfaceForms c) L)
    as [[L' n]|] eqn:E.
  - apply (add_surface_forms_step _ _ L L' n E).
  - apply add_surface_forms_none in E.
    assert (T : has_slug (new_slug c) (enrich_new_entry c) = true)
      by (apply has_slug_eq; reflexivity).
    split.
    + intros s e G; exists e; split; [|apply incl_refl].
      rewrite index_get_app_one.
      destruct (has_slug s (enrich_new_entry c)) eqn:Hs; [|exact G].
      apply has_slug_eq in Hs; rewrite enrich_new_entry_slug in Hs.
      congruence.
    + exists (enrich_new_entry c); split.
      * rewrite index_get_app_one, T; reflexivity.
      * intros f Hf; rewrite enrich_new_entry_surfaceForms.
        apply in_map; exact Hf.
Qed.

Lemma fold_extends :
  forall (A : Type) (f : list entry -> A -> list entry),
    (forall L a, extends L (f L a)) ->
    forall l L, extends L (fold_left f l L).
Proof.
  intros A f Hf; induction l as [|a l IH]; intro L; simpl;
    [apply extends_refl|].
  eapply extends_trans; [apply Hf | apply IH].
Qed.

Lemma step1_covers :
  forall ps L s fs,
    In (s, fs) ps -> index_get s L <> None ->
    covered (fold_left patch_pair_ontology ps L) s fs.
Proof.
  induction ps as [|p ps IH]; intros L s fs; simpl; [intros []|].
  intros [->|Hin] Hs.
  - eapply covered_extends;
      [|apply (fold_extends _ _ patch_pair_ontology_extends)].
    unfold patch_pair_ontology; simpl.
    destruct (add_surface_forms s fs L) as [[L' n]|] eqn:E.
    + apply (add_surface_forms_step s fs L L' n E).
    + apply add_surface_forms_none in E; contradiction.
  - apply IH; [exact Hin|].
    intro G; apply Hs; apply (patch_pair_ontology_index L p s); exact G.
Qed.

Lemma step2_covers :
  forall cs L c,
    In c cs ->
    covered (fold_left add_candidate_ontology cs L)
            (new_slug c) (new_surfaceForms c).
Proof.
  induction cs as [|c0 cs IH]; intros L c; simpl; [intros []|].
  intros [->|Hin]; [|apply IH; exact Hin].
  eapply covered_extends;
    [apply add_candidate_ontology_step
    |apply (fold_extends _ _
              (fun L a => proj1 (add_candidate_ontology_step L a)))].
Qed.

Lemma step2_index_none :
  forall cs L s,
    index_get s L = None ->
    (forall c, In c cs -> new_slug c <> s) ->
    index_get s (fold_left add_candidate_ontology cs L) = None.
Proof.
  induction cs as [|c cs IH]; intros L s G H; simpl; [exact G|].
  apply IH; [|intros; apply H; right; assumption].
  unfold add_candidate_ontology.
  destruct (index_get (new_slug c) L) as [e|] eqn:Gc.
  - rewrite (add_surface_forms_some _ (new_surfaceForms c) L e Gc).
    rewrite index_get_update by (apply (index_get_slug _ L e Gc)).
    assert (N : str_eqb s (new_slug c) = false).
    { apply str_eqb_neq; intro E; apply (H c); [left; reflexivity | auto]. }
    rewrite N; exact G.
  - apply (add_surface_forms_none _ (new_surfaceForms c)) in Gc; rewrite Gc.
    rewrite index_get_app_one.
    destruct (has_slug s (enrich_new_entry c)) eqn:Hs; [|exact G].
    apply has_slug_eq in Hs; exfalso; apply (H c); [left; reflexivity|].
    exact Hs.
Qed.

Lemma step1_identity :
  forall ps L,
    (forall s fs, In (s, fs) ps -> index_get s L = None \/ covered L s fs) ->
    fold_left patch_pair_ontology ps L = L.
Proof.
  induction ps as [|[s fs] ps IH]; intros L H; simpl; [reflexivity|].
  assert (E : patch_pair_ontology L (s, fs) = L).
  { unfold patch_pair_ontology; simpl.
    destruct (H s fs (or_introl eq_refl)) as [G|C].
    - apply (add_surface_forms_none s fs) in G; rewrite G; reflexivity.
    - rewrite (add_surface_forms_covered s fs L C); reflexivity. }
  rewrite E; apply IH; intros; apply H; right; assumption.
Qed.

Lemma step2_identity :
  forall cs L,
    (forall c, In c cs -> covered L (new_slug c) (new_surfaceForms c)) ->
    fold_left add_candidate_ontology cs L = L.
Proof.
  induction cs as [|c cs IH]; intros L H; simpl; [reflexivity|].
  assert (E : add_candidate_ontology L c = L).
  { unfold add_candidate_ontology.
    rewrite (add_surface_forms_covered _ _ L (H c (or_introl eq_refl))).
    reflexivity. }
  rewrite E; apply IH; intros; apply H; right; assumption.
Qed.

(** What [pair_consistent] says of a pair, after both steps. *)
Lemma pair_consistent_settled :
  forall ps cs O s fs,
    In (s, fs) ps ->
    pair_consistent cs O (s, fs) = true ->
    index_get s (patched (ps, cs) O) = None \/ covered (patched (ps, cs) O) s fs.
Proof.
  intros ps cs O s fs Hin H; unfold patched, pair_consistent in *; simpl in *.
  set (A := fold_left patch_pair_ontology ps O).
  assert (XA : extends A (fold_left add_candidate_ontology cs A)).
  { apply (fold_extends _ _
             (fun L a => proj1 (add_candidate_ontology_step L a))). }
  destruct (index_get s O) as [e|] eqn:G.
  - right; eapply covered_extends; [|exact XA].
    apply step1_covers; [exact Hin | congruence].
  - assert (GA : index_get s A = None)
      by (apply fold_patch_pair_ontology_index; exact G).
    destruct (forallb (fun raw => negb (str_eqb (new_slug raw) s)) cs) eqn:F.
    + left; apply step2_index_none; [exact GA|].
      intros c Hc E; rewrite forallb_forall in F.
      specialize (F c Hc); rewrite E, str_eqb_refl in F; discriminate.
    + right; simpl in H; rewrite forallb_forall in H.
      assert (X : exists c0, In c0 cs /\ new_slug c0 = s).
      { destruct (forallb_forall
                    (fun raw => negb (str_eqb (new_slug raw) s)) cs) as [_ B].
        destruct (existsb (fun raw => str_eqb (new_slug raw) s) cs) eqn:Ex.
        - apply existsb_exists in Ex; destruct Ex as [c0 [Hc0 E0]].
          exists c0; split; [exact Hc0 | apply str_eqb_eq; exact E0].
        - rewrite B in F; [discriminate|].
          intros c Hc; destruct (str_eqb (new_slug c) s) eqn:Ec;
            [|reflexivity].
          assert (T : existsb (fun raw => str_eqb (new_slug raw) s) cs = true)
            by (apply existsb_exists; exists c; auto).
          congruence. }
      destruct X as [c0 [Hc0 E0]].
      destruct (step2_covers cs A c0 Hc0) as [e [Ge _]].
      rewrite E0 in Ge; exists e; split; [exact Ge|].
      intros f Hf; specialize (H f Hf).
      apply existsb_exists in H; destruct H as [c [Hc Hb]].
      apply andb_true_iff in Hb; destruct Hb as [Es Hm].
      apply str_eqb_eq in Es; apply set_mem_In in Hm.
      destruct (step2_covers cs A c Hc) as [e' [Ge' C']].
      rewrite Es, Ge in Ge'; inversion Ge'; subst e'.
      apply in_map_iff in Hm; destruct Hm as [g [Eg Hg]].
      rewrite <- Eg; apply C'; exact Hg.
Qed.

(** After both steps and the sort, both steps find nothing to do. *)
Lemma patched_twice :
  forall (ps : dict (list str)) cs O,
    forallb (pair_consistent cs O) ps = true ->
    patched (ps, cs) (sort_by slug (patched (ps, cs) O))
    = sort_by slug (patched (ps, cs) O).
Proof.
  intros ps cs O H; rewrite forallb_forall in H.
  set (B := patched (ps, cs) O).
  unfold patched; simpl.
  rewrite step1_identity.
  - apply step2_identity; intros c Hc.
    apply (covered_same_index B); [apply index_get_sort_by|].
    apply (step2_covers cs (fold_left patch_pair_ontology ps O) c Hc).
  - intros s fs Hin.
    rewrite index_get_sort_by.
    destruct (pair_consistent_settled ps cs O s fs Hin (H _ Hin)) as [G|C];
      [left; exact G | right].
    apply (covered_same_index B); [apply index_get_sort_by | exact C].
Qed.

(** A pair that is consistent on the empty ontology is so on every one. *)
Lemma pair_consistent_any_base :
  forall cs O pair,
    pair_consistent cs [] pair = true -> pair_consistent cs O pair = true.
Proof.
  intros cs O pair H; unfold pair_consistent in *; simpl in H.
  destruct (index_get (fst pair) O); [reflexivity | exact H].
Qed.

(** X19.  With the constants they ship, both patch scripts are
    idempotent on every ontology: running either script twice writes what
    running it once writes. *)
Lemma scripts_idempotent :
  forall O,
    apply_patch Top200 (top200_SURFACE_FORM_PATCHES, top200_NEW_ENTRIES)
      (apply_patch Top200 (top200_SURFACE_FORM_PATCHES, top200_NEW_ENTRIES) O)
    = apply_patch Top200 (top200_SURFACE_FORM_PATCHES, top200_NEW_ENTRIES) O
    /\
    apply_patch Next100 (next100_SURFACE_FORM_PATCHES, next100_NEW_ENTRIES)
      (apply_patch Next100 (next100_SURFACE_FORM_PATCHES, next100_NEW_ENTRIES) O)
    = apply_patch Next100 (next100_SURFACE_FORM_PATCHES, next100_NEW_ENTRIES) O.
Proof.
  intro O; split; rewrite !apply_patch_eq, patched_twice;
    try apply sort_by_idem;
    apply forallb_forall; intros pair Hin; apply pair_consistent_any_base;
    revert pair Hin; apply forallb_forall; vm_compute; reflexivity.
Qed.

(** C1, as amended.  Applying a patch to the ontology it produced changes
    nothing, provided that each pair of SURFACE_FORM_PATCHES whose slug
    the base lacks either has a slug no new-entry candidate carries, or
    offers only forms that, up to case, a candidate with that slug
    lists. *)
Theorem patch_idempotent :
  forall sc P O,
    patch_consistent P O = true ->
    apply_patch sc P (apply_patch sc P O) = apply_patch sc P O.
Proof.
  intros sc [ps cs] O H; unfold patch_consistent in H; simpl in H.
  rewrite (apply_patch_eq sc (ps, cs) O).
  rewrite (apply_patch_eq sc (ps, cs) (sort_by slug (patched (ps, cs) O))).
  rewrite (patched_twice ps cs O H).
  apply sort_by_idem.
Qed.

(** C1 on the pair and the descriptor patch-ontology-top200.py has for
    "milk", on an ontology that has "rice" and no "milk". *)
Lemma patch_idempotent_witness :
  patch_consistent top200_milk_patch [rice_entry] = true /\
  apply_patch Top200 top200_milk_patch
              (apply_patch Top200 top200_milk_patch [rice_entry])
  = apply_patch Top200 top200_milk_patch [rice_entry].
Proof.
  split; [vm_compute; reflexivity|].
  apply (patch_idempotent Top200 top200_milk_patch [rice_entry]).
  vm_compute; reflexivity.
Defined.

(** C1 as the specification states it fails: on an ontology without
    "milk" the first run skips the pair for "milk" and adds the entry, and
    the second run appends "oat milk" to it. *)
Lemma second_run_adds_form :
  map surfaceForms (apply_patch Top200 oat_milk_patch [])
  = [new_surfaceForms milk_candidate] /\
  map surfaceForms
      (apply_patch Top200 oat_milk_patch (apply_patch Top200 oat_milk_patch []))
  = [new_surfaceForms milk_candidate ++ strs ["oat milk"]] /\
  apply_patch Top200 oat_milk_patch (apply_patch Top200 oat_milk_patch [])
  <> apply_patch Top200 oat_milk_patch [].
Proof.
  split; [vm_compute; reflexivity | split; [vm_compute; reflexivity|]].
  intro E; apply (f_equal (map surfaceForms)) in E.
  vm_compute in E; discriminate.
Qed.

(** What [main] writes lists, for every pair whose slug the ontology read
    had and for every new-entry candidate, each offered form up to case. *)
Lemma main_covers :
  forall sc (ps : dict (list str)) (cs : list new_entry) O,
    (forall s fs, In (s, fs) ps -> index_get s O <> None ->
                  covered (fst (main sc ps cs O)) s fs) /\
    (forall c, In c cs ->
               covered (fst (main sc ps cs O))
                       (new_slug c) (new_surfaceForms c)).
Proof.
  intros sc ps cs O.
  change (fst (main sc ps cs O)) with (apply_patch sc (ps, cs) O).
  rewrite apply_patch_eq; unfold patched; simpl; split.
  - intros s fs Hin Hs.
    eapply covered_same_index; [apply index_get_sort_by|].
    eapply covered_extends;
      [apply (step1_covers ps O s fs Hin Hs)
      |apply (fold_extends _ _
                (fun L a => proj1 (add_candidate_ontology_step L a)))].
  - intros c Hc.
    eapply covered_same_index; [apply index_get_sort_by|].
    apply (step2_covers cs _ c Hc).
Qed.

(** C9.  A pair of SURFACE_FORM_PATCHES whose slug the ontology does not
    have does not stop the run.  [main] returns; the pair is skipped: the
    ontology written is the one written when the pair is left out of the
    patch, and what is printed differs only by the warning for that slug;
    and the rest of the patch is applied: in the ontology written, the
    entry of every other pair whose slug the ontology read had lists each
    form of that pair, and every new-entry candidate's slug has an entry
    that lists each form of the candidate, up to case. *)
Theorem unknown_slug_skipped :
  forall sc pre s fs post NEW_ENTRIES O,
    index_get s O = None ->
    fst (main sc (pre ++ (s, fs) :: post) NEW_ENTRIES O)
    = fst (main sc (pre ++ post) NEW_ENTRIES O) /\
    (exists out1 out2,
        snd (main sc (pre ++ post) NEW_ENTRIES O) = out1 ++ out2 /\
        snd (main sc (pre ++ (s, fs) :: post) NEW_ENTRIES O)
        = out1 ++ Warning_slug_not_found s :: out2) /\
    (forall s' fs',
        In (s', fs') (pre ++ post) -> index_get s' O <> None ->
        covered (fst (main sc (pre ++ (s, fs) :: post) NEW_ENTRIES O))
                s' fs') /\
    (forall c,
        In c NEW_ENTRIES ->
        covered (fst (main sc (pre ++ (s, fs) :: post) NEW_ENTRIES O))
                (new_slug c) (new_surfaceForms c)).
Proof.
  intros sc pre s fs post cs O H.
  destruct (unknown_slug_same_run sc pre s fs post cs O H) as [E L].
  destruct (main_covers sc (pre ++ (s, fs) :: post) cs O) as [C1 C2].
  split; [exact E | split; [exact L | split; [|exact C2]]].
  intros s' fs' Hin Hs; apply C1; [|exact Hs].
  apply in_app_or in Hin; apply in_or_app.
  destruct Hin as [Hin|Hin]; [left | right; right]; exact Hin.
Qed.

(** C9 on an ontology that has "rice" and no "milk": the pair for "milk"
    is skipped with a warning, "cooked rice" still reaches the entry of
    "rice", and the candidate "milk" is still added. *)
Lemma unknown_slug_skipped_witness :
  index_get "milk" [rice_entry] = None /\
  In (Warning_slug_not_found "milk")
     (snd (main Top200 (fst top200_milk_patch) [milk_candidate] [rice_entry])) /\
  covered (fst (main Top200 (fst top200_milk_patch) [milk_candidate]
                     [rice_entry]))
          "rice" (strs ["cooked rice"]) /\
  covered (fst (main Top200 (fst top200_milk_patch) [milk_candidate]
                     [rice_entry]))
          "milk" (new_surfaceForms milk_candidate) /\
  map surfaceForms
      (fst (main Top200 (fst top200_milk_patch) [milk_candidate] [rice_entry]))
  = [new_surfaceForms milk_candidate; strs ["rice"; "cooked rice"]].
Proof.
  assert (H : index_get "milk" [rice_entry] = None) by reflexivity.
  destruct (unknown_slug_skipped Top200 []
              "milk" (strs ["skim milk"; "whole milk"; "2% milk"; "low-fat milk"])
              [("rice" : str, strs ["cooked rice"])] [milk_candidate]
              [rice_entry] H)
    as (_ & (out1 & out2 & _ & E2) & C1 & C2).
  change ([] ++ ("milk" : str,
                 strs ["skim milk"; "whole milk"; "2% milk"; "low-fat milk"])
             :: [("rice" : str, strs ["cooked rice"])])
    with (fst top200_milk_patch) in *.
  split; [exact H|].
  split; [rewrite E2; apply in_or_app; right; left; reflexivity|].
  split; [apply C1; [left; reflexivity | discriminate]|].
  split; [apply (C2 milk_candidate); left; reflexivity|].
  vm_compute; reflexivity.
Defined.

(** ** The two enrichers *)

Lemma patch_prep_words :
  forall t,
    set_mem t (strs ["chopped"; "diced"; "minced"; "sliced"; "shredded";
                     "peeled"; "seeded"; "grated"; "crushed"; "roasted";
                     "toasted"; "smoked"; "melted"; "softened"])
    = set_mem t PREP_WORDS && negb (set_mem t PREP_WORDS_missing).
Proof.
  intro t.
  match goal with |- ?a = _ => destruct a eqn:E end.
  - apply set_mem_In in E; simpl in E.
    repeat (destruct E as [<-|E]; [vm_compute; reflexivity|]).
    destruct E.
  - destruct (set_mem t PREP_WORDS_missing) eqn:M;
      [rewrite andb_false_r; reflexivity|].
    rewrite andb_true_r; symmetry; apply set_mem_not_In; intro H.
    simpl in H.
    repeat (destruct H as [<-|H];
            [first [vm_compute in E; discriminate
                   |vm_compute in M; discriminate]|]).
    destruct H.
Qed.

Lemma filter_filter :
  forall (A : Type) (f g : A -> bool) l,
    filter f (filter g l) = filter (fun x => g x && f x) l.
Proof.
  intros A f g l; induction l as [|x l IH]; simpl; [reflexivity|].
  destruct (g x); simpl; [destruct (f x)|]; rewrite IH; reflexivity.
Qed.

(** C5 at a candidate whose surface form holds "mashed".  For the same
    slug, displayName and surfaceForms the copy of the Enricher in the
    patch scripts gives the tokens, the color, form and size modifiers
    and the stub fields the build script's Enricher gives, and of its
    prep modifiers only those outside "blanched", "sauteed", "julienned",
    "cubed", "mashed", "pureed": for "mashed potatoes" the build script
    classifies "mashed" as prep and the patch scripts classify nothing. *)
Theorem patch_enricher_prep_words :
  (forall s d forms id ref eqc,
      let a := enrich_entry (mkRaw s d forms id) in
      let b := enrich_new_entry (mkNew s d forms ref eqc) in
      tokens b = tokens a /\
      color (modifiers b) = color (modifiers a) /\
      form (modifiers b) = form (modifiers a) /\
      size (modifiers b) = size (modifiers a) /\
      origin (modifiers b) = origin (modifiers a) /\
      aliases b = aliases a /\
      taxonomy b = taxonomy a /\
      substitutions b = substitutions a /\
      prep (modifiers b)
      = filter (fun t => negb (set_mem t PREP_WORDS_missing))
               (prep (modifiers a)))
  /\
  (prep (modifiers (enrich_entry
                      (mkRaw "mashed-potatoes" "Mashed Potatoes"
                             (strs ["mashed potatoes"]) None)))
   = strs ["mashed"] /\
   prep (modifiers (enrich_new_entry
                      (mkNew "mashed-potatoes" "Mashed Potatoes"
                             (strs ["mashed potatoes"])
                             (mkFdc None None None) None)))
   = []).
Proof.
  split.
  - intros s d forms id ref eqc; cbv zeta.
    repeat split.
    unfold enrich_entry, enrich_new_entry; cbn [prep modifiers derive_modifiers
      raw_surfaceForms new_surfaceForms].
    fold (derive_tokens forms).
    rewrite filter_filter; apply filter_ext; intro t; apply patch_prep_words.
  - split; vm_compute; reflexivity.
Qed.

(** ** Case-insensitive uniqueness of surface forms *)

(** Every record of the merge has case-insensitively distinct forms. *)
Lemma merge_forms_unique :
  forall raw1 raw2 ms m,
    merge_entries (load_s1 raw1) (load_s2 raw2) = Some ms ->
    In m ms -> forms_unique (raw_surfaceForms m).
Proof.
  intros raw1 raw2 ms m Hms Hin.
  pose proof (merge_loop_spec _ _ _ _ Hms) as F.
  destruct (Forall2_In_r _ _ _ _ _ m F Hin) as [x [_ Hx]].
  unfold merge_slug in Hx.
  destruct (dict_get x (load_s1 raw1)) as [e1|] eqn:G1,
           (dict_get x (load_s2 raw2)) as [e2|] eqn:G2;
    inversion Hx; subst; simpl.
  - apply dedup_ordered_normalized.
  - apply (load_s1_normalized raw1 x e1 G1).
  - apply (load_s2_normalized raw2 x e2 G2).
Qed.

Lemma append_keeps_unique :
  forall sfs fs,
    forms_unique sfs ->
    forms_unique (sfs ++ forms_to_add (set_of_list (map lower sfs)) fs).
Proof.
  intros sfs fs H; unfold forms_unique in *; rewrite map_app.
  destruct (forms_to_add_fresh fs (set_of_list (map lower sfs))) as [N F].
  apply NoDup_app; [exact H | exact N|].
  intros a Ha Hb; apply in_map_iff in Hb; destruct Hb as [b [E Hb]].
  apply (F b Hb); apply set_of_list_In; rewrite E; exact Ha.
Qed.

Lemma index_update_Forall :
  forall (Q : entry -> Prop) s e' L,
    Forall Q L -> Q e' -> Forall Q (index_update s e' L).
Proof.
  intros Q s e' L H He'; induction H as [|a L Ha HL IH]; simpl; [constructor|].
  destruct (index_get s L); [constructor; assumption|].
  destruct (has_slug s a); constructor; assumption.
Qed.

Lemma add_surface_forms_unique :
  forall s fs L L' n,
    Forall (fun e => forms_unique (surfaceForms e)) L ->
    add_surface_forms s fs L = Some (L', n) ->
    Forall (fun e => forms_unique (surfaceForms e)) L'.
Proof.
  intros s fs L L' n HL H.
  destruct (index_get s L) as [e|] eqn:G;
    [|apply (add_surface_forms_none s fs) in G; congruence].
  rewrite (add_surface_forms_some s fs L e G) in H; inversion H; subst.
  apply index_update_Forall; [exact HL|]; simpl.
  apply append_keeps_unique.
  rewrite Forall_forall in HL; apply HL, (index_get_In s L e G).
Qed.

(** A patch keeps the forms of every entry case-insensitively distinct
    when the base has them so and every new-entry candidate lists its own
    forms so. *)
Lemma apply_patch_forms_unique :
  forall sc P O,
    Forall (fun e => forms_unique (surfaceForms e)) O ->
    Forall (fun c => forms_unique (new_surfaceForms c)) (snd P) ->
    Forall (fun e => forms_unique (surfaceForms e)) (apply_patch sc P O).
Proof.
  intros sc [ps cs] O HO HC; rewrite apply_patch_eq.
  eapply Permutation_Forall; [apply sort_by_perm|].
  unfold patched; simpl in *.
  assert (H1 : Forall (fun e => forms_unique (surfaceForms e))
                      (fold_left patch_pair_ontology ps O)).
  { clear HC; revert O HO; induction ps as [|[s fs] ps IH]; intros O HO;
      simpl; [exact HO|].
    apply IH; unfold patch_pair_ontology; simpl.
    destruct (add_surface_forms s fs O) as [[L' n]|] eqn:E; [|exact HO].
    eapply add_surface_forms_unique; eassumption. }
  revert H1; generalize (fold_left patch_pair_ontology ps O).
  induction HC as [|c cs Hc HC IH]; intros L HL; simpl; [exact HL|].
  apply IH; unfold add_candidate_ontology.
  destruct (add_surface_forms (new_slug c) (new_surfaceForms c) L)
    as [[L' n]|] eqn:E.
  - eapply add_surface_forms_unique; eassumption.
  - apply Forall_app; split; [exact HL|].
    constructor; [exact Hc | constructor].
Qed.

(** C8 at a new-entry candidate that lists "Butter" and "butter": its slug
    is absent from the ontology, so it is inserted with both forms, which
    are equal up to case. *)
Theorem new_entry_forms_not_deduplicated :
  exists e,
    apply_patch Top200 ([], [butter_candidate]) [] = [e] /\
    surfaceForms e = strs ["Butter"; "butter"] /\
    ~ NoDup (map lower (surfaceForms e)).
Proof.
  eexists; split; [vm_compute; reflexivity|].
  split; [reflexivity|].
  intro N; vm_compute in N.
  inversion N as [|x l Hx _]; apply Hx; left; reflexivity.
Qed.

(* ================================================================== *)
(** * Part III: further properties of the code                          *)
(* ================================================================== *)

(** ** The shape of a slug *)

Lemma rstrip_by_last :
  forall p s r c, rstrip_by p s = r ++ [c] -> p c = false.
Proof.
  intros p; induction s as [|a s IH]; intros r c H; simpl in H.
  - destruct r; discriminate.
  - destruct (rstrip_by p s) as [|b t] eqn:E.
    + destruct (p a) eqn:Ea; [destruct r; discriminate|].
      destruct r as [|x r]; [inversion H; subst; exact Ea|].
      inversion H as [[E1 E2]]; destruct r; discriminate.
    + destruct r as [|x r]; [discriminate|].
      inversion H as [[E1 E2]]; apply (IH r c); exact E2.
Qed.

Lemma strip_by_ends :
  forall p s,
    (forall c r, strip_by p s = c :: r -> p c = false) /\
    (forall r c, strip_by p s = r ++ [c] -> p c = false).
Proof.
  intros p s; unfold strip_by; split.
  - intros c r H; destruct (rstrip_by_head _ _ _ _ H) as [r' Hr'].
    apply (lstrip_by_head p s c r' Hr').
  - intros r c H; apply (rstrip_by_last p _ r c H).
Qed.

(** X1.  Every slug [slugify] returns is made of the characters a-z, 0-9
    and the hyphen only, has no two hyphens in a row, and neither starts
    nor ends with a hyphen. *)
Theorem slugify_shape :
  forall text,
    Forall (fun c => is_slug_char c = true) (slugify text) /\
    no_run is_hyphen (slugify text) /\
    (forall c r, slugify text = c :: r -> is_hyphen c = false) /\
    (forall r c, slugify text = r ++ [c] -> is_hyphen c = false).
Proof.
  intro text; split; [apply slugify_chars|].
  split; [apply slugify_no_run|].
  unfold slugify, strip_hyphens; apply strip_by_ends.
Qed.

Lemma lower_char_idem : forall c, lower_char (lower_char c) = lower_char c.
Proof. intro c; all_chars c. Qed.

Lemma lower_idem : forall s, lower (lower s) = lower s.
Proof.
  induction s as [|c s IH]; simpl; [reflexivity|].
  rewrite lower_char_idem; f_equal; exact IH.
Qed.

(** X2.  [slugify] ignores the case of its input and the whitespace
    around it: lower-casing or trimming the text first gives the same
    slug. *)
Theorem slugify_ignores_case_and_padding :
  forall text,
    slugify (lower text) = slugify text /\
    slugify (strip text) = slugify text.
Proof.
  intro text; unfold slugify; split.
  - rewrite lower_idem; reflexivity.
  - rewrite <- strip_lower, strip_idem; reflexivity.
Qed.

(** ** [dedup_ordered] as an operation *)

Lemma dedup_from_complete :
  forall items seen item,
    In item items -> strip item <> [] ->
    In (lower (strip item)) seen \/
    In (lower (strip item)) (map lower (dedup_from seen items)).
Proof.
  induction items as [|i rest IH]; intros seen item; simpl; [intros []|].
  intros [->|Hin] Hne.
  - rewrite strip_lower.
    assert (T : truthy_str (lower (strip item)) = true).
    { rewrite truthy_lower; apply truthy_nonempty; exact Hne. }
    rewrite T; simpl.
    destruct (set_mem (lower (strip item)) seen) eqn:M; simpl.
    + left; apply set_mem_In; exact M.
    + right; left; reflexivity.
  - destruct (truthy_str (strip (lower i)) && negb (set_mem (strip (lower i)) seen)).
    + destruct (IH (set_add (strip (lower i)) seen) item Hin Hne) as [H|H].
      * apply set_add_In in H; destruct H as [H|H]; [|left; exact H].
        right; simpl; left; rewrite <- strip_lower; symmetry; exact H.
      * right; simpl; right; exact H.
    + apply IH; assumption.
Qed.

(** X3.  [dedup_ordered] returns trimmed, non-empty items of its input,
    no two of them equal after lower-casing, and loses nothing: every
    input item that is not blank is there up to case and padding. *)
Theorem dedup_ordered_sound_complete :
  forall items,
    (forall d, In d (dedup_ordered items) ->
               d <> [] /\ exists item, In item items /\ d = strip item) /\
    NoDup (map lower (dedup_ordered items)) /\
    (forall item, In item items -> strip item <> [] ->
                  In (lower (strip item)) (map lower (dedup_ordered items))).
Proof.
  intro items; rewrite dedup_ordered_eq.
  destruct (dedup_from_spec items []) as (F & N & _ & O).
  split; [|split; [exact N|]].
  - intros d Hd; split; [|apply O, Hd].
    rewrite Forall_forall in F; apply (F d Hd).
  - intros item Hin Hne.
    destruct (dedup_from_complete items [] item Hin Hne) as [[]|H]; exact H.
Qed.

(** X4.  [dedup_ordered] is idempotent: a list it returned is returned
    unchanged. *)
Theorem dedup_ordered_idempotent :
  forall items, dedup_ordered (dedup_ordered items) = dedup_ordered items.
Proof.
  intro items.
  rewrite (dedup_ordered_eq (dedup_ordered items)).
  rewrite dedup_from_filter by apply dedup_ordered_normalized.
  apply filter_all, Forall_forall; intros f _; reflexivity.
Qed.

(** ** Equivalence classes and modifiers *)

Lemma strip_suffix_prefix :
  forall base suf, exists t, base = strip_suffix base suf ++ t.
Proof.
  intros base suf; unfold strip_suffix.
  destruct (endswith base suf).
  - exists (skipn (length base - length suf) base).
    symmetry; apply firstn_skipn.
  - exists []; symmetry; apply app_nil_r.
Qed.

Lemma equivalence_class_prefix_aux :
  forall l slug, exists t, slug = fold_left strip_suffix l slug ++ t.
Proof.
  induction l as [|suf l IH]; intro slug; simpl.
  - exists []; symmetry; apply app_nil_r.
  - destruct (IH (strip_suffix slug suf)) as [t Ht].
    destruct (strip_suffix_prefix slug suf) as [u Hu].
    exists (t ++ u); rewrite app_assoc, <- Ht; exact Hu.
Qed.

(** X5.  The equivalence class is always an initial segment of the slug:
    the derivation only ever drops a tail of it. *)
Theorem equivalence_class_is_prefix :
  forall slug, exists t, slug = slug_to_equivalence_class slug ++ t.
Proof.
  intro slug; apply (equivalence_class_prefix_aux suffixes slug).
Qed.

Lemma StronglySorted_filter :
  forall (A : Type) (R : A -> A -> Prop) (f : A -> bool) l,
    StronglySorted R l -> StronglySorted R (filter f l).
Proof.
  intros A R f l H; induction H as [|a l Hl IH Ha]; simpl; [constructor|].
  destruct (f a); [|exact IH].
  constructor; [exact IH|].
  rewrite Forall_forall in *; intros x Hx; apply Ha.
  apply filter_In in Hx; tauto.
Qed.

Ltac lexicon_cases H :=
  apply set_mem_In in H; simpl in H;
  repeat (destruct H as [<-|H]; [vm_compute; reflexivity|]);
  destruct H.

Lemma lexicons_exclusive :
  forall t,
    (set_mem t COLOR_WORDS = true ->
     set_mem t FORM_WORDS || set_mem t PREP_WORDS || set_mem t SIZE_WORDS
     = false) /\
    (set_mem t FORM_WORDS = true ->
     set_mem t PREP_WORDS || set_mem t SIZE_WORDS = false) /\
    (set_mem t PREP_WORDS = true -> set_mem t SIZE_WORDS = false).
Proof.
  intro t; repeat split; intro H; lexicon_cases H.
Qed.

Lemma filter_disjoint :
  forall (f g : str -> bool) l,
    (forall t, f t = true -> g t = false) ->
    disjoint (filter f l) (filter g l).
Proof.
  intros f g l H t Hf Hg.
  apply filter_In in Hf, Hg; destruct Hf as [_ Hf], Hg as [_ Hg].
  rewrite (H t Hf) in Hg; discriminate.
Qed.

Lemma derive_modifiers_spec :
  forall tokens,
    StronglySorted str_lt tokens ->
    modifiers_of tokens (derive_modifiers tokens).
Proof.
  intros tokens H; unfold modifiers_of, derive_modifiers; simpl.
  repeat split;
    try (apply StronglySorted_filter; exact H);
    try (apply incl_filter);
    apply filter_disjoint; intros t Ht;
    destruct (lexicons_exclusive t) as (C & F & P).
  - specialize (C Ht); apply orb_false_iff in C; destruct C as [C _].
    apply orb_false_iff in C; tauto.
  - specialize (C Ht); apply orb_false_iff in C; destruct C as [C _].
    apply orb_false_iff in C; tauto.
  - specialize (C Ht); apply orb_false_iff in C; tauto.
  - specialize (F Ht); apply orb_false_iff in F; tauto.
  - specialize (F Ht); apply orb_false_iff in F; tauto.
  - exact (P Ht).
Qed.

(** X6.  In every entry the build script's Enricher produces, each of the
    color, form, prep and size modifiers is a strictly ascending selection
    of the entry's tokens, no token is classified twice, and origin is
    empty. *)
Theorem enricher_modifiers :
  forall raw : raw_entry,
    modifiers_of (tokens (enrich_entry raw)) (modifiers (enrich_entry raw)).
Proof.
  intro raw; simpl; apply derive_modifiers_spec.
  apply (derive_tokens_spec (raw_surfaceForms raw)).
Qed.

(** ** The loaders *)

Lemma dict_set_keys_In :
  forall (V : Type) k (v : V) d x,
    In x (dict_keys (dict_set k v d)) <-> x = k \/ In x (dict_keys d).
Proof.
  intros V k v d x; induction d as [|[k' v'] d IH]; simpl.
  - intuition.
  - destruct (str_eqb k k') eqn:E; simpl.
    + apply str_eqb_eq in E; subst; intuition.
    + rewrite IH; intuition.
Qed.

Lemma dict_set_keys_NoDup :
  forall (V : Type) k (v : V) d,
    NoDup (dict_keys d) -> NoDup (dict_keys (dict_set k v d)).
Proof.
  intros V k v d H; induction d as [|[k' v'] d IH]; simpl.
  - repeat constructor; intros [].
  - simpl in H; inversion H as [|? ? Hn Hd]; subst.
    destruct (str_eqb k k') eqn:E; simpl.
    + apply str_eqb_eq in E; subst; constructor; assumption.
    + constructor; [|apply IH; exact Hd].
      rewrite dict_set_keys_In; intros [F|F]; [|contradiction].
      apply str_eqb_neq in E; congruence.
Qed.

Section FoldDictSetKeys.
Context {A V : Type} (k : A -> str) (v : A -> V).

Let step (d : dict V) (it : A) : dict V := dict_set (k it) (v it) d.

Lemma fold_dict_set_NoDup :
  forall items init,
    NoDup (dict_keys init) -> NoDup (dict_keys (fold_left step items init)).
Proof.
  induction items as [|it items IH]; intros init H; simpl; [exact H|].
  apply IH, dict_set_keys_NoDup, H.
Qed.

Lemma fold_dict_set_origin :
  forall items init x e,
    dict_get x (fold_left step items init) = Some e ->
    dict_get x init = Some e \/ exists it, In it items /\ k it = x /\ e = v it.
Proof.
  induction items as [|it items IH]; intros init x e H; simpl in *; [auto|].
  destruct (IH _ x e H) as [G|[it' [Hin [Hk Hv]]]].
  - unfold step in G.
    destruct (str_eqb x (k it)) eqn:E.
    + apply str_eqb_eq in E; subst x.
      rewrite dict_get_set_same in G; inversion G; subst.
      right; exists it; auto.
    + apply str_eqb_neq in E.
      rewrite dict_get_set_other in G by exact E; auto.
  - right; exists it'; auto.
Qed.
End FoldDictSetKeys.

(** X7.  The map [load_s1] builds has each slug once; every record in it
    is the record of some item of the input, is keyed by its own slug, the
    slug of the item's normalized name, and is normalized: trimmed,
    non-empty, case-insensitively distinct surface forms and an fdc id
    that is absent or positive. *)
Theorem load_s1_records :
  forall raw,
    NoDup (dict_keys (load_s1 raw)) /\
    forall x e,
      dict_get x (load_s1 raw) = Some e ->
      (exists item, In item raw /\ e = s1_record item) /\
      raw_slug e = x /\ normalized_entry e.
Proof.
  intro raw; split.
  - apply (fold_dict_set_NoDup (fun item => slugify (normalized_name item))
                               s1_record raw []); constructor.
  - intros x e H; split; [|split].
    + destruct (fold_dict_set_origin
                  (fun item => slugify (normalized_name item)) s1_record
                  raw [] x e H) as [G|[it [Hin [Hk Hv]]]]; [discriminate|].
      exists it; auto.
    + destruct (fold_dict_set_origin
                  (fun item => slugify (normalized_name item)) s1_record
                  raw [] x e H) as [G|[it [Hin [Hk Hv]]]]; [discriminate|].
      subst; reflexivity.
    + apply (load_s1_normalized raw x e H).
Qed.

(** X8.  The same of [load_s2], whose records are keyed by the slug the
    item carries: it is taken as it is, not slugified. *)
Theorem load_s2_records :
  forall raw,
    NoDup (dict_keys (load_s2 raw)) /\
    forall x e,
      dict_get x (load_s2 raw) = Some e ->
      (exists item, In item raw /\ e = s2_record item /\ s2_slug item = x) /\
      raw_slug e = x /\ normalized_entry e.
Proof.
  intro raw; split.
  - apply (fold_dict_set_NoDup s2_slug s2_record raw []); constructor.
  - intros x e H.
    destruct (fold_dict_set_origin s2_slug s2_record raw [] x e H)
      as [G|[it [Hin [Hk Hv]]]]; [discriminate|].
    split; [exists it; auto | split].
    + subst; reflexivity.
    + apply (load_s2_normalized raw x e H).
Qed.

(** X9.  When several items of synonyms-1.json have the same slug, the
    map holds the record of the last of them. *)
Theorem load_s1_last_wins :
  forall before item after,
    (forall item', In item' after ->
                   slugify (normalized_name item')
                   <> slugify (normalized_name item)) ->
    dict_get (slugify (normalized_name item))
             (load_s1 (before ++ item :: after))
    = Some (s1_record item).
Proof. exact load_s1_last. Qed.

(** X9 on two items whose names differ in case only. *)
Lemma load_s1_last_wins_witness :
  dict_get "olive-oil"
           (load_s1 [mkS1 "Olive Oil" None None (JInt 1);
                     mkS1 "olive oil" (Some ("Olive oil" : str)) None JNull])
  = Some (mkRaw "olive-oil" "Olive oil" (strs ["Olive oil"]) None).
Proof.
  apply (load_s1_last_wins
           [mkS1 "Olive Oil" None None (JInt 1)]
           (mkS1 "olive oil" (Some ("Olive oil" : str)) None JNull) []).
  intros item' [].
Defined.

(** ** The merge as a whole *)

Lemma merge_loop_slugs :
  forall s1 s2 slugs ms,
    Forall2 (fun x m => merge_slug s1 s2 x = Some m) slugs ms ->
    map raw_slug ms = slugs.
Proof.
  intros s1 s2 slugs ms H; induction H as [|x m slugs ms Hx H IH]; simpl;
    [reflexivity|].
  rewrite IH, (merge_slug_slug _ _ _ _ Hx); reflexivity.
Qed.

(** X10.  [merge_entries] never fails, and the slugs of the records it
    returns are strictly ascending (so each slug occurs once) and are
    exactly the slugs that occur in either map. *)
Theorem merge_entries_slugs :
  forall s1 s2 : dict raw_entry,
    exists ms,
      merge_entries s1 s2 = Some ms /\
      StronglySorted str_lt (map raw_slug ms) /\
      forall x, In x (map raw_slug ms)
                <-> In x (dict_keys s1) \/ In x (dict_keys s2).
Proof.
  intros s1 s2; destruct (merge_entries_total s1 s2) as [ms Hms].
  exists ms; split; [exact Hms|].
  rewrite (merge_loop_slugs s1 s2 _ ms (merge_loop_spec _ _ _ _ Hms)).
  split; [apply sorted_strict, set_of_list_NoDup | apply all_slugs_In].
Qed.

(** X11.  A slug that only one of the two maps holds is merged to that
    map's record, with its displayName, surfaceForms and fdc id
    unchanged. *)
Theorem merge_single_source :
  forall (s1 s2 : dict raw_entry) x e,
    (dict_get x s1 = Some e /\ dict_get x s2 = None) \/
    (dict_get x s1 = None /\ dict_get x s2 = Some e) ->
    exists ms m,
      merge_entries s1 s2 = Some ms /\ In m ms /\
      (forall m', In m' ms -> raw_slug m' = x -> m' = m) /\
      m = mkRaw x (raw_displayName e) (raw_surfaceForms e) (raw_fdcId e).
Proof.
  intros s1 s2 x e H.
  destruct (merge_entries_slug s1 s2 x
              (mkRaw x (raw_displayName e) (raw_surfaceForms e) (raw_fdcId e)))
    as [ms (Hms & Hin & Hu)].
  { unfold merge_slug; destruct H as [[-> ->]|[-> ->]]; reflexivity. }
  eauto 6.
Qed.

(** X11 on Source A alone holding "tomato". *)
Lemma merge_single_source_witness :
  exists ms m,
    merge_entries (load_s1 sample_source_a) (load_s2 []) = Some ms /\
    In m ms /\
    m = mkRaw "tomato" "Tomato" (strs ["Tomato"; "tomatoes"; "Love Apple"])
              (Some 7%Z).
Proof.
  destruct (merge_single_source
              (load_s1 sample_source_a) (load_s2 []) "tomato"
              (mkRaw "tomato" "Tomato"
                     (strs ["Tomato"; "tomatoes"; "Love Apple"]) (Some 7%Z)))
    as (ms & m & H1 & H2 & _ & H3).
  - left; split; vm_compute; reflexivity.
  - exists ms, m; repeat split; assumption.
Defined.

Lemma py_or_positive :
  forall a b n,
    (forall i, a = Some i -> (0 < i)%Z) ->
    (forall i, b = Some i -> (0 < i)%Z) ->
    py_or a b = Some n -> (0 < n)%Z.
Proof.
  intros a b n Ha Hb; rewrite (py_or_normalized a b Ha).
  destruct a as [i|]; intro H; [inversion H; subst; apply Ha; reflexivity|].
  apply Hb, H.
Qed.

Lemma merge_slug_normalized :
  forall s1 s2 x m,
    normalized_map s1 -> normalized_map s2 ->
    merge_slug s1 s2 x = Some m -> normalized_entry m.
Proof.
  intros s1 s2 x m N1 N2; unfold merge_slug.
  destruct (dict_get x s1) as [e1|] eqn:G1, (dict_get x s2) as [e2|] eqn:G2;
    intro H; inversion H; subst; clear H.
  - destruct (N1 x e1 G1) as [_ I1]; destruct (N2 x e2 G2) as [_ I2].
    split; simpl; [apply dedup_ordered_normalized|].
    intros n; apply py_or_positive; assumption.
  - destruct (N1 x e1 G1) as [F1 I1]; split; assumption.
  - destruct (N2 x e2 G2) as [F2 I2]; split; assumption.
Qed.

(** X12.  Merging two loaded sources keeps the records normalized: every
    merged record has trimmed, non-empty, case-insensitively distinct
    surface forms and an fdc id that is absent or positive. *)
Theorem merge_keeps_normalized :
  forall raw1 raw2,
    exists ms,
      merge_entries (load_s1 raw1) (load_s2 raw2) = Some ms /\
      Forall normalized_entry ms.
Proof.
  intros raw1 raw2.
  destruct (merge_entries_total (load_s1 raw1) (load_s2 raw2)) as [ms Hms].
  exists ms; split; [exact Hms|].
  pose proof (merge_loop_spec _ _ _ _ Hms) as F.
  apply Forall_forall; intros m Hin.
  destruct (Forall2_In_r _ _ _ _ _ m F Hin) as [x [_ Hx]].
  apply (merge_slug_normalized _ _ x m
           (load_s1_normalized raw1) (load_s2_normalized raw2) Hx).
Qed.

(** ** The build as a whole *)

Lemma enrich_entry_fresh :
  forall raw, normalized_entry raw -> freshly_enriched (enrich_entry raw).
Proof.
  intros raw [F I]; unfold freshly_enriched; simpl.
  repeat split; try reflexivity; try apply F.
  exact I.
Qed.

(** X13.  The build script never fails on loaded sources, and the
    knowledge base it writes has strictly ascending slugs (one entry per
    slug) whose entries all have normalized surface forms, tokens,
    modifiers and equivalenceClass that agree with their own surface forms
    and slug, an fdc id that is absent or positive, and empty stub
    fields. *)
Theorem build_main_invariants :
  forall raw1 raw2,
    exists kb,
      build_main raw1 raw2 = Some kb /\
      StronglySorted str_lt (map slug kb) /\
      Forall freshly_enriched kb.
Proof.
  intros raw1 raw2; unfold build_main.
  destruct (merge_entries_total (load_s1 raw1) (load_s2 raw2)) as [ms Hms].
  pose proof (merge_loop_spec _ _ _ _ Hms) as F.
  exists (map enrich_entry ms); rewrite Hms; split; [reflexivity|].
  split.
  - rewrite map_map; simpl.
    replace (map (fun x => raw_slug x) ms) with (map raw_slug ms)
      by reflexivity.
    rewrite (merge_loop_slugs _ _ _ ms F).
    apply sorted_strict, set_of_list_NoDup.
  - apply Forall_map, Forall_forall; intros m Hin.
    apply enrich_entry_fresh.
    destruct (Forall2_In_r _ _ _ _ _ m F Hin) as [x [_ Hx]].
    apply (merge_slug_normalized _ _ x m
             (load_s1_normalized raw1) (load_s2_normalized raw2) Hx).
Qed.

(** ** Tokens and deduplication *)

Lemma split_from_lstrip :
  forall s, split_from [] (lstrip_by is_space s) = split_from [] s.
Proof.
  induction s as [|c r IH]; [reflexivity|].
  cbn [lstrip_by split_from]; destruct (is_space c) eqn:E; [exact IH|].
  cbn [split_from]; rewrite E; reflexivity.
Qed.

Lemma split_from_cons :
  forall cur c r,
    split_from cur (c :: r)
    = if is_space c
      then match cur with
           | [] => split_from [] r
           | _ => rev cur :: split_from [] r
           end
      else split_from (c :: cur) r.
Proof. reflexivity. Qed.

Lemma split_from_rstrip :
  forall s cur, split_from cur (rstrip_by is_space s) = split_from cur s.
Proof.
  induction s as [|c r IH]; intro cur; [reflexivity|].
  cbn [rstrip_by]; rewrite (split_from_cons cur c r).
  destruct (rstrip_by is_space r) as [|b t] eqn:E.
  - destruct (is_space c) eqn:Ec.
    + destruct cur; rewrite <- IH; reflexivity.
    + rewrite <- IH; cbn [split_from]; rewrite Ec; reflexivity.
  - rewrite (split_from_cons cur c (b :: t)).
    destruct (is_space c); [destruct cur|]; rewrite IH; reflexivity.
Qed.

Lemma split_strip : forall s, split (strip s) = split s.
Proof.
  intro s; unfold split, strip, strip_by.
  rewrite split_from_rstrip; apply split_from_lstrip.
Qed.

Lemma split_lower_strip :
  forall s, split (lower (strip s)) = split (lower s).
Proof. intro s; rewrite <- strip_lower; apply split_strip. Qed.

Lemma token_of_dedup :
  forall items t, token_of (dedup_ordered items) t <-> token_of items t.
Proof.
  intros items t.
  rewrite dedup_ordered_eq.
  destruct (dedup_from_spec items []) as (_ & _ & _ & O).
  unfold token_of; split.
  - intros (sf & w & Hsf & Hw & Ht).
    destruct (O sf Hsf) as [item [Hin ->]].
    rewrite split_lower_strip in Hw; exists item, w; auto.
  - intros (sf & w & Hsf & Hw & Ht).
    assert (Hne : strip sf <> []).
    { intro E; rewrite <- split_lower_strip, E in Hw; destruct Hw. }
    destruct (dedup_from_complete items [] sf Hsf Hne) as [[]|H].
    apply in_map_iff in H; destruct H as [d [Ed Hd]].
    exists d, w; split; [exact Hd|]; split; [|exact Ht].
    rewrite Ed, split_lower_strip; exact Hw.
Qed.

(** X14.  Deduplicating surface forms never costs a token: the tokens
    derived from [dedup_ordered items] are the tokens derived from
    [items]. *)
Theorem derive_tokens_dedup :
  forall items, derive_tokens (dedup_ordered items) = derive_tokens items.
Proof.
  intro items; apply derive_tokens_unique.
  - apply (derive_tokens_spec (dedup_ordered items)).
  - intro t; rewrite <- token_of_dedup.
    apply (derive_tokens_spec (dedup_ordered items)).
Qed.

(** ** What a patch run leaves behind *)

Lemma index_get_none_iff :
  forall s L, index_get s L = None <-> ~ In s (map slug L).
Proof.
  intros s L; induction L as [|a L IH]; simpl; [tauto|].
  destruct (index_get s L) as [e|].
  - split; [discriminate|].
    intro H; assert (N : ~ In s (map slug L))
      by (intro F; apply H; right; exact F).
    apply IH in N; discriminate.
  - destruct (has_slug s a) eqn:E.
    + apply has_slug_eq in E; split; [discriminate|].
      intro H; exfalso; apply H; left; exact E.
    + split; [|reflexivity].
      intros _ [F|F]; [|apply (proj1 IH eq_refl F)].
      apply has_slug_eq in F; congruence.
Qed.

Lemma index_update_slugs :
  forall s e' L, slug e' = s -> map slug (index_update s e' L) = map slug L.
Proof.
  intros s e' L H; induction L as [|a L IH]; simpl; [reflexivity|].
  destruct (index_get s L); simpl; [rewrite IH; reflexivity|].
  destruct (has_slug s a) eqn:E; simpl; [|reflexivity].
  apply has_slug_eq in E; congruence.
Qed.

Lemma add_surface_forms_slugs :
  forall s fs L L' n,
    add_surface_forms s fs L = Some (L', n) -> map slug L' = map slug L.
Proof.
  intros s fs L L' n H.
  destruct (index_get s L) as [e|] eqn:G;
    [|apply (add_surface_forms_none s fs) in G; congruence].
  rewrite (add_surface_forms_some s fs L e G) in H; inversion H; subst.
  apply index_update_slugs; simpl; apply (index_get_slug s L e G).
Qed.

Lemma patched_slugs_NoDup :
  forall P O, NoDup (map slug O) -> NoDup (map slug (patched P O)).
Proof.
  intros [ps cs] O H; unfold patched; simpl.
  assert (H1 : NoDup (map slug (fold_left patch_pair_ontology ps O))).
  { revert O H; induction ps as [|[s fs] ps IH]; intros O H; simpl;
      [exact H|].
    apply IH; unfold patch_pair_ontology; simpl.
    destruct (add_surface_forms s fs O) as [[L' n]|] eqn:E; [|exact H].
    rewrite (add_surface_forms_slugs s fs O L' n E); exact H. }
  revert H1; generalize (fold_left patch_pair_ontology ps O).
  induction cs as [|c cs IH]; intros L HL; simpl; [exact HL|].
  apply IH; unfold add_candidate_ontology.
  destruct (add_surface_forms (new_slug c) (new_surfaceForms c) L)
    as [[L' n]|] eqn:E.
  - rewrite (add_surface_forms_slugs _ _ L L' n E); exact HL.
  - apply add_surface_forms_none in E; apply index_get_none_iff in E.
    rewrite map_app; simpl.
    apply NoDup_app; [exact HL | repeat constructor; intros [] |].
    intros a Ha [<-|[]]; contradiction.
Qed.

Lemma Sorted_map_slug :
  forall L : list entry,
    Sorted (key_le slug) L ->
    Sorted (fun a b => str_leb a b = true) (map slug L).
Proof.
  intros L H; induction H as [|a L HL IH Ha]; simpl; [constructor|].
  constructor; [exact IH|].
  destruct Ha; simpl; constructor; assumption.
Qed.

(** X15.  The ontology a patch run writes is sorted by slug; and when the
    ontology read has each slug once, so has the one written: its slugs
    are strictly ascending. *)
Theorem patch_output_sorted :
  forall sc P O,
    Sorted (key_le slug) (apply_patch sc P O) /\
    (NoDup (map slug O) ->
     StronglySorted str_lt (map slug (apply_patch sc P O))).
Proof.
  intros sc P O; rewrite apply_patch_eq; split.
  - apply sort_by_sorted.
  - intro H; apply Sorted_NoDup_strict.
    + apply Sorted_map_slug, sort_by_sorted.
    + eapply Permutation_NoDup;
        [apply Permutation_map, sort_by_perm | apply patched_slugs_NoDup, H].
Qed.

(** X15 on the patch for "milk" and an ontology holding "rice". *)
Lemma patch_output_sorted_witness :
  StronglySorted str_lt
    (map slug (apply_patch Top200 top200_milk_patch [rice_entry])).
Proof.
  apply (proj2 (patch_output_sorted Top200 top200_milk_patch [rice_entry])).
  repeat constructor; intros [].
Defined.

(** X16.  A patch run reaches what it is for: in the ontology written,
    the entry of every pair whose slug the ontology read had lists each
    form of the pair, and every new-entry candidate's slug has an entry
    that lists each form of the candidate, all up to case. *)
Theorem patch_reaches_every_form :
  forall sc (ps : dict (list str)) (cs : list new_entry) O,
    (forall s fs, In (s, fs) ps -> index_get s O <> None ->
                  covered (apply_patch sc (ps, cs) O) s fs) /\
    (forall c, In c cs ->
               covered (apply_patch sc (ps, cs) O)
                       (new_slug c) (new_surfaceForms c)).
Proof.
  intros sc ps cs O; rewrite apply_patch_eq; unfold patched; simpl.
  split.
  - intros s fs Hin Hs.
    eapply covered_same_index; [apply index_get_sort_by|].
    eapply covered_extends;
      [apply (step1_covers ps O s fs Hin Hs)
      |apply (fold_extends _ _
                (fun L a => proj1 (add_candidate_ontology_step L a)))].
  - intros c Hc.
    eapply covered_same_index; [apply index_get_sort_by|].
    apply (step2_covers cs _ c Hc).
Qed.

Lemma already_has_covered :
  forall O s fs, already_has O s fs = true -> covered O s fs.
Proof.
  intros O s fs H; unfold already_has in H.
  destruct (index_get s O) as [e|] eqn:G; [|discriminate].
  exists e; split; [exact G|].
  rewrite forallb_forall in H; intros f Hf; apply set_mem_In, H, Hf.
Qed.

(** X17.  A patch that offers nothing new changes no entry and adds
    none: the ontology written is the ontology read, sorted by slug. *)
Theorem patch_nothing_new :
  forall sc P O,
    nothing_new P O = true -> apply_patch sc P O = sort_by slug O.
Proof.
  intros sc [ps cs] O H; unfold nothing_new in H; simpl in H.
  apply andb_true_iff in H; destruct H as [H1 H2].
  rewrite forallb_forall in H1, H2.
  rewrite apply_patch_eq; f_equal; unfold patched; simpl.
  rewrite step1_identity.
  - apply step2_identity; intros c Hc; apply already_has_covered, H2, Hc.
  - intros s fs Hin; specialize (H1 _ Hin); simpl in H1.
    destruct (index_get s O) eqn:G; [right | left; reflexivity].
    apply already_has_covered; exact H1.
Qed.

(** X17 on a patch that repeats "rice" in other casings. *)
Lemma patch_nothing_new_witness :
  apply_patch Next100 rice_repeat_patch [rice_entry] = [rice_entry].
Proof.
  apply (patch_nothing_new Next100 rice_repeat_patch [rice_entry]).
  vm_compute; reflexivity.
Defined.

(** X18.  A patch run keeps surface forms case-insensitively distinct
    inside every entry, provided the ontology read has them so and every
    new-entry candidate lists its own forms so. *)
Theorem patch_keeps_forms_unique :
  forall sc P O,
    Forall (fun e => forms_unique (surfaceForms e)) O ->
    Forall (fun c => forms_unique (new_surfaceForms c)) (snd P) ->
    Forall (fun e => forms_unique (surfaceForms e)) (apply_patch sc P O).
Proof. exact apply_patch_forms_unique. Qed.

Lemma distinctb_NoDup : forall l, distinctb l = true -> NoDup l.
Proof.
  induction l as [|x r IH]; simpl; intro H; [constructor|].
  apply andb_true_iff in H; destruct H as [H1 H2].
  constructor; [|apply IH, H2].
  apply set_mem_not_In; destruct (set_mem x r); [discriminate | reflexivity].
Qed.

Lemma forms_unique_check :
  forall (A : Type) (f : A -> list str) l,
    forallb (fun a => distinctb (map lower (f a))) l = true ->
    Forall (fun a => forms_unique (f a)) l.
Proof.
  intros A f l H; rewrite forallb_forall in H.
  apply Forall_forall; intros a Ha; apply distinctb_NoDup, H, Ha.
Qed.

(** X18 on the patch for "milk" and an ontology holding "rice". *)
Lemma patch_keeps_forms_unique_witness :
  Forall (fun e => forms_unique (surfaceForms e))
         (apply_patch Top200 top200_milk_patch [rice_entry]).
Proof.
  apply (patch_keeps_forms_unique Top200 top200_milk_patch [rice_entry]);
    apply forms_unique_check; vm_compute; reflexivity.
Defined.

(** X20.  With the constants they ship, both patch scripts keep surface
    forms case-insensitively distinct inside every entry whenever the
    ontology read has them so: no new-entry descriptor of either script
    lists a form twice. *)
Theorem scripts_keep_forms_unique :
  forall O,
    Forall (fun e => forms_unique (surfaceForms e)) O ->
    Forall (fun e => forms_unique (surfaceForms e))
           (apply_patch Top200
              (top200_SURFACE_FORM_PATCHES, top200_NEW_ENTRIES) O) /\
    Forall (fun e => forms_unique (surfaceForms e))
           (apply_patch Next100
              (next100_SURFACE_FORM_PATCHES, next100_NEW_ENTRIES) O).
Proof.
  intros O H; split; apply apply_patch_forms_unique; try exact H;
    apply forms_unique_check; vm_compute; reflexivity.
Qed.

(** X20 on an ontology holding "rice". *)
Lemma scripts_keep_forms_unique_witness :
  Forall (fun e => forms_unique (surfaceForms e))
         (apply_patch Next100
            (next100_SURFACE_FORM_PATCHES, next100_NEW_ENTRIES) [rice_entry]).
Proof.
  apply (proj2 (scripts_keep_forms_unique [rice_entry]
                  (forms_unique_check entry surfaceForms [rice_entry] eq_refl))).
Defined.

(** ** A candidate with a new slug *)

Lemma add_candidate_ontology_other :
  forall L c s,
    new_slug c <> s ->
    index_get s (add_candidate_ontology L c) = index_get s L.
Proof.
  intros L c s H; unfold add_candidate_ontology.
  assert (N : str_eqb s (new_slug c) = false)
    by (apply str_eqb_neq; congruence).
  destruct (index_get (new_slug c) L) as [e|] eqn:Gc.
  - rewrite (add_surface_forms_some _ (new_surfaceForms c) L e Gc).
    rewrite index_get_update by (apply (index_get_slug _ L e Gc)).
    rewrite N; reflexivity.
  - apply (add_surface_forms_none _ (new_surfaceForms c)) in Gc; rewrite Gc.
    rewrite index_get_app_one.
    destruct (has_slug s (enrich_new_entry c)) eqn:Hs; [|reflexivity].
    apply has_slug_eq in Hs; contradiction.
Qed.

Lemma fold_add_candidate_other :
  forall cs L s,
    (forall c, In c cs -> new_slug c <> s) ->
    index_get s (fold_left add_candidate_ontology cs L) = index_get s L.
Proof.
  induction cs as [|c cs IH]; intros L s H; simpl; [reflexivity|].
  rewrite IH by (intros c' Hc'; apply H; right; exact Hc').
  apply add_candidate_ontology_other, H; left; reflexivity.
Qed.

(** X21.  A new-entry candidate whose slug the ontology read lacks, and
    which is the only candidate with that slug, is written as
    [enrich_new_entry] makes it: with the descriptor's own surface forms,
    fdc and equivalenceClass, whatever the pairs of the patch say. *)
Theorem new_candidate_inserted :
  forall sc ps before c after O,
    index_get (new_slug c) O = None ->
    (forall c', In c' (before ++ after) -> new_slug c' <> new_slug c) ->
    index_get (new_slug c) (apply_patch sc (ps, before ++ c :: after) O)
    = Some (enrich_new_entry c).
Proof.
  intros sc ps before c after O HO Hc.
  rewrite apply_patch_eq, index_get_sort_by; unfold patched; simpl.
  rewrite fold_left_app; simpl.
  rewrite fold_add_candidate_other
    by (intros c' Hc'; apply Hc, in_or_app; right; exact Hc').
  set (A := fold_left add_candidate_ontology before
                      (fold_left patch_pair_ontology ps O)).
  assert (GA : index_get (new_slug c) A = None).
  { unfold A; rewrite fold_add_candidate_other
      by (intros c' Hc'; apply Hc, in_or_app; left; exact Hc').
    apply fold_patch_pair_ontology_index; exact HO. }
  unfold add_candidate_ontology.
  apply (add_surface_forms_none _ (new_surfaceForms c)) in GA; rewrite GA.
  rewrite index_get_app_one.
  assert (T : has_slug (new_slug c) (enrich_new_entry c) = true)
    by (apply has_slug_eq; reflexivity).
  rewrite T; reflexivity.
Qed.

(** X21 on the descriptor of "milk" and an ontology holding "rice". *)
Lemma new_candidate_inserted_witness :
  index_get "milk" (apply_patch Top200 top200_milk_patch [rice_entry])
  = Some (enrich_new_entry milk_candidate).
Proof.
  apply (new_candidate_inserted Top200 (fst top200_milk_patch)
           [] milk_candidate [] [rice_entry]).
  - reflexivity.
  - intros c' [].
Defined.

(** ** The numbers [main] prints *)

Lemma total_surface_forms_from :
  forall L n,
    fold_left (fun n e => n + length (surfaceForms e)) L n
    = n + total_surface_forms L.
Proof.
  unfold total_surface_forms; induction L as [|a L IH]; intro n; simpl.
  - lia.
  - rewrite (IH (n + _)), (IH (length _)); lia.
Qed.

Lemma total_surface_forms_cons :
  forall a L,
    total_surface_forms (a :: L)
    = length (surfaceForms a) + total_surface_forms L.
Proof.
  intros a L; unfold total_surface_forms at 1; simpl.
  apply total_surface_forms_from.
Qed.

Lemma total_surface_forms_update :
  forall s e e' L,
    index_get s L = Some e ->
    total_surface_forms (index_update s e' L) + length (surfaceForms e)
    = total_surface_forms L + length (surfaceForms e').
Proof.
  intros s e e' L; induction L as [|a L IH]; simpl; [discriminate|].
  destruct (index_get s L) as [x|].
  - intro H; rewrite !total_surface_forms_cons.
    specialize (IH H); lia.
  - destruct (has_slug s a); [|discriminate].
    intro H; inversion H; subst; rewrite !total_surface_forms_cons; lia.
Qed.

Lemma add_surface_forms_counts :
  forall s fs L L' n,
    add_surface_forms s fs L = Some (L', n) ->
    length L' = length L /\
    total_surface_forms L' = total_surface_forms L + n.
Proof.
  intros s fs L L' n H.
  destruct (index_get s L) as [e|] eqn:G;
    [|apply (add_surface_forms_none s fs) in G; congruence].
  rewrite (add_surface_forms_some s fs L e G) in H; inversion H; subst.
  split; [apply index_update_length|].
  pose proof (total_surface_forms_update s e
                (set_surfaceForms e
                   (surfaceForms e
                    ++ forms_to_add (set_of_list (map lower (surfaceForms e))) fs))
                L G) as T.
  simpl in T; rewrite length_app in T; lia.
Qed.

Lemma step1_counts :
  forall ps O n out O' n' out',
    fold_left patch_pair ps (O, n, out) = (O', n', out') ->
    length O' = length O /\
    total_surface_forms O' + n = total_surface_forms O + n'.
Proof.
  induction ps as [|[s fs] ps IH]; intros O n out O' n' out'; cbn [fold_left].
  - intro H; inversion H; subst; split; reflexivity.
  - unfold patch_pair at 2.
    destruct (add_surface_forms s fs O) as [[O1 k]|] eqn:E.
    + intro H; destruct (IH _ _ _ _ _ _ H) as [L T].
      destruct (add_surface_forms_counts s fs O O1 k E) as [L1 T1].
      split; [congruence | lia].
    + apply IH.
Qed.

Lemma step2_counts :
  forall sc cs O a out O' a' out',
    fold_left (add_candidate sc) cs (O, a, out) = (O', a', out') ->
    length O' + a = length O + a' /\ a' <= a + length cs.
Proof.
  intro sc; induction cs as [|c cs IH]; intros O a out O' a' out';
    cbn [fold_left].
  - intro H; inversion H; subst; split; simpl; lia.
  - unfold add_candidate at 2.
    destruct (add_surface_forms (new_slug c) (new_surfaceForms c) O)
      as [[O1 k]|] eqn:E.
    + intro H; destruct (IH _ _ _ _ _ _ H) as [L T].
      destruct (add_surface_forms_counts _ _ O O1 k E) as [L1 _].
      simpl; split; [congruence | lia].
    + intro H; destruct (IH _ _ _ _ _ _ H) as [L T].
      rewrite length_app in L; simpl in *; split; lia.
Qed.

(** X22.  The numbers [main] prints agree with what it did: the count of
    surface forms added in step 1 is the growth of the total number of
    surface forms over step 1; the count of entries added is the growth of
    the number of entries, is at most the number of candidates, and the
    total printed at the end is the number of entries written. *)
Theorem main_counts :
  forall sc ps cs O,
    exists o2 n2 o3 a3,
      snd (main sc ps cs O)
      = o2 ++ [Added_surface_forms n2] ++ o3
           ++ [Added_new_entries a3;
               Totals (length O + a3)
                      (count_with_fdc (fst (main sc ps cs O)))
                      (total_surface_forms (fst (main sc ps cs O)));
               Written] /\
      total_surface_forms (fold_left patch_pair_ontology ps O)
      = total_surface_forms O + n2 /\
      length (fst (main sc ps cs O)) = length O + a3 /\
      a3 <= length cs.
Proof.
  intros sc ps cs O; rewrite main_eq.
  pose proof (fold_patch_pair_fst ps O 0 []) as F1.
  destruct (fold_left patch_pair ps (O, 0, [])) as [[O2 n2] o2] eqn:E1.
  destruct (fold_left (add_candidate sc) cs (O2, 0, [])) as [[O3 a3] o3] eqn:E2.
  destruct (step1_counts _ _ _ _ _ _ _ E1) as [L1 T1].
  destruct (step2_counts _ _ _ _ _ _ _ _ E2) as [L2 A2].
  assert (LS : length (sort_by slug O3) = length O + a3).
  { rewrite <- (Permutation_length (sort_by_perm slug O3)); lia. }
  exists o2, n2, o3, a3; simpl in *.
  rewrite LS; subst O2; repeat split; lia.
Qed.

(** ** The numbers the build script prints *)

Lemma set_add_fold_NoDup :
  forall l s,
    NoDup s -> NoDup l ->
    fold_left (fun s x => set_add x s) l s
    = s ++ filter (fun x => negb (set_mem x s)) l.
Proof.
  induction l as [|x r IH]; intros s Hs Hl; simpl.
  - symmetry; apply app_nil_r.
  - inversion Hl as [|? ? Hx Hr]; subst.
    destruct (set_mem x s) eqn:M; simpl.
    + unfold set_add; rewrite M; apply IH; assumption.
    + assert (E : set_add x s = s ++ [x]) by (unfold set_add; rewrite M; reflexivity).
      rewrite E, IH; [|rewrite <- E; apply set_add_NoDup, Hs | exact Hr].
      rewrite <- app_assoc; simpl; f_equal; f_equal.
      apply filter_ext_in; intros y Hy; f_equal.
      rewrite <- E; apply set_mem_add_other.
      intro F; subst; contradiction.
Qed.

Lemma set_of_list_NoDup_id : forall l, NoDup l -> set_of_list l = l.
Proof.
  intros l H; unfold set_of_list.
  rewrite set_add_fold_NoDup by (constructor || exact H); simpl.
  apply filter_all, Forall_forall; intros x _; reflexivity.
Qed.

Lemma set_of_list_app_NoDup :
  forall a b,
    NoDup a -> NoDup b ->
    set_of_list (a ++ b) = a ++ filter (fun x => negb (set_mem x a)) b.
Proof.
  intros a b Ha Hb; unfold set_of_list; rewrite fold_left_app.
  change (fold_left (fun s x => set_add x s) a []) with (set_of_list a).
  rewrite (set_of_list_NoDup_id a Ha).
  apply set_add_fold_NoDup; assumption.
Qed.

Lemma inter_length_sym :
  forall a b,
    NoDup a -> NoDup b ->
    length (filter (fun x => set_mem x b) a)
    = length (filter (fun x => set_mem x a) b).
Proof.
  intros a b Ha Hb; apply Permutation_length, NoDup_Permutation;
    try (apply NoDup_filter; assumption).
  intro x; rewrite !filter_In, !set_mem_In; tauto.
Qed.

(** Inclusion and exclusion on two duplicate-free key lists. *)
Lemma union_inter_length :
  forall a b,
    NoDup a -> NoDup b ->
    length (sorted (set_of_list (a ++ b)))
    + length (set_inter (set_of_list a) (set_of_list b))
    = length a + length b.
Proof.
  intros a b Ha Hb.
  rewrite <- (Permutation_length (sort_by_perm (fun x : str => x) _)).
  rewrite set_of_list_app_NoDup by assumption.
  rewrite (set_of_list_NoDup_id a Ha), (set_of_list_NoDup_id b Hb).
  unfold set_inter; rewrite (inter_length_sym a b Ha Hb), length_app.
  pose proof (filter_length (fun x => set_mem x a) b); lia.
Qed.

Lemma dict_keys_length :
  forall (V : Type) (d : dict V), length (dict_keys d) = length d.
Proof. intros; apply length_map. Qed.

Lemma dict_set_length :
  forall (V : Type) k (v : V) d, length (dict_set k v d) <= S (length d).
Proof.
  intros V k v d; induction d as [|[k' v'] d IH]; simpl; [lia|].
  destruct (str_eqb k k'); simpl; lia.
Qed.

Lemma fold_dict_set_length :
  forall (A V : Type) (k : A -> str) (v : A -> V) items init,
    length (fold_left (fun d it => dict_set (k it) (v it) d) items init)
    <= length init + length items.
Proof.
  intros A V k v; induction items as [|it items IH]; intro init; simpl;
    [lia|].
  specialize (IH (dict_set (k it) (v it) init)).
  pose proof (dict_set_length V (k it) (v it) init); lia.
Qed.

(** X23.  The build script's printed numbers add up: the number of unique
    slugs plus the number of overlapping slugs is the number of entries of
    the first map plus that of the second; neither map has more entries
    than records were read for it; the ontology written has one entry per
    unique slug, and no more entries with an fdc id than entries. *)
Theorem build_counts :
  forall raw1 raw2,
    exists kb n1 n2 u o w t,
      build_main_lines raw1 raw2
      = Some (kb, [Loading_s1; Entries n1; Loading_s2; Entries n2;
                   Merging; Unique_slugs u; Overlapping_slugs o;
                   Enriching; Have_fdc_id w u; Total_surface_forms t;
                   Writing; Done]) /\
      build_main raw1 raw2 = Some kb /\
      u + o = n1 + n2 /\
      n1 <= length raw1 /\ n2 <= length raw2 /\
      length kb = u /\ w <= u.
Proof.
  intros raw1 raw2; unfold build_main_lines, build_main.
  destruct (merge_entries_total (load_s1 raw1) (load_s2 raw2)) as [ms Hms].
  pose proof (Forall2_length (merge_loop_spec _ _ _ _ Hms)) as L.
  rewrite Hms; cbv zeta; rewrite length_map.
  do 7 eexists; split; [reflexivity|]; split; [reflexivity|].
  assert (N1 : NoDup (dict_keys (load_s1 raw1))).
  { apply (fold_dict_set_NoDup (fun item => slugify (normalized_name item))
                               s1_record raw1 []); constructor. }
  assert (N2 : NoDup (dict_keys (load_s2 raw2))).
  { apply (fold_dict_set_NoDup s2_slug s2_record raw2 []); constructor. }
  split.
  - rewrite <- L; unfold all_slugs.
    rewrite (union_inter_length _ _ N1 N2), !dict_keys_length; reflexivity.
  - split; [apply (fold_dict_set_length _ _ _ s1_record raw1 [])|].
    split; [apply (fold_dict_set_length _ _ _ s2_record raw2 [])|].
    split; [apply length_map|].
    unfold count_with_fdc.
    rewrite <- (length_map enrich_entry ms); apply filter_length_le.
Qed.

(** ** Edge cases of the canonicalizer *)

Section Survive.
Variable p : ascii -> bool.

Lemma In_lstrip_by :
  forall s c, In c s -> p c = false -> In c (lstrip_by p s).
Proof.
  induction s as [|a s IH]; simpl; intros c H Hc; [exact H|].
  destruct (p a) eqn:Ea; [|exact H].
  destruct H as [->|H]; [congruence | apply IH; assumption].
Qed.

Lemma In_rstrip_by :
  forall s c, In c s -> p c = false -> In c (rstrip_by p s).
Proof.
  induction s as [|a s IH]; simpl; intros c H Hc; [exact H|].
  destruct H as [->|H].
  - destruct (rstrip_by p s); [rewrite Hc|]; left; reflexivity.
  - specialize (IH c H Hc).
    destruct (rstrip_by p s); [destruct IH | right; exact IH].
Qed.

Lemma In_strip_by :
  forall s c, In c s -> p c = false -> In c (strip_by p s).
Proof.
  intros s c H Hc; unfold strip_by.
  apply In_rstrip_by; [apply In_lstrip_by|]; assumption.
Qed.

Lemma In_re_sub_runs :
  forall rep s c, In c s -> p c = false -> In c (re_sub_runs p rep s).
Proof.
  intros rep; induction s as [|a s IH]; intros c H Hc; [exact H|].
  cbn [re_sub_runs]; destruct H as [->|H].
  - rewrite Hc; left; reflexivity.
  - specialize (IH c H Hc).
    destruct (p a); [|right; exact IH].
    destruct s as [|b s]; [destruct H|].
    destruct (p b); [exact IH | right; exact IH].
Qed.
End Survive.

Lemma alnum_classes :
  forall c,
    is_lower_alnum c = true ->
    is_space c = false /\ is_hyphen c = false /\ is_slug_source_char c = true.
Proof. intro c; all_chars c. Qed.

Lemma slug_char_cases :
  forall c, is_slug_char c = true -> is_hyphen c = false ->
            is_lower_alnum c = true.
Proof. intro c; all_chars c. Qed.

(** A character a-z or 0-9 of the lower-cased text is in the slug. *)
Lemma slugify_keeps_alnum :
  forall text c,
    In c (lower text) -> is_lower_alnum c = true -> In c (slugify text).
Proof.
  intros text c H Hc; destruct (alnum_classes c Hc) as (S & Y & K).
  unfold slugify, strip_hyphens, strip, re_delete_except.
  apply In_strip_by; [|exact Y].
  apply In_re_sub_runs; [|exact Y].
  apply In_re_sub_runs; [|exact S].
  apply filter_In; split; [|exact K].
  apply In_strip_by; assumption.
Qed.

Lemma lstrip_by_incl :
  forall p s c, In c (lstrip_by p s) -> In c s.
Proof.
  intros p; induction s as [|a s IH]; simpl; intros c H; [exact H|].
  destruct (p a); [right; apply IH; exact H | exact H].
Qed.

Lemma rstrip_by_incl :
  forall p s c, In c (rstrip_by p s) -> In c s.
Proof.
  intros p; induction s as [|a s IH]; simpl; intros c H; [exact H|].
  destruct (rstrip_by p s) as [|b t].
  - destruct (p a); [destruct H|].
    destruct H as [->|[]]; left; reflexivity.
  - destruct H as [->|H]; [left; reflexivity | right; apply IH; exact H].
Qed.

Lemma re_sub_runs_incl :
  forall p rep s c, In c (re_sub_runs p rep s) -> c = rep \/ In c s.
Proof.
  intros p rep; induction s as [|a s IH]; intros c H; [destruct H|].
  cbn [re_sub_runs] in H; destruct (p a).
  - destruct s as [|b s]; [destruct H as [<-|[]]; left; reflexivity|].
    destruct (p b).
    + destruct (IH c H) as [E|G]; [left; exact E | right; right; exact G].
    + destruct H as [<-|H]; [left; reflexivity|].
      destruct (IH c H) as [E|G]; [left; exact E | right; right; exact G].
  - destruct H as [->|H]; [right; left; reflexivity|].
    destruct (IH c H) as [E|G]; [left; exact E | right; right; exact G].
Qed.

(** A character of the slug other than the hyphen is a character of the
    lower-cased text. *)
Lemma slugify_from_text :
  forall text c,
    In c (slugify text) -> is_hyphen c = false -> In c (lower text).
Proof.
  intros text c H Hc.
  assert (N : c <> "-"%char) by (intro E; subst; discriminate).
  unfold slugify, strip_hyphens, strip, strip_by, re_delete_except in H.
  apply rstrip_by_incl, lstrip_by_incl in H.
  apply re_sub_runs_incl in H; destruct H as [H|H]; [contradiction|].
  apply re_sub_runs_incl in H; destruct H as [H|H]; [contradiction|].
  apply filter_In in H; destruct H as [H _].
  apply rstrip_by_incl, lstrip_by_incl in H; exact H.
Qed.

(** X24.  [slugify] returns the empty slug for exactly the texts that have
    no letter a-z or digit once lower-cased: every name without one gets
    the same, empty, key. *)
Theorem slugify_empty_iff :
  forall text,
    slugify text = []
    <-> Forall (fun c => is_lower_alnum c = false) (lower text).
Proof.
  intro text; split.
  - intro E; apply Forall_forall; intros c Hc.
    destruct (is_lower_alnum c) eqn:A; [|reflexivity].
    pose proof (slugify_keeps_alnum text c Hc A) as H.
    rewrite E in H; destruct H.
  - intro H; destruct (slugify text) as [|c r] eqn:E; [reflexivity|].
    exfalso.
    assert (Hc : is_slug_char c = true).
    { pose proof (slugify_chars text) as F; rewrite E in F.
      inversion F; assumption. }
    assert (Hh : is_hyphen c = false).
    { unfold slugify, strip_hyphens in E.
      apply (proj1 (strip_by_ends _ _) c r E). }
    pose proof (slug_char_cases c Hc Hh) as A.
    assert (Hin : In c (lower text)).
    { apply slugify_from_text; [rewrite E; left; reflexivity | exact Hh]. }
    rewrite Forall_forall in H; rewrite (H c Hin) in A; discriminate.
Qed.

Lemma suffix_not_all :
  forall base suf,
    suffix_shape suf ->
    (exists c r, base = c :: r /\ is_hyphen c = false) ->
    exists c r, strip_suffix base suf = c :: r /\ is_hyphen c = false.
Proof.
  intros base suf [a [-> Ha]] (c & r & -> & Hc); unfold strip_suffix.
  destruct (endswith (c :: r) ("-"%char :: a)) eqn:E; [|eauto].
  apply endswith_inv in E.
  destruct (firstn (length (c :: r) - length ("-"%char :: a)) (c :: r))
    as [|c' r'] eqn:F.
  - simpl in E; inversion E; subst; discriminate.
  - simpl in E; inversion E; subst; eauto.
Qed.

(** X25.  A non-empty slug that [slugify] returned never gets an empty
    equivalence class: the class begins with the slug's first character. *)
Theorem equivalence_class_of_slug_nonempty :
  forall text c r,
    slugify text = c :: r ->
    exists r', slug_to_equivalence_class (slugify text) = c :: r'.
Proof.
  intros text c r E.
  assert (Hc : is_hyphen c = false).
  { unfold slugify, strip_hyphens in E.
    apply (proj1 (strip_by_ends _ _) c r E). }
  rewrite E; unfold slug_to_equivalence_class.
  assert (G : forall l base,
             Forall suffix_shape l ->
             (exists c0 r0, base = c0 :: r0 /\ is_hyphen c0 = false) ->
             exists c0 r0, fold_left strip_suffix l base = c0 :: r0 /\
                           is_hyphen c0 = false).
  { induction l as [|suf l IH]; intros base Hl Hb; simpl; [exact Hb|].
    inversion Hl; subst; apply IH; [assumption|].
    apply suffix_not_all; assumption. }
  destruct (G suffixes (c :: r) suffixes_shape) as (c0 & r0 & E0 & _);
    [eauto|].
  destruct (equivalence_class_prefix_aux suffixes (c :: r)) as [t Ht].
  rewrite E0 in *; simpl in Ht; inversion Ht; subst; eauto.
Qed.

(** X25 on "Tomatoes, raw". *)
Lemma equivalence_class_of_slug_nonempty_witness :
  exists r', slug_to_equivalence_class (slugify "Tomatoes, raw")
             = "t"%char :: r'.
Proof.
  apply (equivalence_class_of_slug_nonempty
           "Tomatoes, raw" "t"%char "omatoes-raw").
  vm_compute; reflexivity.
Defined.
